(** * Wave-function-collapse tile board: a shallow embedding

    The development follows the three source files:
    - [js/lib/layouts.js]   the catalogue of tile layouts,
    - [js/lib/class.tile.js] the [Tile] class,
    - [js/index.js]          the board, the selection policy and the driver.

    JavaScript values are modelled as follows.  Numbers that hold board
    positions are integers ([Z]); [NaN] (from [% 0]) is [None] in an
    [option Z].  [null]/[undefined] in a field is [None].  An object used as
    an ordered dictionary ([possibleTiles]) is an association list in key
    insertion order.  The board array holds the tile objects; a tile object
    is identified by its slot in that array, and a method call mutates the
    slot.  A thrown exception is an explicit outcome next to the (already
    mutated) state.  [Math.random()] is an oracle indexed by the number of
    draws made so far; it returns doubles, and the product
    [Math.random() * n] is rounded as a product of doubles is. *)

From Stdlib Require Import List ZArith String Ascii Bool Lia.
Import ListNotations.

Local Open Scope string_scope.
Local Open Scope list_scope.
Local Open Scope Z_scope.

(* ------------------------------------------------------------------ *)
(** ** Generic helpers for JavaScript idioms *)

(** [arr[i] = x] on an index inside the array. *)
Fixpoint setNth {A : Type} (i : nat) (x : A) (l : list A) : list A :=
  match l, i with
  | [], _ => []
  | _ :: tl, O => x :: tl
  | h :: tl, S i' => h :: setNth i' x tl
  end.

(** [s.charAt(i)]: the one-character string at [i], or the empty string. *)
Definition charAt (s : string) (i : nat) : string :=
  match String.get i s with
  | Some c => String c EmptyString
  | None => EmptyString
  end.

(** [s.split(sep)] for a one-character separator. *)
Fixpoint splitOn (sep : ascii) (s : string) : list string :=
  match s with
  | EmptyString => [EmptyString]
  | String c rest =>
      if Ascii.eqb c sep then EmptyString :: splitOn sep rest
      else match splitOn sep rest with
           | h :: tl => String c h :: tl
           | [] => [String c EmptyString]
           end
  end.

(** [s.split('1').length - 1 <= 1]: the edge has at most one black pixel. *)
Definition singlePixel (s : string) : bool :=
  (List.length (splitOn "1"%char s) - 1 <=? 1)%nat.

(** [a % b] on integers: truncated remainder, [NaN] when [b] is zero. *)
Definition jsMod (a b : Z) : option Z :=
  if b =? 0 then None else Some (Z.rem a b).

(** [x != y] where [x] may be [NaN]. *)
Definition jsNe (x : option Z) (y : Z) : bool :=
  match x with
  | None => true
  | Some v => negb (v =? y)
  end.

(** [Math.min(...l)]: [Infinity] ([None]) on the empty list. *)
Fixpoint jsMin (l : list nat) : option nat :=
  match l with
  | [] => None
  | x :: tl => match jsMin tl with
               | None => Some x
               | Some m => Some (Nat.min x m)
               end
  end.

(** A value returned by [Math.random()]: a double in [0, 1), written
    [mantissa * 2^-scale] with a mantissa of at most 53 bits.  The normal and
    the subnormal doubles below 1 are exactly the numbers of this form. *)
Record Rand := mkRand {
  mantissa : Z;
  scale : Z;
  rand_range :
    0 <= mantissa < 2 ^ 53 /\ 0 <= scale <= 1074 /\ mantissa < 2 ^ scale
}.

(** What the multiplication of two doubles does to its exact result [x]:
    rounding to the nearest number of 53 significant bits, ties to the even
    one.  [x] is a count of units [2^-scale], so a result of at most 53 bits
    is exact, and a longer one is in the normal range. *)
Definition roundToDouble (x : Z) : Z :=
  let s := Z.log2 x - 52 in
  if s <=? 0 then x
  else
    let q := x / 2 ^ s in
    let r := x mod 2 ^ s in
    let half := 2 ^ (s - 1) in
    if (half <? r) || ((r =? half) && Z.odd q)
    then (q + 1) * 2 ^ s
    else q * 2 ^ s.

(** [Math.floor(Math.random() * n)] for the length [n] of an array (an
    integer below [2^32], so a double itself): the exact product is rounded
    to a double, then floored. *)
Definition randIndex (u : Rand) (n : nat) : nat :=
  Z.to_nat (roundToDouble (mantissa u * Z.of_nat n) / 2 ^ scale u).

(* ------------------------------------------------------------------ *)
(** ** layouts.js *)

Definition Layout := list string.

Definition layouts : list (string * Layout) :=
  [ ("north", ["010"; "111"; "000"]);
    ("east",  ["010"; "011"; "010"]);
    ("south", ["000"; "111"; "010"]);
    ("west",  ["010"; "110"; "010"]);
    ("blank", ["000"; "000"; "000"]) ].

(** [obj[key]] on a dictionary. *)
Fixpoint lookup {A : Type} (key : string) (obj : list (string * A)) : option A :=
  match obj with
  | [] => None
  | (k, v) :: tl => if String.eqb k key then Some v else lookup key tl
  end.

(** [delete obj[key]]. *)
Definition deleteKey {A : Type} (key : string) (obj : list (string * A))
  : list (string * A) :=
  filter (fun e => negb (String.eqb (fst e) key)) obj.

(* ------------------------------------------------------------------ *)
(** ** class.tile.js: the data *)

Inductive Dir := north | east | south | west.

(** Iteration order of [for (const dir in this.neighbors)]. *)
Definition dirs : list Dir := [north; east; south; west].

Definition Dir_eqb (a b : Dir) : bool :=
  match a, b with
  | north, north | east, east | south, south | west, west => true
  | _, _ => false
  end.

(** An object with exactly the keys north, east, south, west. *)
Record PerDir (A : Type) := mkPerDir {
  atNorth : A; atEast : A; atSouth : A; atWest : A
}.
Arguments mkPerDir {A}.
Arguments atNorth {A}.
Arguments atEast {A}.
Arguments atSouth {A}.
Arguments atWest {A}.

Definition getDir {A} (o : PerDir A) (d : Dir) : A :=
  match d with
  | north => atNorth o
  | east => atEast o
  | south => atSouth o
  | west => atWest o
  end.

Definition setDir {A} (o : PerDir A) (d : Dir) (x : A) : PerDir A :=
  match d with
  | north => mkPerDir x (atEast o) (atSouth o) (atWest o)
  | east => mkPerDir (atNorth o) x (atSouth o) (atWest o)
  | south => mkPerDir (atNorth o) (atEast o) x (atWest o)
  | west => mkPerDir (atNorth o) (atEast o) (atSouth o) x
  end.

(** The fields of a [Tile].  [neighbors]: [None] is [null] (out of bounds),
    [Some false] uncollapsed, [Some true] collapsed. *)
Record Tile := mkTile {
  position : Z;
  collapsed : bool;
  facing : string;
  layout : option Layout;
  neighbors : PerDir (option bool);
  connections : PerDir (option string);
  possibleTiles : list (string * Layout)
}.

(** [new Tile(position)]. *)
Definition newTile (pos : Z) : Tile :=
  {| position := pos;
     collapsed := false;
     facing := "blank";
     layout := lookup "blank" layouts;
     neighbors := mkPerDir (Some false) (Some false) (Some false) (Some false);
     connections := mkPerDir None None None None;
     possibleTiles := map (fun e => (fst e, snd e)) layouts |}.

Definition getLayout (t : Tile) : option Layout := layout t.
Definition isCollapsed (t : Tile) : bool := collapsed t.
Definition getEntropy (t : Tile) : nat := List.length (map snd (possibleTiles t)).
Definition getConnector (t : Tile) (d : Dir) : option string :=
  getDir (connections t) d.

Definition setNeighbor (t : Tile) (d : Dir) (x : option bool) : Tile :=
  {| position := position t; collapsed := collapsed t; facing := facing t;
     layout := layout t; neighbors := setDir (neighbors t) d x;
     connections := connections t; possibleTiles := possibleTiles t |}.

Definition setPossibleTiles (t : Tile) (ps : list (string * Layout)) : Tile :=
  {| position := position t; collapsed := collapsed t; facing := facing t;
     layout := layout t; neighbors := neighbors t;
     connections := connections t; possibleTiles := ps |}.

(** [board[i] = x] at a position inside the array.  ([resetBoard] gives
    every tile its slot as [position], so [iterateLoop] stores inside.) *)
Definition storeAt (i : Z) (x : Tile) (board : list Tile) : list Tile :=
  if (0 <=? i) && (i <? Z.of_nat (List.length board))
  then setNth (Z.to_nat i) x board else board.

(** [board[i]]: [undefined] outside the array. *)
Definition boardAt (board : list Tile) (i : Z) : option Tile :=
  if (0 <=? i) && (i <? Z.of_nat (List.length board))
  then nth_error board (Z.to_nat i) else None.

(* ------------------------------------------------------------------ *)
(** ** Exceptions *)

(** The three ways a call can throw: the two [new Error(...)] of the source
    and the engine's [TypeError] on a property access of [null]/[undefined]. *)
Inductive Exn :=
| NoTilesPossible      (* "No tiles possible. Please restart." *)
| NoPossibleSolutions  (* "No possible solutions. Restart." *)
| TypeError.

Inductive Outcome (A : Type) :=
| Ret (a : A)
| Throw (e : Exn).
Arguments Ret {A}.
Arguments Throw {A}.

(** A method body running on the tile [this]: the outcome and the tile as
    the body left it (mutations made before a throw stay). *)
Definition TileOp := Tile -> Outcome unit * Tile.

(** [for (const dir in this.neighbors) body(dir)], stopping at a throw. *)
Fixpoint forDirs (body : Dir -> TileOp) (ds : list Dir) : TileOp :=
  fun t =>
    match ds with
    | [] => (Ret tt, t)
    | d :: rest =>
        match body d t with
        | (Ret _, t') => forDirs body rest t'
        | (Throw e, t') => (Throw e, t')
        end
    end.

(** Calling a method on [board[self]]: the tile object in slot [self] is
    mutated in place.  A method of class [Tile] writes only fields of [this],
    and the fields it reads from other tiles ([collapsed], [connections]) are
    fields it never writes, so the board it reads is the board at the call,
    also when a target index is [self] itself. *)
Definition callOn (self : nat) (method : list Tile -> TileOp) (board : list Tile)
  : Outcome unit * list Tile :=
  match nth_error board self with
  | None => (Throw TypeError, board)
  | Some this =>
      let '(r, this') := method board this in (r, setNth self this' board)
  end.

(* ------------------------------------------------------------------ *)
(** ** class.tile.js: findNeighbors *)

(** The [switch] of [findNeighbors]: the index to look at, [-1] when the
    east or west step would leave the row. *)
Definition neighborIndex (width pos : Z) (dir : Dir) : Z :=
  match dir with
  | north => pos - width
  | east => if jsNe (jsMod (pos + 1) width) 0 then pos + 1 else -1
  | south => pos + width
  | west => if jsNe (jsMod (pos - 1) width) (width - 1) then pos - 1 else -1
  end.

Definition findNeighborsDir (board : list Tile) (width : Z) (dir : Dir) : TileOp :=
  fun this =>
    match getDir (neighbors this) dir with
    | None => (Ret tt, this)
    | Some _ =>
        let targetIndex := neighborIndex width (position this) dir in
        if (0 <=? targetIndex) && (targetIndex <? Z.of_nat (List.length board)) then
          match nth_error board (Z.to_nat targetIndex) with
          | Some target =>
              if isCollapsed target
              then (Ret tt, setNeighbor this dir (Some true))
              else (Ret tt, this)
          | None => (Throw TypeError, this)
          end
        else (Ret tt, setNeighbor this dir None)
    end.

Definition findNeighborsBody (width : Z) (board : list Tile) : TileOp :=
  forDirs (findNeighborsDir board width) dirs.

Definition findNeighbors (self : nat) (width : Z) (board : list Tile)
  : Outcome unit * list Tile :=
  callOn self (findNeighborsBody width) board.

(* ------------------------------------------------------------------ *)
(** ** class.tile.js: findPossibleTiles *)

(** The unguarded index arithmetic of [findPossibleTiles] and [collapse]. *)
Definition stepIndex (width pos : Z) (dir : Dir) : Z :=
  match dir with
  | north => pos - width
  | east => pos + 1
  | south => pos + width
  | west => pos - 1
  end.

(** The side of the neighbour that faces back: north asks for the
    neighbour's south connector, and so on. *)
Definition facingSide (dir : Dir) : Dir :=
  match dir with
  | north => south
  | east => west
  | south => north
  | west => east
  end.

(** [for (let i = 0; i < 3; i++) edgeArray.push(layout[i].charAt(c))] and the
    [join('')]: a missing row is a [TypeError]. *)
Definition column3 (l : Layout) (c : nat) : Outcome (option string) :=
  match l with
  | r0 :: r1 :: r2 :: _ =>
      Ret (Some (String.append (charAt r0 c)
                   (String.append (charAt r1 c) (charAt r2 c))))
  | _ => Throw TypeError
  end.

(** The inner [switch (dir)] of [findPossibleTiles]. *)
Definition potentialConnectionStr (dir : Dir) (l : Layout) : Outcome (option string) :=
  match dir with
  | north => Ret (nth_error l 0)
  | east => column3 l 2
  | south => Ret (nth_error l 2)
  | west => column3 l 0
  end.

(** The condition of the [delete]:
    [validConnector && potential.split('1').length - 1 <= 1
       && potential.localeCompare(connector) !== 0].
    On strings of the characters 0 and 1, [localeCompare] is 0 exactly on
    equal strings. *)
Definition mustDelete (validConnector : bool) (connector : string)
    (potential : option string) : Outcome bool :=
  if validConnector then
    match potential with
    | None => Throw TypeError
    | Some s => Ret (singlePixel s && negb (String.eqb s connector))
    end
  else Ret false.

(** The loop over [Object.entries(this.possibleTiles)] (a snapshot), deleting
    keys from the live object [cur]. *)
Fixpoint narrowEntries (dir : Dir) (validConnector : bool) (connector : string)
    (entries cur : list (string * Layout))
  : Outcome unit * list (string * Layout) :=
  match entries with
  | [] => (Ret tt, cur)
  | (direction, l) :: rest =>
      match potentialConnectionStr dir l with
      | Throw e => (Throw e, cur)
      | Ret potential =>
          match mustDelete validConnector connector potential with
          | Throw e => (Throw e, cur)
          | Ret true =>
              narrowEntries dir validConnector connector rest (deleteKey direction cur)
          | Ret false =>
              narrowEntries dir validConnector connector rest cur
          end
      end
  end.

Definition findPossibleTilesDir (board : list Tile) (width : Z) (dir : Dir) : TileOp :=
  fun this =>
    match getDir (neighbors this) dir with
    | Some true =>
        let targetIndex := stepIndex width (position this) dir in
        match boardAt board targetIndex with
        | None => (Throw TypeError, this)
        | Some target =>
            match getConnector target (facingSide dir) with
            | None => (Throw TypeError, this)
            | Some connector =>
                let validConnector := singlePixel connector in
                let '(r, ps) :=
                  narrowEntries dir validConnector connector
                    (possibleTiles this) (possibleTiles this) in
                (r, setPossibleTiles this ps)
            end
        end
    | _ => (Ret tt, this)
    end.

Definition findPossibleTilesBody (width : Z) (board : list Tile) : TileOp :=
  fun this =>
    match forDirs (findPossibleTilesDir board width) dirs this with
    | (Throw e, this') => (Throw e, this')
    | (Ret _, this') =>
        if negb (isCollapsed this')
           && (List.length (map fst (possibleTiles this')) =? 0)%nat
        then (Throw NoTilesPossible, this')
        else (Ret tt, this')
    end.

Definition findPossibleTiles (self : nat) (width : Z) (board : list Tile)
  : Outcome unit * list Tile :=
  callOn self (findPossibleTilesBody width) board.

(* ------------------------------------------------------------------ *)
(** ** class.tile.js: generateConnections *)

(** [edgeArray.push(this.layout[i].charAt(c))] for every row, joined. *)
Definition column (l : Layout) (c : nat) : string :=
  String.concat "" (map (fun row => charAt row c) l).

(** The string stored under [key]; [None] is [undefined] (a missing row). *)
Definition connectionStr (fac : string) (lay : option Layout) (key : Dir)
  : Outcome (option string) :=
  if String.eqb fac "blank" then Ret (Some "000")
  else
    match lay with
    | None => Throw TypeError
    | Some l =>
        Ret (match key with
             | north => nth_error l 0
             | east => Some (column l 2)
             | south => match List.length l with
                        | O => None
                        | S n => nth_error l n
                        end
             | west => Some (column l 0)
             end)
    end.

Definition setConnection (t : Tile) (d : Dir) (x : option string) : Tile :=
  {| position := position t; collapsed := collapsed t; facing := facing t;
     layout := layout t; neighbors := neighbors t;
     connections := setDir (connections t) d x;
     possibleTiles := possibleTiles t |}.

Definition generateConnectionsKey (key : Dir) : TileOp :=
  fun this =>
    match connectionStr (facing this) (layout this) key with
    | Throw e => (Throw e, this)
    | Ret str => (Ret tt, setConnection this key str)
    end.

Definition generateConnections : TileOp :=
  forDirs generateConnectionsKey dirs.

(* ------------------------------------------------------------------ *)
(** ** The global state of index.js *)

(** [boardTiles], [collapsedTiles], and the number of [Math.random()] calls
    made so far. *)
Record World := mkWorld {
  boardTiles : list Tile;
  collapsedTiles : Z;
  draws : nat
}.

Section Program.

(** [Math.random]: the value returned by the [k]-th call. *)
Variable random : nat -> Rand.

(** [boardWidth] and [boardHeight] (both 30 in the source). *)
Variables boardWidth boardHeight : Z.

(* ------------------------------------------------------------------ *)
(** ** class.tile.js: collapse *)

Definition setChoice (t : Tile) (fac : string) : Tile :=
  {| position := position t; collapsed := collapsed t; facing := fac;
     layout := lookup fac layouts; neighbors := neighbors t;
     connections := connections t; possibleTiles := possibleTiles t |}.

Definition markCollapsed (t : Tile) : Tile :=
  {| position := position t; collapsed := true; facing := facing t;
     layout := layout t; neighbors := neighbors t;
     connections := connections t; possibleTiles := [] |}.

(** One round of the loop that tells the neighbours: [this.neighbors[dir]]
    is read from the tile object as it is now. *)
Definition notifyDir (self : nat) (width : Z) (dir : Dir) (board : list Tile)
  : Outcome unit * list Tile :=
  match nth_error board self with
  | None => (Throw TypeError, board)
  | Some this =>
      match getDir (neighbors this) dir with
      | Some false =>
          let targetIndex := stepIndex width (position this) dir in
          if (0 <=? targetIndex) && (targetIndex <? Z.of_nat (List.length board)) then
            match findNeighbors (Z.to_nat targetIndex) width board with
            | (Throw e, board') => (Throw e, board')
            | (Ret _, board') => findPossibleTiles (Z.to_nat targetIndex) width board'
            end
          else (Throw TypeError, board)
      | _ => (Ret tt, board)
      end
  end.

Fixpoint notifyNeighbors (self : nat) (width : Z) (ds : list Dir) (board : list Tile)
  : Outcome unit * list Tile :=
  match ds with
  | [] => (Ret tt, board)
  | d :: rest =>
      match notifyDir self width d board with
      | (Throw e, board') => (Throw e, board')
      | (Ret _, board') => notifyNeighbors self width rest board'
      end
  end.

(** [board[self].collapse(board, width)], with [board] the global
    [boardTiles] as at every call site. *)
Definition collapse (self : nat) (width : Z) (w : World) : Outcome bool * World :=
  match nth_error (boardTiles w) self with
  | None => (Throw TypeError, w)
  | Some this =>
      let possibleLayouts := map fst (possibleTiles this) in
      if (List.length possibleLayouts =? 0)%nat then (Ret false, w)
      else
        let choice :=
          nth (randIndex (random (draws w)) (List.length possibleLayouts))
              possibleLayouts "" in
        match generateConnections (setChoice this choice) with
        | (Throw e, this') =>
            (Throw e,
             mkWorld (setNth self this' (boardTiles w)) (collapsedTiles w) (S (draws w)))
        | (Ret _, this') =>
            match notifyNeighbors self width dirs
                    (setNth self (markCollapsed this') (boardTiles w)) with
            | (Throw e, board') =>
                (Throw e, mkWorld board' (collapsedTiles w) (S (draws w)))
            | (Ret _, board') =>
                (Ret true, mkWorld board' (collapsedTiles w) (S (draws w)))
            end
        end
  end.

(* ------------------------------------------------------------------ *)
(** ** index.js *)

(** The second loop of [resetBoard]: every tile looks at its neighbours. *)
Fixpoint findNeighborsFrom (i : nat) (count : nat) (board : list Tile) : list Tile :=
  match count with
  | O => board
  | S count' =>
      findNeighborsFrom (S i) count' (snd (findNeighbors i boardWidth board))
  end.

(** [resetBoard()] without the drawing. *)
Definition resetBoard (w : World) : World :=
  let size := Z.to_nat (boardHeight * boardWidth) in
  let newBoard := map (fun i => newTile (Z.of_nat i)) (seq 0 size) in
  mkWorld (findNeighborsFrom 0 size newBoard) 0 (draws w).

(** The first loop of [chooseNextTile]. *)
Definition entropyArray (board : list Tile) : list nat :=
  map (fun currentTile =>
         if isCollapsed currentTile then O else getEntropy currentTile) board.

(** [entropyArray.map((value, index) => value == min ? index : -1)
       .filter(value => value >= 0)]. *)
Fixpoint flagged (min : option nat) (index : nat) (values : list nat) : list nat :=
  match values with
  | [] => []
  | value :: rest =>
      match min with
      | Some m => if (value =? m)%nat then index :: flagged min (S index) rest
                  else flagged min (S index) rest
      | None => flagged min (S index) rest
      end
  end.

Definition entropicTiles (board : list Tile) : list nat :=
  let values := entropyArray board in
  let min := jsMin (filter (fun item => negb (item =? 0)%nat) values) in
  flagged min O values.

(** [chooseNextTile()]: the slot of the chosen tile, [None] for [undefined]. *)
Definition chooseNextTile (w : World) : option nat * World :=
  let tied := entropicTiles (boardTiles w) in
  match tied with
  | [only] => (Some only, w)
  | _ =>
      (nth_error tied (randIndex (random (draws w)) (List.length tied)),
       mkWorld (boardTiles w) (collapsedTiles w) (S (draws w)))
  end.

(** [iterateLoop()]. *)
Definition iterateLoop (w : World) : Outcome Z * World :=
  match chooseNextTile w with
  | (None, w1) => (Throw TypeError, w1)
  | (Some nextTile, w1) =>
      match collapse nextTile boardWidth w1 with
      | (Throw e, w2) => (Throw e, w2)
      | (Ret false, w2) => (Throw NoPossibleSolutions, w2)
      | (Ret true, w2) =>
          match nth_error (boardTiles w2) nextTile with
          | None => (Throw TypeError, w2)
          | Some tile =>
              (Ret (position tile),
               mkWorld (storeAt (position tile) tile (boardTiles w2))
                       (collapsedTiles w2 + 1) (draws w2))
          end
      end
  end.

(** [doCollapse()] without the drawing: [false] when [iterateLoop] threw. *)
Definition doCollapse (w : World) : bool * World :=
  match iterateLoop w with
  | (Throw _, w') => (false, w')
  | (Ret _, w') => (true, w')
  end.

End Program.

(* ------------------------------------------------------------------ *)
(** ** Random draws *)

Lemma roundToDouble_cases (x : Z) :
  0 <= x ->
  roundToDouble x = x \/
  exists s q,
    0 < s /\ 2 ^ 52 * 2 ^ s <= x /\ 0 < 2 ^ s /\
    q * 2 ^ s <= x < (q + 1) * 2 ^ s /\
    q * 2 ^ s <= roundToDouble x /\
    2 * roundToDouble x <= 2 * x + 2 ^ s.
Proof.
  intros Hx. unfold roundToDouble.
  destruct (Z.leb_spec (Z.log2 x - 52) 0) as [Hs|Hs]; [left; reflexivity|].
  right. set (s := Z.log2 x - 52) in *.
  assert (Hpos : 0 < x).
  { destruct (Z.eq_dec x 0) as [->|]; [simpl in s; lia | lia]. }
  destruct (Z.log2_spec x Hpos) as [Hlow _].
  replace (Z.log2 x) with (52 + s) in Hlow by (unfold s; lia).
  rewrite Z.pow_add_r in Hlow by lia.
  assert (Hp : 0 < 2 ^ s) by (apply Z.pow_pos_nonneg; lia).
  assert (Hhalf : 2 ^ s = 2 * 2 ^ (s - 1)).
  { replace s with (1 + (s - 1)) at 1 by lia. rewrite Z.pow_add_r by lia. reflexivity. }
  pose proof (Z.div_mod x (2 ^ s) ltac:(lia)) as Hdm.
  pose proof (Z.mod_pos_bound x (2 ^ s) Hp) as Hr.
  exists s, (x / 2 ^ s).
  split; [exact Hs|]. split; [exact Hlow|]. split; [exact Hp|].
  split; [nia|].
  destruct ((2 ^ (s - 1) <? x mod 2 ^ s)
            || ((x mod 2 ^ s =? 2 ^ (s - 1)) && Z.odd (x / 2 ^ s))) eqn:Hup.
  - split; [nia|].
    assert (Hge : 2 ^ (s - 1) <= x mod 2 ^ s).
    { apply orb_true_iff in Hup. destruct Hup as [H|H].
      - apply Z.ltb_lt in H. lia.
      - apply andb_true_iff in H. destruct H as [H _]. apply Z.eqb_eq in H. lia. }
    nia.
  - split; [lia | nia].
Qed.

Lemma roundToDouble_nonneg (x : Z) : 0 <= x -> 0 <= roundToDouble x.
Proof.
  intros Hx. destruct (roundToDouble_cases x Hx) as [->|(s & q & Hs & Hlow & Hp & Hq & Hr & _)];
    [exact Hx|].
  assert (0 <= q) by nia. nia.
Qed.

(** Rounding moves the product up by at most one part in [2^53]. *)
Lemma roundToDouble_upper (x : Z) :
  0 <= x -> 2 ^ 53 * roundToDouble x <= (2 ^ 53 + 1) * x.
Proof.
  intros Hx. destruct (roundToDouble_cases x Hx) as [->|(s & q & Hs & Hlow & Hp & Hq & _ & Hr)];
    [lia|].
  change (2 ^ 53) with (2 * 2 ^ 52). lia.
Qed.

(** Rounding never goes below a number of at most 53 bits that the product
    has reached. *)
Lemma roundToDouble_keeps (x j e : Z) :
  0 <= j < 2 ^ 53 -> 0 <= e -> j * 2 ^ e <= x -> j * 2 ^ e <= roundToDouble x.
Proof.
  intros Hj He Hle.
  assert (Hx : 0 <= x).
  { assert (0 < 2 ^ e) by (apply Z.pow_pos_nonneg; lia). nia. }
  destruct (roundToDouble_cases x Hx) as [->|(s & q & Hs & Hlow & Hp & Hq & Hr & _)];
    [exact Hle|].
  apply Z.le_trans with (q * 2 ^ s); [|exact Hr].
  assert (Hpe : 0 < 2 ^ e) by (apply Z.pow_pos_nonneg; lia).
  destruct (Z.le_gt_cases s e) as [Hse|Hse].
  - replace e with ((e - s) + s) in * by lia.
    rewrite Z.pow_add_r in * by lia.
    assert (Hd : 0 < 2 ^ (e - s)) by (apply Z.pow_pos_nonneg; lia).
    assert (j * 2 ^ (e - s) < q + 1) by nia.
    nia.
  - assert (Hsplit : 2 ^ s = 2 ^ (s - e - 1) * 2 * 2 ^ e).
    { replace s with ((s - e - 1) + 1 + e) at 1 by lia.
      rewrite !Z.pow_add_r by lia. reflexivity. }
    assert (Hd : 0 < 2 ^ (s - e - 1)) by (apply Z.pow_pos_nonneg; lia).
    assert (Hq52 : 2 ^ 52 <= q) by nia.
    change (2 ^ 53) with (2 * 2 ^ 52) in Hj.
    rewrite Hsplit. nia.
Qed.

Lemma randIndex_floor (u : Rand) (n k : nat) :
  randIndex u n = k <->
  Z.of_nat k * 2 ^ scale u <= roundToDouble (mantissa u * Z.of_nat n)
  < (Z.of_nat k + 1) * 2 ^ scale u.
Proof.
  unfold randIndex.
  destruct (rand_range u) as (Hm & Hs & _).
  assert (Hp : 0 < 2 ^ scale u) by (apply Z.pow_pos_nonneg; lia).
  pose proof (roundToDouble_nonneg (mantissa u * Z.of_nat n) ltac:(nia)) as Hr.
  set (r := roundToDouble (mantissa u * Z.of_nat n)) in *.
  pose proof (Z.div_mod r (2 ^ scale u) ltac:(lia)) as Hdm.
  pose proof (Z.mod_pos_bound r (2 ^ scale u) Hp) as Hmod.
  assert (Hq : 0 <= r / 2 ^ scale u) by (apply Z.div_pos; lia).
  split.
  - intros E. assert (Ek : r / 2 ^ scale u = Z.of_nat k) by lia. nia.
  - intros [Hlo Hhi]. assert (Ek : r / 2 ^ scale u = Z.of_nat k) by nia. lia.
Qed.

Lemma randIndex_lt (u : Rand) (n : nat) :
  (0 < n)%nat -> (randIndex u n < n)%nat.
Proof.
  intros Hn. unfold randIndex.
  destruct (rand_range u) as (Hm & Hs & Hone).
  assert (Hp : 0 < 2 ^ scale u) by (apply Z.pow_pos_nonneg; lia).
  assert (Hx : 0 <= mantissa u * Z.of_nat n) by nia.
  pose proof (roundToDouble_nonneg _ Hx) as Hr.
  assert (Hlt : roundToDouble (mantissa u * Z.of_nat n) < Z.of_nat n * 2 ^ scale u).
  { destruct (roundToDouble_cases _ Hx)
      as [->|(s & q & Hs0 & Hlow & Hps & _ & _ & Hup)]; [nia|].
    change (2 ^ 53) with (2 * 2 ^ 52) in Hm.
    assert (2 ^ s < 2 * Z.of_nat n) by nia. nia. }
  assert (Hq : roundToDouble (mantissa u * Z.of_nat n) / 2 ^ scale u < Z.of_nat n).
  { apply Z.div_lt_upper_bound; [exact Hp | lia]. }
  assert (0 <= roundToDouble (mantissa u * Z.of_nat n) / 2 ^ scale u)
    by (apply Z.div_pos; lia).
  lia.
Qed.

(** Which draws give which index.  Write [u] for the draw and [x = u * n]
    for the exact product, both counted in units of [2^-scale u].  The index
    is [k] whenever [k <= x] and [x * (1 + 2^-53) < k + 1]; and when the index
    is [k] then [k <= x * (1 + 2^-53)] and [x < k + 1].  So index [k] is drawn
    on the interval [k/n <= u < (k+1)/n], but for draws so close under
    [(k+1)/n] that the product rounds to [k + 1]. *)
Lemma randIndex_interval (u : Rand) (n k : nat) :
  Z.of_nat n < 2 ^ 53 ->
  let x := mantissa u * Z.of_nat n in
  let one := 2 ^ scale u in
  (Z.of_nat k * one <= x /\ (2 ^ 53 + 1) * x < 2 ^ 53 * ((Z.of_nat k + 1) * one) ->
   randIndex u n = k) /\
  (randIndex u n = k ->
   2 ^ 53 * (Z.of_nat k * one) <= (2 ^ 53 + 1) * x /\ x < (Z.of_nat k + 1) * one).
Proof.
  intros Hn x one.
  destruct (rand_range u) as (Hm & Hs & Hone).
  assert (Hp : 0 < one) by (apply Z.pow_pos_nonneg; lia).
  assert (Hx : 0 <= x) by (unfold x; nia).
  pose proof (roundToDouble_upper x Hx) as Hup.
  split.
  - intros [Hlo Hhi]. apply randIndex_floor. fold x one.
    assert (Hk : Z.of_nat k < 2 ^ 53) by (unfold x in *; fold one in Hone; nia).
    split; [apply roundToDouble_keeps; lia | lia].
  - intros E.
    assert (Hk : Z.of_nat k + 1 < 2 ^ 53).
    { destruct n as [|n']; [|pose proof (randIndex_lt u (S n') ltac:(lia)); lia].
      unfold randIndex in E. rewrite Z.mul_0_r in E. cbn in E. subst k. lia. }
    apply randIndex_floor in E. fold x one in E. destruct E as [Hlo Hhi].
    split; [lia|].
    destruct (Z.lt_ge_cases x ((Z.of_nat k + 1) * one)) as [Hlt|Hge]; [exact Hlt|].
    pose proof (roundToDouble_keeps x (Z.of_nat k + 1) (scale u) ltac:(lia) ltac:(lia) Hge).
    fold one in H. lia.
Qed.

(** The least multiple of [2^-53] that is not below [k / (k + m + 1)]: a
    draw that gives index [k] of [k + m + 1]. *)
Lemma fraction_range (k m : nat) :
  0 <= Z.min (2 ^ 53 - 1)
         ((Z.of_nat k * 2 ^ 53 + Z.of_nat (k + m)) / Z.of_nat (S (k + m))) < 2 ^ 53 /\
  0 <= 53 <= 1074 /\
  Z.min (2 ^ 53 - 1)
    ((Z.of_nat k * 2 ^ 53 + Z.of_nat (k + m)) / Z.of_nat (S (k + m))) < 2 ^ 53.
Proof.
  assert (0 <= (Z.of_nat k * 2 ^ 53 + Z.of_nat (k + m)) / Z.of_nat (S (k + m)))
    by (apply Z.div_pos; lia).
  lia.
Qed.

Definition fraction (k m : nat) : Rand :=
  mkRand (Z.min (2 ^ 53 - 1)
            ((Z.of_nat k * 2 ^ 53 + Z.of_nat (k + m)) / Z.of_nat (S (k + m))))
         53 (fraction_range k m).

Lemma randIndex_fraction (k m : nat) :
  Z.of_nat (S (k + m)) < 2 ^ 32 ->
  randIndex (fraction k m) (S (k + m)) = k.
Proof.
  intros Hn.
  set (n := Z.of_nat (S (k + m))) in *.
  set (c := (Z.of_nat k * 2 ^ 53 + Z.of_nat (k + m)) / n).
  assert (Hnpos : 0 < n) by (unfold n; lia).
  pose proof (Z.div_mod (Z.of_nat k * 2 ^ 53 + Z.of_nat (k + m)) n ltac:(lia)) as Hdm.
  pose proof (Z.mod_pos_bound (Z.of_nat k * 2 ^ 53 + Z.of_nat (k + m)) n Hnpos) as Hmod.
  fold c in Hdm.
  assert (Hkn : Z.of_nat k < n) by (unfold n; lia).
  assert (Hkm : Z.of_nat (k + m) = n - 1) by (unfold n; lia).
  assert (Hc1 : Z.of_nat k * 2 ^ 53 <= c * n) by lia.
  assert (Hc2 : c * n < Z.of_nat k * 2 ^ 53 + n) by lia.
  assert (Hcap : c <= 2 ^ 53 - 1).
  { change (2 ^ 32) with 4294967296 in Hn. change (2 ^ 53) with 9007199254740992 in *.
    nia. }
  apply (proj1 (randIndex_interval (fraction k m) (S (k + m)) k
                  ltac:(fold n; change (2 ^ 32) with 4294967296 in Hn;
                        change (2 ^ 53) with 9007199254740992; lia))).
  cbn [fraction mantissa scale]. fold n. fold c.
  rewrite Z.min_r by lia.
  change (2 ^ 32) with 4294967296 in Hn. change (2 ^ 53) with 9007199254740992 in *.
  split; nia.
Qed.

(** The double [0.6666666666666666], just below [2/3]: its product with
    [3] rounds to [2], so the index drawn from three is [2]. *)
Lemma twoThirds_range :
  0 <= 6004799503160661 < 2 ^ 53 /\ 0 <= 53 <= 1074 /\ 6004799503160661 < 2 ^ 53.
Proof. cbn. lia. Qed.

Example randIndex_rounds_the_product :
  randIndex (mkRand 6004799503160661 53 twoThirds_range) 3 = 2%nat /\
  6004799503160661 * 3 < 2 * 2 ^ 53.
Proof. split; [vm_compute; reflexivity | cbn; lia]. Qed.

(* ------------------------------------------------------------------ *)
(** ** Arrays: reading after writing *)

Lemma setNth_length {A} (i : nat) (x : A) (l : list A) :
  List.length (setNth i x l) = List.length l.
Proof.
  revert i; induction l as [|h tl IH]; intros [|i]; simpl; auto.
Qed.

Lemma nth_error_setNth_same {A} (i : nat) (x : A) (l : list A) :
  (i < List.length l)%nat -> nth_error (setNth i x l) i = Some x.
Proof.
  revert i; induction l as [|h tl IH]; intros [|i] H; simpl in *; try lia; auto.
  apply IH; lia.
Qed.

Lemma nth_error_setNth_other {A} (i j : nat) (x : A) (l : list A) :
  i <> j -> nth_error (setNth i x l) j = nth_error l j.
Proof.
  revert i j; induction l as [|h tl IH]; intros [|i] [|j] H; simpl; auto.
  congruence.
Qed.

Lemma setNth_unchanged {A} (i : nat) (x : A) (l : list A) :
  nth_error l i = Some x -> setNth i x l = l.
Proof.
  revert i; induction l as [|h tl IH]; intros [|i] H; simpl in *; try congruence.
  f_equal; auto.
Qed.

Lemma nth_error_in_range {A} (l : list A) (i : nat) (x : A) :
  nth_error l i = Some x -> (i < List.length l)%nat.
Proof.
  intros H. apply nth_error_Some. congruence.
Qed.

(* ------------------------------------------------------------------ *)
(** ** The two edge computations on the catalogue *)

(** The edge of a layout as [findPossibleTiles] reads it, [None] when the
    layout is too short to have one. *)
Definition edgeOf (dir : Dir) (l : Layout) : option string :=
  match potentialConnectionStr dir l with
  | Ret s => s
  | Throw _ => None
  end.

(** [generateConnections] on a tile whose choice is a catalogue variant
    stores, for every side, the edge of that variant's layout. *)
Lemma generateConnections_catalogue (name : string) (l : Layout) (t : Tile) :
  In (name, l) layouts ->
  exists t',
    generateConnections (setChoice t name) = (Ret tt, t') /\
    position t' = position t /\ collapsed t' = collapsed t /\
    facing t' = name /\ layout t' = Some l /\
    neighbors t' = neighbors t /\ possibleTiles t' = possibleTiles t /\
    forall dir, potentialConnectionStr dir l = Ret (getConnector t' dir).
Proof.
  intros Hin. simpl in Hin.
  repeat (destruct Hin as [Hin | Hin];
          [ injection Hin as <- <-; eexists; split; [reflexivity|];
            repeat (split; [reflexivity|]); intros []; reflexivity | ]).
  contradiction.
Qed.

(** C9.  For every variant of the catalogue, "blank" with its constant
    "000" included, and every direction, the connection string that
    [generateConnections] caches equals the [potentialConnectionStr] that
    [findPossibleTiles] computes from the variant's layout. *)
Theorem generateConnections_agrees_with_potentialConnectionStr
    (name : string) (l : Layout) (dir : Dir) (t : Tile) :
  In (name, l) layouts ->
  fst (generateConnections (setChoice t name)) = Ret tt /\
  exists str,
    getConnector (snd (generateConnections (setChoice t name))) dir = Some str /\
    potentialConnectionStr dir l = Ret (Some str).
Proof.
  intros Hin.
  destruct (generateConnections_catalogue name l t Hin)
    as (t' & Hgen & _ & _ & _ & _ & _ & _ & Hedge).
  rewrite Hgen. split; [reflexivity|]. simpl snd.
  specialize (Hedge dir).
  destruct (getConnector t' dir) as [str|] eqn:Hc.
  - exists str. split; [reflexivity | exact Hedge].
  - exfalso. simpl in Hin.
    repeat (destruct Hin as [Hin | Hin];
            [ injection Hin as <- <-; destruct dir; discriminate Hedge | ]).
    contradiction.
Qed.

Lemma generateConnections_agrees_witness :
  In ("blank", ["000"; "000"; "000"]) layouts /\
  fst (generateConnections (setChoice (newTile 0) "blank")) = Ret tt /\
  exists str,
    getConnector (snd (generateConnections (setChoice (newTile 0) "blank"))) east
      = Some str /\
    potentialConnectionStr east ["000"; "000"; "000"] = Ret (Some str).
Proof.
  assert (Hin : In ("blank", ["000"; "000"; "000"]) layouts).
  { simpl. do 4 right. left. reflexivity. }
  split; [exact Hin|].
  exact (generateConnections_agrees_with_potentialConnectionStr
           "blank" ["000"; "000"; "000"] east (newTile 0) Hin).
Defined.

(* ------------------------------------------------------------------ *)
(** ** Scenario B: a board of two tiles side by side *)

(** C3.  On the board of width 2 and height 1, when the draw makes tile 0
    choose "east", the collapse succeeds, tile 0 caches "010" as its east
    connector, and the narrowing of tile 1 deletes exactly "east" and "blank":
    "north", "south" and "west" remain, an entropy of 3. *)
Theorem scenario_B_east_then_three_candidates
    (random : nat -> Rand) (w : World) :
  let w0 := resetBoard 2 1 w in
  nth (randIndex (random (draws w0)) 5) (map fst layouts) "" = "east" ->
  exists t0 t1 : Tile,
    fst (collapse random 0 2 w0) = Ret true /\
    boardTiles (snd (collapse random 0 2 w0)) = [t0; t1] /\
    collapsed t0 = true /\ facing t0 = "east" /\
    getConnector t0 east = Some "010" /\
    collapsed t1 = false /\
    map fst (possibleTiles (newTile 1)) = ["north"; "east"; "south"; "west"; "blank"] /\
    map fst (possibleTiles t1) = ["north"; "south"; "west"] /\
    getEntropy t1 = 3%nat.
Proof.
  intros w0 Hchoice.
  assert (Hidx : randIndex (random (draws w0)) 5 = 1%nat).
  { pose proof (randIndex_lt (random (draws w0)) 5 ltac:(lia)) as Hlt.
    destruct (randIndex (random (draws w0)) 5) as [|[|[|[|[|n]]]]];
      try discriminate Hchoice; try reflexivity; lia. }
  assert (Hr : w0 = mkWorld (boardTiles (resetBoard 2 1 (mkWorld [] 0 0))) 0 (draws w))
    by reflexivity.
  assert (Hd : draws w0 = draws w) by reflexivity.
  rewrite Hd in Hidx. rewrite Hr.
  unfold collapse. cbn [boardTiles draws collapsedTiles].
  set (b := boardTiles _). vm_compute in b. subst b.
  cbn [nth_error possibleTiles map fst List.length Nat.eqb].
  rewrite Hidx. cbn [nth].
  do 2 eexists. vm_compute. repeat split.
Qed.

Lemma scenario_B_witness :
  exists t0 t1 : Tile,
    fst (collapse (fun _ => fraction 1 3) 0 2 (resetBoard 2 1 (mkWorld [] 0 0)))
      = Ret true /\
    boardTiles (snd (collapse (fun _ => fraction 1 3) 0 2
                       (resetBoard 2 1 (mkWorld [] 0 0)))) = [t0; t1] /\
    collapsed t0 = true /\ facing t0 = "east" /\
    getConnector t0 east = Some "010" /\
    collapsed t1 = false /\
    map fst (possibleTiles (newTile 1)) = ["north"; "east"; "south"; "west"; "blank"] /\
    map fst (possibleTiles t1) = ["north"; "south"; "west"] /\
    getEntropy t1 = 3%nat.
Proof.
  apply (scenario_B_east_then_three_candidates
           (fun _ => fraction 1 3) (mkWorld [] 0 0)).
  vm_compute. reflexivity.
Defined.

(* ------------------------------------------------------------------ *)
(** ** What the methods leave alone *)

Lemma getDir_setDir_same {A} (o : PerDir A) (d : Dir) (x : A) :
  getDir (setDir o d x) d = x.
Proof. destruct d; reflexivity. Qed.

Lemma getDir_setDir_other {A} (o : PerDir A) (d d' : Dir) (x : A) :
  d <> d' -> getDir (setDir o d x) d' = getDir o d'.
Proof. destruct d, d'; intros H; try reflexivity; congruence. Qed.

(** The fields that only [collapse] writes. *)
Definition sameCore (t t' : Tile) : Prop :=
  position t' = position t /\ collapsed t' = collapsed t /\
  facing t' = facing t /\ layout t' = layout t /\
  connections t' = connections t.

(** [l'] is [l] with some entries deleted. *)
Definition filtered {A} (l l' : list A) : Prop :=
  exists keep : A -> bool, l' = filter keep l.

Lemma filtered_refl {A} (l : list A) : filtered l l.
Proof.
  exists (fun _ => true). induction l as [|h tl IH]; simpl; congruence.
Qed.

Lemma filter_filter {A} (f g : A -> bool) (l : list A) :
  filter g (filter f l) = filter (fun x => f x && g x) l.
Proof.
  induction l as [|h tl IH]; simpl; [reflexivity|].
  destruct (f h); simpl; [destruct (g h)|]; congruence.
Qed.

Lemma filtered_trans {A} (a b c : list A) :
  filtered a b -> filtered b c -> filtered a c.
Proof.
  intros [f ->] [g ->]. exists (fun x => f x && g x). apply filter_filter.
Qed.

Lemma filtered_incl {A} (l l' : list A) : filtered l l' -> incl l' l.
Proof.
  intros [f ->] x Hx. apply filter_In in Hx. tauto.
Qed.

Lemma filtered_nil {A} (l' : list A) : filtered [] l' -> l' = [].
Proof. intros [f ->]. reflexivity. Qed.

Lemma filtered_length {A} (l l' : list A) :
  filtered l l' -> (List.length l' <= List.length l)%nat.
Proof.
  intros [f ->]. induction l as [|h tl IH]; simpl; [lia|].
  destruct (f h); simpl; lia.
Qed.

Lemma filtered_NoDup_keys {A B} (l l' : list (A * B)) :
  filtered l l' -> NoDup (map fst l) -> NoDup (map fst l').
Proof.
  intros [f ->]. induction l as [|h tl IH]; simpl; intros Hnd; [constructor|].
  inversion Hnd as [|x xs Hnotin Hnd']; subst.
  destruct (f h); simpl; [|auto].
  constructor; [|auto].
  intros Hin. apply Hnotin.
  apply in_map_iff in Hin. destruct Hin as (e & He & Hin).
  apply filter_In in Hin. destruct Hin as [Hin _].
  apply in_map_iff. exists e. split; assumption.
Qed.

(** A tile after calls of [findNeighbors] and [findPossibleTiles]: the core
    is as before and candidates were only deleted. *)
Definition updated (t t' : Tile) : Prop :=
  sameCore t t' /\ filtered (possibleTiles t) (possibleTiles t').

Lemma sameCore_refl (t : Tile) : sameCore t t.
Proof. repeat split. Qed.

Lemma sameCore_trans (a b c : Tile) : sameCore a b -> sameCore b c -> sameCore a c.
Proof.
  intros (H1 & H2 & H3 & H4 & H5) (K1 & K2 & K3 & K4 & K5).
  repeat split; congruence.
Qed.

Lemma updated_refl (t : Tile) : updated t t.
Proof. split; [apply sameCore_refl | apply filtered_refl]. Qed.

Lemma updated_trans (a b c : Tile) : updated a b -> updated b c -> updated a c.
Proof.
  intros [H1 H2] [K1 K2]. split.
  - eapply sameCore_trans; eauto.
  - eapply filtered_trans; eauto.
Qed.

(** A loop over the directions keeps every relation that each round keeps. *)
Lemma forDirs_keeps (R : Tile -> Tile -> Prop) (body : Dir -> TileOp) :
  (forall t, R t t) ->
  (forall a b c, R a b -> R b c -> R a c) ->
  (forall d t, R t (snd (body d t))) ->
  forall ds t, R t (snd (forDirs body ds t)).
Proof.
  intros Hrefl Htrans Hbody ds.
  induction ds as [|d rest IH]; intros t; simpl.
  - apply Hrefl.
  - specialize (Hbody d t).
    destruct (body d t) as [[[]|e] t1]; simpl in *.
    + eapply Htrans; [exact Hbody | apply IH].
    + exact Hbody.
Qed.

(** [findNeighbors] in one direction, as a function of the tile. *)
Definition lookAt (board : list Tile) (width : Z) (dir : Dir) (t : Tile) : Tile :=
  match getDir (neighbors t) dir with
  | None => t
  | Some _ =>
      match boardAt board (neighborIndex width (position t) dir) with
      | Some target =>
          if collapsed target then setNeighbor t dir (Some true) else t
      | None => setNeighbor t dir None
      end
  end.

Lemma findNeighborsDir_lookAt (board : list Tile) (width : Z) (dir : Dir) (t : Tile) :
  findNeighborsDir board width dir t = (Ret tt, lookAt board width dir t).
Proof.
  unfold findNeighborsDir, lookAt, boardAt, isCollapsed.
  destruct (getDir (neighbors t) dir); [|reflexivity].
  destruct ((0 <=? neighborIndex width (position t) dir)
            && (neighborIndex width (position t) dir <? Z.of_nat (List.length board)))
    eqn:Hin; [|reflexivity].
  destruct (nth_error board (Z.to_nat (neighborIndex width (position t) dir)))
    as [target|] eqn:Hn.
  - destruct (collapsed target); reflexivity.
  - exfalso. apply nth_error_None in Hn.
    apply andb_true_iff in Hin. destruct Hin as [H0 H1].
    apply Z.leb_le in H0. apply Z.ltb_lt in H1. lia.
Qed.

Lemma findNeighborsBody_lookAt (board : list Tile) (width : Z) (t : Tile) :
  findNeighborsBody width board t =
  (Ret tt,
   lookAt board width west
     (lookAt board width south
        (lookAt board width east (lookAt board width north t)))).
Proof.
  unfold findNeighborsBody, dirs. simpl forDirs.
  rewrite !findNeighborsDir_lookAt. reflexivity.
Qed.

Lemma lookAt_sameCore (board : list Tile) (width : Z) (dir : Dir) (t : Tile) :
  sameCore t (lookAt board width dir t) /\
  possibleTiles (lookAt board width dir t) = possibleTiles t.
Proof.
  unfold lookAt.
  destruct (getDir (neighbors t) dir); [|split; [apply sameCore_refl | reflexivity]].
  destruct (boardAt board _) as [target|];
    [destruct (collapsed target)|]; split;
    try apply sameCore_refl; try reflexivity; repeat split.
Qed.

Lemma lookAt_position (board : list Tile) (width : Z) (dir : Dir) (t : Tile) :
  position (lookAt board width dir t) = position t.
Proof. apply lookAt_sameCore. Qed.

Lemma lookAt_other (board : list Tile) (width : Z) (dir d : Dir) (t : Tile) :
  dir <> d ->
  getDir (neighbors (lookAt board width dir t)) d = getDir (neighbors t) d.
Proof.
  intros Hne. unfold lookAt.
  destruct (getDir (neighbors t) dir); [|reflexivity].
  destruct (boardAt board _) as [target|]; [destruct (collapsed target)|];
    simpl; try reflexivity; apply getDir_setDir_other; exact Hne.
Qed.

(** The status of direction [d] after [findNeighbors], from the status
    before and the board. *)
Definition statusAfter (board : list Tile) (width : Z) (t : Tile) (d : Dir)
  : option bool :=
  match getDir (neighbors t) d with
  | None => None
  | Some b =>
      match boardAt board (neighborIndex width (position t) d) with
      | Some target => if collapsed target then Some true else Some b
      | None => None
      end
  end.

Lemma lookAt_same (board : list Tile) (width : Z) (d : Dir) (t : Tile) :
  getDir (neighbors (lookAt board width d t)) d = statusAfter board width t d.
Proof.
  unfold lookAt, statusAfter.
  destruct (getDir (neighbors t) d) eqn:Hd; [|exact Hd].
  destruct (boardAt board _) as [target|]; [destruct (collapsed target)|];
    simpl; try exact Hd; apply getDir_setDir_same.
Qed.

Lemma findNeighborsBody_status (board : list Tile) (width : Z) (t : Tile) (d : Dir) :
  getDir (neighbors (snd (findNeighborsBody width board t))) d
  = statusAfter board width t d.
Proof.
  rewrite findNeighborsBody_lookAt. simpl snd.
  unfold statusAfter.
  destruct d.
  - rewrite !lookAt_other by discriminate. rewrite lookAt_same. reflexivity.
  - rewrite !lookAt_other by discriminate. rewrite lookAt_same.
    unfold statusAfter. rewrite lookAt_position, lookAt_other by discriminate.
    reflexivity.
  - rewrite !lookAt_other by discriminate. rewrite lookAt_same.
    unfold statusAfter. rewrite !lookAt_position, !lookAt_other by discriminate.
    reflexivity.
  - rewrite lookAt_same.
    unfold statusAfter. rewrite !lookAt_position, !lookAt_other by discriminate.
    reflexivity.
Qed.

Lemma findNeighborsBody_sameCore (board : list Tile) (width : Z) (t : Tile) :
  sameCore t (snd (findNeighborsBody width board t)) /\
  possibleTiles (snd (findNeighborsBody width board t)) = possibleTiles t.
Proof.
  rewrite findNeighborsBody_lookAt. simpl snd.
  pose proof (lookAt_sameCore board width north t) as [A1 A2].
  pose proof (lookAt_sameCore board width east (lookAt board width north t)) as [B1 B2].
  pose proof (lookAt_sameCore board width south
                (lookAt board width east (lookAt board width north t))) as [C1 C2].
  pose proof (lookAt_sameCore board width west
                (lookAt board width south
                   (lookAt board width east (lookAt board width north t)))) as [D1 D2].
  split.
  - eapply sameCore_trans; [|exact D1].
    eapply sameCore_trans; [|exact C1].
    eapply sameCore_trans; [exact A1 | exact B1].
  - congruence.
Qed.

(* ------------------------------------------------------------------ *)
(** ** Boards before and after method calls *)

(** Every slot holds an updated version of the tile it held. *)
Definition boardUpdated (b b' : list Tile) : Prop :=
  List.length b' = List.length b /\
  forall j t, nth_error b j = Some t ->
    exists t', nth_error b' j = Some t' /\ updated t t'.

Lemma boardUpdated_refl (b : list Tile) : boardUpdated b b.
Proof.
  split; [reflexivity|]. intros j t H. exists t. split; [exact H | apply updated_refl].
Qed.

Lemma boardUpdated_trans (a b c : list Tile) :
  boardUpdated a b -> boardUpdated b c -> boardUpdated a c.
Proof.
  intros [L1 H1] [L2 H2]. split; [congruence|].
  intros j t Hj.
  destruct (H1 j t Hj) as (t1 & Hj1 & U1).
  destruct (H2 j t1 Hj1) as (t2 & Hj2 & U2).
  exists t2. split; [exact Hj2 | eapply updated_trans; eauto].
Qed.

Lemma boardUpdated_setNth (b : list Tile) (i : nat) (t t' : Tile) :
  nth_error b i = Some t -> updated t t' -> boardUpdated b (setNth i t' b).
Proof.
  intros Hi Hu. split; [apply setNth_length|].
  intros j tj Hj. destruct (Nat.eq_dec i j) as [<-|Hne].
  - exists t'. split.
    + apply nth_error_setNth_same. eapply nth_error_in_range; eauto.
    + congruence.
  - exists tj. split.
    + rewrite nth_error_setNth_other by exact Hne. exact Hj.
    + apply updated_refl.
Qed.

Lemma boardUpdated_back (b b' : list Tile) (j : nat) (t' : Tile) :
  boardUpdated b b' -> nth_error b' j = Some t' ->
  exists t, nth_error b j = Some t /\ updated t t'.
Proof.
  intros [L H] Hj.
  destruct (nth_error b j) as [t|] eqn:Hb.
  - destruct (H j t Hb) as (t2 & Hj2 & U). exists t. split; [reflexivity|].
    congruence.
  - apply nth_error_None in Hb. apply nth_error_in_range in Hj. lia.
Qed.

Lemma boardAt_Some (b : list Tile) (i : Z) (t : Tile) :
  boardAt b i = Some t <->
  0 <= i /\ nth_error b (Z.to_nat i) = Some t.
Proof.
  unfold boardAt. split.
  - destruct ((0 <=? i) && (i <? Z.of_nat (List.length b))) eqn:Hin; [|discriminate].
    apply andb_true_iff in Hin. destruct Hin as [H0 _]. apply Z.leb_le in H0.
    intros H. split; assumption.
  - intros [H0 Hn]. pose proof (nth_error_in_range _ _ _ Hn) as Hlt.
    replace ((0 <=? i) && (i <? Z.of_nat (List.length b))) with true; [exact Hn|].
    symmetry. apply andb_true_iff. split; [apply Z.leb_le | apply Z.ltb_lt]; lia.
Qed.

Lemma boardAt_None (b : list Tile) (i : Z) :
  boardAt b i = None <-> ~ (0 <= i < Z.of_nat (List.length b)).
Proof.
  unfold boardAt. split.
  - destruct ((0 <=? i) && (i <? Z.of_nat (List.length b))) eqn:Hin.
    + intros Hn. apply nth_error_None in Hn.
      apply andb_true_iff in Hin. destruct Hin as [H0 H1].
      apply Z.leb_le in H0. apply Z.ltb_lt in H1. lia.
    + intros _ [H0 H1]. apply andb_false_iff in Hin.
      destruct Hin as [Hin|Hin]; [apply Z.leb_gt in Hin | apply Z.ltb_ge in Hin]; lia.
  - intros Hout.
    destruct ((0 <=? i) && (i <? Z.of_nat (List.length b))) eqn:Hin; [|reflexivity].
    apply andb_true_iff in Hin. destruct Hin as [H0 H1].
    apply Z.leb_le in H0. apply Z.ltb_lt in H1. lia.
Qed.

Lemma boardAt_updated (b b' : list Tile) (i : Z) :
  boardUpdated b b' ->
  match boardAt b i, boardAt b' i with
  | Some t, Some t' => updated t t'
  | None, None => True
  | _, _ => False
  end.
Proof.
  intros Hu.
  destruct (boardAt b i) as [t|] eqn:Hb.
  - apply boardAt_Some in Hb. destruct Hb as [H0 Hn].
    destruct Hu as [L H]. destruct (H _ _ Hn) as (t' & Hn' & U).
    assert (Hb' : boardAt b' i = Some t') by (apply boardAt_Some; split; assumption).
    rewrite Hb'. exact U.
  - apply boardAt_None in Hb.
    assert (Hb' : boardAt b' i = None).
    { apply boardAt_None. destruct Hu as [L _]. rewrite L. exact Hb. }
    rewrite Hb'. exact I.
Qed.

Lemma statusAfter_boardUpdated (b b' : list Tile) (width : Z) (t : Tile) (d : Dir) :
  boardUpdated b b' -> statusAfter b' width t d = statusAfter b width t d.
Proof.
  intros Hu. unfold statusAfter.
  destruct (getDir (neighbors t) d); [|reflexivity].
  pose proof (boardAt_updated b b' (neighborIndex width (position t) d) Hu) as H.
  destruct (boardAt b _) as [x|], (boardAt b' _) as [x'|]; try contradiction;
    [|reflexivity].
  destruct H as [(_ & Hc & _) _]. rewrite Hc. reflexivity.
Qed.

Lemma findNeighbors_slot (self : nat) (width : Z) (board : list Tile) (t : Tile) :
  nth_error board self = Some t ->
  findNeighbors self width board =
  (Ret tt, setNth self (snd (findNeighborsBody width board t)) board).
Proof.
  intros H. unfold findNeighbors, callOn. rewrite H.
  rewrite findNeighborsBody_lookAt. reflexivity.
Qed.

Lemma findNeighborsBody_updated (width : Z) (board : list Tile) (t : Tile) :
  updated t (snd (findNeighborsBody width board t)).
Proof.
  destruct (findNeighborsBody_sameCore board width t) as [H1 H2].
  split; [exact H1|]. rewrite H2. apply filtered_refl.
Qed.

Lemma findNeighbors_updated (self : nat) (width : Z) (board : list Tile) :
  boardUpdated board (snd (findNeighbors self width board)).
Proof.
  destruct (nth_error board self) as [t|] eqn:H.
  - rewrite (findNeighbors_slot _ _ _ _ H). simpl snd.
    eapply boardUpdated_setNth; [exact H | apply findNeighborsBody_updated].
  - unfold findNeighbors, callOn. rewrite H. apply boardUpdated_refl.
Qed.

(* ------------------------------------------------------------------ *)
(** ** resetBoard *)

Lemma findNeighborsFrom_spec (width : Z) (count : nat) :
  forall (i : nat) (board : list Tile),
    (i + count <= List.length board)%nat ->
    List.length (findNeighborsFrom width i count board) = List.length board /\
    forall j t, nth_error board j = Some t ->
      exists t', nth_error (findNeighborsFrom width i count board) j = Some t' /\
        sameCore t t' /\ possibleTiles t' = possibleTiles t /\
        forall d, getDir (neighbors t') d =
                  if ((i <=? j) && (j <? i + count))%nat
                  then statusAfter board width t d
                  else getDir (neighbors t) d.
Proof.
  induction count as [|count IH]; intros i board Hlen.
  - simpl. split; [reflexivity|]. intros j t Hj. exists t.
    split; [exact Hj|]. split; [apply sameCore_refl|]. split; [reflexivity|].
    intros d.
    replace ((i <=? j) && (j <? i + 0))%nat with false; [reflexivity|].
    symmetry. apply andb_false_iff.
    destruct (Nat.leb_spec i j); [right; apply Nat.ltb_ge; lia | left; reflexivity].
  - simpl findNeighborsFrom.
    destruct (nth_error board i) as [ti|] eqn:Hi;
      [|apply nth_error_None in Hi; lia].
    rewrite (findNeighbors_slot _ _ _ _ Hi). simpl snd.
    set (ti' := snd (findNeighborsBody width board ti)).
    pose proof (boardUpdated_setNth board i ti ti' Hi
                  (findNeighborsBody_updated width board ti)) as Hup.
    destruct (IH (S i) (setNth i ti' board)) as [L H].
    { rewrite setNth_length. lia. }
    split; [rewrite L; apply setNth_length|].
    intros j t Hj.
    destruct (Nat.eq_dec i j) as [<-|Hne].
    + assert (t = ti) by congruence. subst t.
      destruct (H i ti') as (t' & Hn & Hc & Hp & Hs).
      { apply nth_error_setNth_same. eapply nth_error_in_range; eauto. }
      exists t'. split; [exact Hn|].
      destruct (findNeighborsBody_sameCore board width ti) as [C1 C2].
      split; [eapply sameCore_trans; eauto|].
      split; [unfold ti' in Hp; congruence|].
      intros d. rewrite Hs.
      replace ((S i <=? i) && (i <? S i + count))%nat with false
        by (symmetry; apply andb_false_iff; left; apply Nat.leb_gt; lia).
      replace ((i <=? i) && (i <? i + S count))%nat with true
        by (symmetry; apply andb_true_iff; split;
            [apply Nat.leb_le | apply Nat.ltb_lt]; lia).
      apply findNeighborsBody_status.
    + destruct (H j t) as (t' & Hn & Hc & Hp & Hs).
      { rewrite nth_error_setNth_other by exact Hne. exact Hj. }
      exists t'. split; [exact Hn|]. split; [exact Hc|]. split; [exact Hp|].
      intros d. rewrite Hs.
      rewrite (statusAfter_boardUpdated board _ width t d Hup).
      replace ((S i <=? j) && (j <? S i + count))%nat
        with ((i <=? j) && (j <? i + S count))%nat; [reflexivity|].
      destruct (Nat.leb_spec i j), (Nat.leb_spec (S i) j),
        (Nat.ltb_spec j (i + S count)), (Nat.ltb_spec j (S i + count));
        simpl; try reflexivity; lia.
Qed.

(** The fresh tiles that [resetBoard] creates. *)
Definition freshBoard (size : nat) : list Tile :=
  map (fun i => newTile (Z.of_nat i)) (seq 0 size).

Lemma freshBoard_length (size : nat) : List.length (freshBoard size) = size.
Proof. unfold freshBoard. rewrite length_map, length_seq. reflexivity. Qed.

Lemma freshBoard_nth (size j : nat) :
  (j < size)%nat -> nth_error (freshBoard size) j = Some (newTile (Z.of_nat j)).
Proof.
  intros H. unfold freshBoard.
  rewrite nth_error_map, nth_error_seq.
  destruct (Nat.ltb_spec j size); [reflexivity | lia].
Qed.

Lemma boardAt_freshBoard (size : nat) (i : Z) :
  boardAt (freshBoard size) i =
  if (0 <=? i) && (i <? Z.of_nat size) then Some (newTile i) else None.
Proof.
  unfold boardAt. rewrite freshBoard_length.
  destruct ((0 <=? i) && (i <? Z.of_nat size)) eqn:Hin; [|reflexivity].
  apply andb_true_iff in Hin. destruct Hin as [H0 H1].
  apply Z.leb_le in H0. apply Z.ltb_lt in H1.
  rewrite freshBoard_nth by lia. rewrite Z2Nat.id by lia. reflexivity.
Qed.

(** Every tile of a new board: its slot as position, not collapsed, the
    whole catalogue as candidates, and a neighbour status that is [null]
    exactly where [findNeighbors] finds no tile. *)
Lemma resetBoard_tile (width height : Z) (w : World) (j : nat) :
  (j < Z.to_nat (height * width))%nat ->
  exists t,
    nth_error (boardTiles (resetBoard width height w)) j = Some t /\
    position t = Z.of_nat j /\ collapsed t = false /\
    possibleTiles t = layouts /\
    forall d, getDir (neighbors t) d =
              if (0 <=? neighborIndex width (Z.of_nat j) d)
                 && (neighborIndex width (Z.of_nat j) d
                     <? Z.of_nat (Z.to_nat (height * width)))
              then Some false else None.
Proof.
  intros Hj. unfold resetBoard. cbn [boardTiles].
  fold (freshBoard (Z.to_nat (height * width))).
  set (size := Z.to_nat (height * width)) in *.
  destruct (findNeighborsFrom_spec width size 0 (freshBoard size)) as [L H].
  { rewrite freshBoard_length. lia. }
  destruct (H j _ (freshBoard_nth size j Hj)) as (t & Hn & Hc & Hp & Hs).
  exists t. split; [exact Hn|].
  destruct Hc as (Hpos & Hcol & _).
  split; [exact Hpos|]. split; [exact Hcol|]. split; [exact Hp|].
  intros d. rewrite Hs.
  replace ((0 <=? j) && (j <? 0 + size))%nat with true
    by (symmetry; apply andb_true_iff; split;
        [apply Nat.leb_le | apply Nat.ltb_lt]; lia).
  unfold statusAfter. rewrite boardAt_freshBoard.
  change (position (newTile (Z.of_nat j))) with (Z.of_nat j).
  destruct d; simpl getDir;
    match goal with |- context [if ?c then Some (newTile ?i) else None] =>
      destruct c; reflexivity end.
Qed.

Lemma resetBoard_length (width height : Z) (w : World) :
  List.length (boardTiles (resetBoard width height w)) = Z.to_nat (height * width).
Proof.
  unfold resetBoard. cbn [boardTiles].
  fold (freshBoard (Z.to_nat (height * width))).
  destruct (findNeighborsFrom_spec width (Z.to_nat (height * width)) 0
              (freshBoard (Z.to_nat (height * width)))) as [L _].
  { rewrite freshBoard_length. lia. }
  rewrite L. apply freshBoard_length.
Qed.

(* ------------------------------------------------------------------ *)
(** ** The row guard of findNeighbors *)

Lemma neighborIndex_east_guard (width pos : Z) :
  0 < width -> Z.rem (pos + 1) width = 0 -> neighborIndex width pos east = -1.
Proof.
  intros Hw Hrem. unfold neighborIndex, jsMod.
  destruct (Z.eqb_spec width 0) as [E|_]; [lia|].
  unfold jsNe. rewrite Hrem. reflexivity.
Qed.

Lemma neighborIndex_west_guard (width pos : Z) :
  0 < width -> Z.rem pos width = 0 -> neighborIndex width pos west < 0.
Proof.
  intros Hw Hrem. unfold neighborIndex, jsMod.
  destruct (Z.eqb_spec width 0) as [E|_]; [lia|].
  unfold jsNe.
  destruct (Z.eqb_spec (Z.rem (pos - 1) width) (width - 1)) as [E|Hne];
    simpl; [lia|].
  destruct (Z_lt_le_dec pos 1) as [Hsmall|Hbig]; [lia|].
  exfalso. apply Hne.
  rewrite Z.rem_mod_nonneg in Hrem by lia.
  rewrite Z.rem_mod_nonneg by lia.
  symmetry. apply (Z.mod_unique_pos (pos - 1) width (pos / width - 1)); [lia|].
  pose proof (Z.div_mod pos width ltac:(lia)) as Hdm. lia.
Qed.

Lemma statusAfter_outside (board : list Tile) (width : Z) (t : Tile) (d : Dir) :
  neighborIndex width (position t) d < 0 -> statusAfter board width t d = None.
Proof.
  intros Hneg. unfold statusAfter.
  destruct (getDir (neighbors t) d); [|reflexivity].
  replace (boardAt board (neighborIndex width (position t) d)) with (@None Tile);
    [reflexivity|].
  symmetry. apply boardAt_None. lia.
Qed.

(** C6.  With a positive width, [findNeighbors] on any tile of any board
    leaves the east status [null] when the tile is in the last column
    ([(p + 1) % width == 0]) and the west status [null] when it is in the
    first column ([p % width == 0], position 0 included), whatever holds to
    the north and south; a [null] status is never recomputed; and this is the
    state of every tile after the pass that [resetBoard] makes. *)
Theorem topology_guard (width height : Z) :
  0 < width ->
  (forall (board : list Tile) (self : nat) (t : Tile),
      nth_error board self = Some t ->
      exists t',
        findNeighbors self width board = (Ret tt, setNth self t' board) /\
        nth_error (snd (findNeighbors self width board)) self = Some t' /\
        position t' = position t /\
        (Z.rem (position t + 1) width = 0 -> getDir (neighbors t') east = None) /\
        (Z.rem (position t) width = 0 -> getDir (neighbors t') west = None) /\
        (forall d, getDir (neighbors t) d = None -> getDir (neighbors t') d = None)) /\
  (forall (w : World) (p : nat),
      (p < Z.to_nat (height * width))%nat ->
      exists t,
        nth_error (boardTiles (resetBoard width height w)) p = Some t /\
        position t = Z.of_nat p /\
        (Z.rem (Z.of_nat p + 1) width = 0 -> getDir (neighbors t) east = None) /\
        (Z.rem (Z.of_nat p) width = 0 -> getDir (neighbors t) west = None)).
Proof.
  intros Hw. split.
  - intros board self t Hself.
    exists (snd (findNeighborsBody width board t)).
    split; [apply findNeighbors_slot; exact Hself|].
    split.
    { rewrite (findNeighbors_slot _ _ _ _ Hself). simpl snd.
      apply nth_error_setNth_same. eapply nth_error_in_range; eauto. }
    split; [apply findNeighborsBody_sameCore|].
    split; [|split].
    + intros Hrem. rewrite findNeighborsBody_status.
      apply statusAfter_outside.
      rewrite neighborIndex_east_guard by assumption. lia.
    + intros Hrem. rewrite findNeighborsBody_status.
      apply statusAfter_outside.
      apply neighborIndex_west_guard; assumption.
    + intros d Hnull. rewrite findNeighborsBody_status.
      unfold statusAfter. rewrite Hnull. reflexivity.
  - intros w p Hp.
    destruct (resetBoard_tile width height w p Hp) as (t & Hn & Hpos & _ & _ & Hs).
    exists t. split; [exact Hn|]. split; [exact Hpos|]. split.
    + intros Hrem. rewrite Hs.
      rewrite neighborIndex_east_guard by assumption. reflexivity.
    + intros Hrem. rewrite Hs.
      pose proof (neighborIndex_west_guard width (Z.of_nat p) Hw Hrem) as Hneg.
      destruct (Z.leb_spec 0 (neighborIndex width (Z.of_nat p) west));
        [lia | reflexivity].
Qed.

Lemma topology_guard_witness :
  (exists t,
      nth_error (boardTiles (resetBoard 3 2 (mkWorld [] 0 0))) 5 = Some t /\
      position t = 5 /\
      (Z.rem (5 + 1) 3 = 0 -> getDir (neighbors t) east = None) /\
      (Z.rem 5 3 = 0 -> getDir (neighbors t) west = None)) /\
  (exists t,
      nth_error (boardTiles (resetBoard 3 2 (mkWorld [] 0 0))) 3 = Some t /\
      position t = 3 /\
      (Z.rem (3 + 1) 3 = 0 -> getDir (neighbors t) east = None) /\
      (Z.rem 3 3 = 0 -> getDir (neighbors t) west = None)).
Proof.
  assert (Hw : 0 < 3) by lia.
  destruct (topology_guard 3 2 Hw) as [_ Hreset].
  split.
  - apply (Hreset (mkWorld [] 0 0) 5%nat). vm_compute. lia.
  - apply (Hreset (mkWorld [] 0 0) 3%nat). vm_compute. lia.
Defined.

(* ------------------------------------------------------------------ *)
(** ** Narrowing *)

(** The number of black pixels ("1") of an edge. *)
Fixpoint activeCells (s : string) : nat :=
  match s with
  | EmptyString => O
  | String c rest =>
      if Ascii.eqb c "1"%char then S (activeCells rest) else activeCells rest
  end.

Lemma splitOn_length (s : string) :
  List.length (splitOn "1"%char s) = S (activeCells s).
Proof.
  induction s as [|c rest IH]; simpl; [reflexivity|].
  destruct (Ascii.eqb c "1"%char); simpl; [congruence|].
  destruct (splitOn "1"%char rest) as [|h tl]; simpl in *; congruence.
Qed.

Lemma singlePixel_activeCells (s : string) :
  singlePixel s = (activeCells s <=? 1)%nat.
Proof.
  unfold singlePixel. rewrite splitOn_length. simpl. rewrite Nat.sub_0_r. reflexivity.
Qed.

(** The connector that faces the tile from direction [dir]: the argument of
    the comparison in [findPossibleTiles]. *)
Definition facingConnector (board : list Tile) (width : Z) (t : Tile) (dir : Dir)
  : option string :=
  match boardAt board (stepIndex width (position t) dir) with
  | Some target => getConnector target (facingSide dir)
  | None => None
  end.

(** A layout is in conflict with a connector on side [dir]: both edges have
    at most one black pixel and they differ. *)
Definition conflicts (dir : Dir) (connector : string) (l : Layout) : bool :=
  singlePixel connector &&
  match edgeOf dir l with
  | Some s => singlePixel s && negb (String.eqb s connector)
  | None => false
  end.

Definition threeRows (ps : list (string * Layout)) : Prop :=
  forall k l, In (k, l) ps -> List.length l = 3%nat.

Lemma potential_three_rows (dir : Dir) (l : Layout) :
  List.length l = 3%nat ->
  exists s, potentialConnectionStr dir l = Ret (Some s) /\ edgeOf dir l = Some s.
Proof.
  intros Hlen. destruct l as [|r0 [|r1 [|r2 [|r3 tl]]]]; try discriminate Hlen.
  unfold edgeOf. destruct dir; simpl; eexists; split; reflexivity.
Qed.

Lemma mustDelete_conflicts (dir : Dir) (connector : string) (l : Layout) (s : string) :
  potentialConnectionStr dir l = Ret (Some s) ->
  mustDelete (singlePixel connector) connector (Some s) = Ret (conflicts dir connector l).
Proof.
  intros Hp. unfold mustDelete, conflicts, edgeOf. rewrite Hp.
  destruct (singlePixel connector); reflexivity.
Qed.

Lemma deleteKey_filtered {A} (key : string) (obj : list (string * A)) :
  filtered obj (deleteKey key obj).
Proof. eexists. reflexivity. Qed.

Lemma deleteKey_absent {A} (key : string) (obj : list (string * A)) :
  ~ In key (map fst obj) -> deleteKey key obj = obj.
Proof.
  unfold deleteKey. induction obj as [|[k v] tl IH]; simpl; intros Hn; [reflexivity|].
  destruct (String.eqb_spec k key) as [->|Hne]; simpl.
  - exfalso. apply Hn. left. reflexivity.
  - f_equal. apply IH. intros Hin. apply Hn. right. exact Hin.
Qed.

Lemma deleteKey_app {A} (key : string) (a b : list (string * A)) :
  deleteKey key (a ++ b) = deleteKey key a ++ deleteKey key b.
Proof. unfold deleteKey. apply filter_app. Qed.

(** Whatever happens, the loop only deletes. *)
Lemma narrowEntries_filtered (dir : Dir) (valid : bool) (connector : string)
    (entries : list (string * Layout)) :
  forall cur, filtered cur (snd (narrowEntries dir valid connector entries cur)).
Proof.
  induction entries as [|[k l] rest IH]; intros cur; simpl.
  - apply filtered_refl.
  - destruct (potentialConnectionStr dir l) as [p|e]; [|apply filtered_refl].
    destruct (mustDelete valid connector p) as [[|]|e]; simpl.
    + eapply filtered_trans; [apply deleteKey_filtered | apply IH].
    + apply IH.
    + apply filtered_refl.
Qed.

(** On an object with distinct keys and layouts of three rows, the loop
    deletes exactly the entries in conflict with the connector. *)
Lemma narrowEntries_exact (dir : Dir) (connector : string)
    (rest : list (string * Layout)) :
  forall done : list (string * Layout),
    NoDup (map fst (done ++ rest)) ->
    threeRows rest ->
    narrowEntries dir (singlePixel connector) connector rest (done ++ rest) =
    (Ret tt,
     done ++ filter (fun e => negb (conflicts dir connector (snd e))) rest).
Proof.
  induction rest as [|[k l] rest IH]; intros done Hnd H3; simpl.
  - reflexivity.
  - destruct (potential_three_rows dir l) as (s & Hp & _).
    { apply (H3 k). left. reflexivity. }
    rewrite Hp. rewrite (mustDelete_conflicts dir connector l s Hp).
    assert (H3' : threeRows rest).
    { intros k' l' Hin. apply (H3 k'). right. exact Hin. }
    rewrite map_app in Hnd. simpl in Hnd.
    pose proof (NoDup_remove_2 _ _ _ Hnd) as Hnotin.
    pose proof (NoDup_remove_1 _ _ _ Hnd) as Hnd'.
    rewrite <- map_app in Hnd'.
    destruct (conflicts dir connector l); simpl.
    + rewrite deleteKey_app.
      rewrite (deleteKey_absent k done)
        by (intros Hin; apply Hnotin; apply in_or_app; left; exact Hin).
      unfold deleteKey at 1. simpl. rewrite String.eqb_refl. simpl.
      fold (deleteKey k rest).
      rewrite (deleteKey_absent k rest)
        by (intros Hin; apply Hnotin; apply in_or_app; right; exact Hin).
      apply IH; assumption.
    + replace (done ++ (k, l) :: rest) with ((done ++ [(k, l)]) ++ rest)
        by (rewrite <- app_assoc; reflexivity).
      rewrite IH.
      * rewrite <- app_assoc. reflexivity.
      * rewrite <- app_assoc. simpl. rewrite map_app. simpl. exact Hnd.
      * exact H3'.
Qed.

(** [findPossibleTiles] in one direction, as a function of the tile. *)
Definition narrowed (board : list Tile) (width : Z) (dir : Dir) (t : Tile) : Tile :=
  match getDir (neighbors t) dir with
  | Some true =>
      match facingConnector board width t dir with
      | Some connector =>
          setPossibleTiles t
            (filter (fun e => negb (conflicts dir connector (snd e)))
                    (possibleTiles t))
      | None => t
      end
  | _ => t
  end.

Lemma findPossibleTilesDir_skips (board : list Tile) (width : Z) (dir : Dir) (t : Tile) :
  getDir (neighbors t) dir <> Some true ->
  findPossibleTilesDir board width dir t = (Ret tt, t).
Proof.
  intros H. unfold findPossibleTilesDir.
  destruct (getDir (neighbors t) dir) as [[|]|]; try reflexivity. congruence.
Qed.

Lemma setPossibleTiles_same (t : Tile) : setPossibleTiles t (possibleTiles t) = t.
Proof. destruct t; reflexivity. Qed.

Lemma findPossibleTilesDir_narrowed (board : list Tile) (width : Z) (dir : Dir)
    (t : Tile) :
  NoDup (map fst (possibleTiles t)) ->
  threeRows (possibleTiles t) ->
  (getDir (neighbors t) dir = Some true ->
   facingConnector board width t dir <> None) ->
  findPossibleTilesDir board width dir t = (Ret tt, narrowed board width dir t).
Proof.
  intros Hnd H3 Hconn. unfold findPossibleTilesDir, narrowed, facingConnector in *.
  destruct (getDir (neighbors t) dir) as [[|]|]; try reflexivity.
  specialize (Hconn eq_refl).
  destruct (boardAt board (stepIndex width (position t) dir)) as [target|];
    [|congruence].
  destruct (getConnector target (facingSide dir)) as [connector|]; [|congruence].
  pose proof (narrowEntries_exact dir connector (possibleTiles t) [] Hnd H3) as Hex.
  simpl app in Hex. rewrite Hex. reflexivity.
Qed.

Lemma findPossibleTilesDir_updated (board : list Tile) (width : Z) (dir : Dir)
    (t : Tile) :
  updated t (snd (findPossibleTilesDir board width dir t)) /\
  neighbors (snd (findPossibleTilesDir board width dir t)) = neighbors t.
Proof.
  unfold findPossibleTilesDir.
  destruct (getDir (neighbors t) dir) as [[|]|];
    try (split; [apply updated_refl | reflexivity]).
  destruct (boardAt board _) as [target|];
    [|split; [apply updated_refl | reflexivity]].
  destruct (getConnector target (facingSide dir)) as [connector|];
    [|split; [apply updated_refl | reflexivity]].
  pose proof (narrowEntries_filtered dir (singlePixel connector) connector
                (possibleTiles t) (possibleTiles t)) as Hf.
  destruct (narrowEntries dir (singlePixel connector) connector
              (possibleTiles t) (possibleTiles t)) as [r ps].
  simpl in *. split; [|reflexivity].
  split; [repeat split | exact Hf].
Qed.

Lemma layouts_NoDup : NoDup (map fst layouts).
Proof.
  simpl. repeat constructor; simpl; intuition discriminate.
Qed.

Lemma layouts_threeRows : threeRows layouts.
Proof.
  intros k l Hin. simpl in Hin.
  repeat (destruct Hin as [Hin|Hin]; [injection Hin as <- <-; reflexivity|]).
  contradiction.
Qed.

Lemma conflicts_spec (dir : Dir) (connector : string) (l : Layout) :
  conflicts dir connector l = true <->
  exists s, edgeOf dir l = Some s /\
    (activeCells connector <= 1)%nat /\ (activeCells s <= 1)%nat /\ s <> connector.
Proof.
  unfold conflicts. rewrite singlePixel_activeCells. split.
  - intros H. apply andb_true_iff in H. destruct H as [Hc H].
    destruct (edgeOf dir l) as [s|]; [|discriminate].
    apply andb_true_iff in H. destruct H as [Hs Hne].
    rewrite singlePixel_activeCells in Hs.
    exists s. split; [reflexivity|].
    split; [apply Nat.leb_le; exact Hc|]. split; [apply Nat.leb_le; exact Hs|].
    intros ->. rewrite String.eqb_refl in Hne. discriminate.
  - intros (s & He & Hc & Hs & Hne). rewrite He.
    rewrite singlePixel_activeCells.
    apply andb_true_iff. split; [apply Nat.leb_le; exact Hc|].
    apply andb_true_iff. split; [apply Nat.leb_le; exact Hs|].
    destruct (String.eqb_spec s connector); [contradiction | reflexivity].
Qed.

(** C2.  Take a tile, a direction whose status is "collapsed" and the
    connector that the neighbour shows on the shared side.  The round of
    [findPossibleTiles] for that direction deletes a candidate if and only if
    the connector has at most one black pixel, the candidate's own edge on
    that side has at most one black pixel, and the two strings differ;
    nothing is added; and a connector with more than one black pixel deletes
    nothing. *)
Theorem narrowing_removes_exactly_conflicts
    (board : list Tile) (width : Z) (t : Tile) (dir : Dir) (connector : string) :
  getDir (neighbors t) dir = Some true ->
  facingConnector board width t dir = Some connector ->
  NoDup (map fst (possibleTiles t)) ->
  threeRows (possibleTiles t) ->
  exists t',
    findPossibleTilesDir board width dir t = (Ret tt, t') /\
    (forall name l, In (name, l) (possibleTiles t) ->
       (~ In (name, l) (possibleTiles t') <->
        exists s, edgeOf dir l = Some s /\
          (activeCells connector <= 1)%nat /\ (activeCells s <= 1)%nat /\
          s <> connector)) /\
    (forall name l, In (name, l) (possibleTiles t') -> In (name, l) (possibleTiles t)) /\
    ((1 < activeCells connector)%nat -> possibleTiles t' = possibleTiles t).
Proof.
  intros Hstatus Hconn Hnd H3.
  exists (narrowed board width dir t).
  split.
  { apply findPossibleTilesDir_narrowed; try assumption. intros _. congruence. }
  unfold narrowed. rewrite Hstatus, Hconn. cbn [possibleTiles setPossibleTiles].
  split; [|split].
  - intros name l Hin. rewrite <- conflicts_spec. rewrite filter_In. simpl snd.
    split.
    + intros Hnot. destruct (conflicts dir connector l); [reflexivity|].
      exfalso. apply Hnot. split; [exact Hin | reflexivity].
    + intros Hc [_ Hk]. rewrite Hc in Hk. discriminate.
  - intros name l Hin. apply filter_In in Hin. tauto.
  - intros Hmany.
    assert (Hkeep : forall e : string * Layout,
               negb (conflicts dir connector (snd e)) = true).
    { intros e. unfold conflicts. rewrite singlePixel_activeCells.
      destruct (Nat.leb_spec (activeCells connector) 1); [lia | reflexivity]. }
    induction (possibleTiles t) as [|h tl IH]; simpl; [reflexivity|].
    rewrite Hkeep. f_equal. apply IH.
    + inversion Hnd; assumption.
    + intros k l Hin. apply (H3 k). right. exact Hin.
Qed.

(** Tile 1 of the two-tile board in the middle of the cascade from tile 0,
    collapsed to "east": it has looked at its neighbours and not yet narrowed. *)
Definition twoTilesMidCascade : list Tile :=
  let b0 := boardTiles (resetBoard 2 1 (mkWorld [] 0 0)) in
  let east0 :=
    markCollapsed
      (snd (generateConnections (setChoice (nth 0 b0 (newTile 0)) "east"))) in
  snd (findNeighbors 1 2 (setNth 0 east0 b0)).

Lemma narrowing_removes_exactly_conflicts_witness :
  exists t',
    findPossibleTilesDir twoTilesMidCascade 2 west
      (nth 1 twoTilesMidCascade (newTile 1)) = (Ret tt, t') /\
    map fst (possibleTiles t') = ["north"; "south"; "west"].
Proof.
  destruct (narrowing_removes_exactly_conflicts twoTilesMidCascade 2
              (nth 1 twoTilesMidCascade (newTile 1)) west "010")
    as (t' & Hrun & _).
  - vm_compute. reflexivity.
  - vm_compute. reflexivity.
  - exact layouts_NoDup.
  - exact layouts_threeRows.
  - exists t'. split; [exact Hrun|].
    vm_compute in Hrun. injection Hrun as <-. reflexivity.
Defined.

(* ------------------------------------------------------------------ *)
(** ** The whole of findPossibleTiles *)

(** Some side with a collapsed neighbour shows a connector in conflict with
    the layout. *)
Definition clashes (board : list Tile) (width : Z) (t : Tile) (l : Layout) : bool :=
  existsb (fun dir =>
             match getDir (neighbors t) dir, facingConnector board width t dir with
             | Some true, Some connector => conflicts dir connector l
             | _, _ => false
             end) dirs.

Definition connectorsKnown (board : list Tile) (width : Z) (t : Tile) : Prop :=
  forall dir, getDir (neighbors t) dir = Some true ->
              facingConnector board width t dir <> None.

Lemma narrowed_updated (board : list Tile) (width : Z) (dir : Dir) (t : Tile) :
  updated t (narrowed board width dir t) /\
  neighbors (narrowed board width dir t) = neighbors t.
Proof.
  unfold narrowed.
  destruct (getDir (neighbors t) dir) as [[|]|];
    try (split; [apply updated_refl | reflexivity]).
  destruct (facingConnector board width t dir);
    [|split; [apply updated_refl | reflexivity]].
  split; [|reflexivity]. split; [repeat split|]. eexists. reflexivity.
Qed.

Lemma narrowed_facingConnector (board : list Tile) (width : Z) (dir d : Dir) (t : Tile) :
  facingConnector board width (narrowed board width dir t) d
  = facingConnector board width t d.
Proof.
  unfold facingConnector.
  destruct (narrowed_updated board width dir t) as [[(Hp & _) _] _].
  rewrite Hp. reflexivity.
Qed.

Lemma narrowed_possibleTiles (board : list Tile) (width : Z) (dir : Dir) (t : Tile) :
  possibleTiles (narrowed board width dir t) =
  filter (fun e =>
            negb match getDir (neighbors t) dir, facingConnector board width t dir with
                 | Some true, Some connector => conflicts dir connector (snd e)
                 | _, _ => false
                 end) (possibleTiles t).
Proof.
  unfold narrowed.
  assert (Hall : forall l : list (string * Layout), l = filter (fun _ => negb false) l).
  { induction l as [|h tl IH]; simpl; [reflexivity | f_equal; exact IH]. }
  destruct (getDir (neighbors t) dir) as [[|]|]; try apply Hall.
  destruct (facingConnector board width t dir); [reflexivity | apply Hall].
Qed.

(** The four rounds, as a function of the tile. *)
Definition narrowedAll (board : list Tile) (width : Z) (t : Tile) : Tile :=
  narrowed board width west
    (narrowed board width south
       (narrowed board width east (narrowed board width north t))).

Lemma narrowedAll_updated (board : list Tile) (width : Z) (t : Tile) :
  updated t (narrowedAll board width t) /\
  neighbors (narrowedAll board width t) = neighbors t.
Proof.
  unfold narrowedAll.
  destruct (narrowed_updated board width north t) as [A1 A2].
  destruct (narrowed_updated board width east (narrowed board width north t))
    as [B1 B2].
  destruct (narrowed_updated board width south
              (narrowed board width east (narrowed board width north t)))
    as [C1 C2].
  destruct (narrowed_updated board width west
              (narrowed board width south
                 (narrowed board width east (narrowed board width north t))))
    as [D1 D2].
  split; [|congruence].
  eapply updated_trans; [|exact D1].
  eapply updated_trans; [|exact C1].
  eapply updated_trans; [exact A1 | exact B1].
Qed.

Lemma narrowedAll_possibleTiles (board : list Tile) (width : Z) (t : Tile) :
  possibleTiles (narrowedAll board width t) =
  filter (fun e => negb (clashes board width t (snd e))) (possibleTiles t).
Proof.
  unfold narrowedAll.
  rewrite !narrowed_possibleTiles.
  rewrite !narrowed_facingConnector.
  destruct (narrowed_updated board width north t) as [_ A2].
  destruct (narrowed_updated board width east (narrowed board width north t))
    as [_ B2].
  destruct (narrowed_updated board width south
              (narrowed board width east (narrowed board width north t)))
    as [_ C2].
  rewrite C2, B2, A2.
  rewrite !filter_filter.
  apply filter_ext. intros e. unfold clashes, dirs. simpl existsb.
  rewrite orb_false_r. rewrite !negb_orb. rewrite !andb_assoc. reflexivity.
Qed.

Lemma threeRows_filtered (ps ps' : list (string * Layout)) :
  filtered ps ps' -> threeRows ps -> threeRows ps'.
Proof.
  intros Hf H3 k l Hin. apply (H3 k). apply (filtered_incl _ _ Hf). exact Hin.
Qed.

Lemma forDirs_findPossibleTilesDir (board : list Tile) (width : Z) (t : Tile) :
  NoDup (map fst (possibleTiles t)) ->
  threeRows (possibleTiles t) ->
  connectorsKnown board width t ->
  forDirs (findPossibleTilesDir board width) dirs t
  = (Ret tt, narrowedAll board width t).
Proof.
  intros Hnd H3 Hk. unfold dirs, narrowedAll. simpl forDirs.
  assert (Hstep : forall d u,
             updated t u -> neighbors u = neighbors t ->
             findPossibleTilesDir board width d u = (Ret tt, narrowed board width d u)).
  { intros d u [[Hp _] Hf] Hn. apply findPossibleTilesDir_narrowed.
    - eapply filtered_NoDup_keys; eauto.
    - eapply threeRows_filtered; eauto.
    - intros Hs. unfold facingConnector. rewrite Hp.
      apply Hk. rewrite <- Hn. exact Hs. }
  pose proof (narrowed_updated board width north t) as [A1 A2].
  pose proof (narrowed_updated board width east (narrowed board width north t))
    as [B1 B2].
  pose proof (narrowed_updated board width south
                (narrowed board width east (narrowed board width north t)))
    as [C1 C2].
  rewrite (Hstep north t (updated_refl t) eq_refl).
  rewrite (Hstep east _ A1 A2).
  rewrite (Hstep south _ (updated_trans _ _ _ A1 B1)) by congruence.
  rewrite (Hstep west _ (updated_trans _ _ _ (updated_trans _ _ _ A1 B1) C1))
    by congruence.
  reflexivity.
Qed.

(** [findPossibleTiles] on a well-formed tile: the candidates that clash
    with no collapsed neighbour remain, and the call throws exactly when the
    tile is not collapsed and none remains. *)
Lemma findPossibleTilesBody_spec (board : list Tile) (width : Z) (t : Tile) :
  NoDup (map fst (possibleTiles t)) ->
  threeRows (possibleTiles t) ->
  connectorsKnown board width t ->
  findPossibleTilesBody width board t =
  (if negb (collapsed t)
      && (List.length (possibleTiles (narrowedAll board width t)) =? 0)%nat
   then Throw NoTilesPossible else Ret tt,
   narrowedAll board width t).
Proof.
  intros Hnd H3 Hk. unfold findPossibleTilesBody.
  rewrite (forDirs_findPossibleTilesDir board width t Hnd H3 Hk).
  destruct (narrowedAll_updated board width t) as [[(_ & Hc & _) _] _].
  unfold isCollapsed. rewrite Hc, length_map.
  destruct (negb (collapsed t)
            && (List.length (possibleTiles (narrowedAll board width t)) =? 0)%nat);
    reflexivity.
Qed.

Lemma findPossibleTilesBody_updated (board : list Tile) (width : Z) (t : Tile) :
  updated t (snd (findPossibleTilesBody width board t)) /\
  neighbors (snd (findPossibleTilesBody width board t)) = neighbors t.
Proof.
  unfold findPossibleTilesBody.
  assert (H : updated t (snd (forDirs (findPossibleTilesDir board width) dirs t)) /\
              neighbors (snd (forDirs (findPossibleTilesDir board width) dirs t))
              = neighbors t).
  { apply (forDirs_keeps (fun a b => updated a b /\ neighbors b = neighbors a)).
    - intros a. split; [apply updated_refl | reflexivity].
    - intros a b c [U1 N1] [U2 N2]. split; [eapply updated_trans; eauto | congruence].
    - intros d a. apply findPossibleTilesDir_updated. }
  destruct (forDirs (findPossibleTilesDir board width) dirs t) as [[[]|e] t'];
    simpl in *; [|exact H].
  destruct (negb (isCollapsed t')
            && (List.length (map fst (possibleTiles t')) =? 0)%nat); exact H.
Qed.

Lemma findPossibleTiles_updated (self : nat) (width : Z) (board : list Tile) :
  boardUpdated board (snd (findPossibleTiles self width board)).
Proof.
  unfold findPossibleTiles, callOn.
  destruct (nth_error board self) as [t|] eqn:H; [|apply boardUpdated_refl].
  pose proof (findPossibleTilesBody_updated board width t) as [Hu _].
  destruct (findPossibleTilesBody width board t) as [r t']. simpl in *.
  eapply boardUpdated_setNth; eauto.
Qed.

(* ------------------------------------------------------------------ *)
(** ** collapse: what the cascade can and cannot change *)

Lemma notifyDir_updated (self : nat) (width : Z) (d : Dir) (board : list Tile) :
  boardUpdated board (snd (notifyDir self width d board)).
Proof.
  unfold notifyDir.
  destruct (nth_error board self) as [this|]; [|apply boardUpdated_refl].
  destruct (getDir (neighbors this) d) as [[|]|]; try apply boardUpdated_refl.
  destruct ((0 <=? stepIndex width (position this) d)
            && (stepIndex width (position this) d <? Z.of_nat (List.length board)));
    [|apply boardUpdated_refl].
  pose proof (findNeighbors_updated
                (Z.to_nat (stepIndex width (position this) d)) width board) as H1.
  destruct (findNeighbors (Z.to_nat (stepIndex width (position this) d)) width board)
    as [[[]|e] b1]; simpl in *; [|exact H1].
  eapply boardUpdated_trans; [exact H1 | apply findPossibleTiles_updated].
Qed.

Lemma notifyNeighbors_updated (self : nat) (width : Z) (ds : list Dir) :
  forall board, boardUpdated board (snd (notifyNeighbors self width ds board)).
Proof.
  induction ds as [|d rest IH]; intros board; simpl.
  - apply boardUpdated_refl.
  - pose proof (notifyDir_updated self width d board) as H1.
    destruct (notifyDir self width d board) as [[[]|e] b1]; simpl in *; [|exact H1].
    eapply boardUpdated_trans; [exact H1 | apply IH].
Qed.

Lemma generateConnections_throws (t t' : Tile) (e : Exn) :
  generateConnections t = (Throw e, t') -> e = TypeError.
Proof.
  unfold generateConnections, dirs. simpl forDirs.
  unfold generateConnectionsKey, connectionStr.
  destruct (String.eqb (facing t) "blank") eqn:Hb.
  - simpl. rewrite !Hb. simpl. rewrite !Hb. simpl. rewrite !Hb. discriminate.
  - destruct (layout t) as [l|] eqn:Hl.
    + simpl. rewrite Hb, Hl. simpl. rewrite Hb, Hl. simpl. rewrite Hb, Hl.
      discriminate.
    + intros H. injection H as <- _. reflexivity.
Qed.

(** After a collapse that chose a variant and reached the cascade, the tile
    is collapsed and has no candidates left, whether the cascade then
    succeeded or threw. *)
Lemma collapse_leaves_collapsed (random : nat -> Rand) (self : nat) (width : Z)
    (w w' : World) (r : Outcome bool) :
  collapse random self width w = (r, w') ->
  r = Ret true \/ r = Throw NoTilesPossible ->
  exists t', nth_error (boardTiles w') self = Some t' /\
             collapsed t' = true /\ possibleTiles t' = [].
Proof.
  unfold collapse. intros Hrun Hr.
  destruct (nth_error (boardTiles w) self) as [this|] eqn:Hself.
  2:{ injection Hrun as <- _. destruct Hr; discriminate. }
  destruct (List.length (map fst (possibleTiles this)) =? 0)%nat.
  { injection Hrun as <- _. destruct Hr; discriminate. }
  set (choice := nth _ _ _) in Hrun.
  destruct (generateConnections (setChoice this choice)) as [[[]|e] this'] eqn:Hgen.
  2:{ apply generateConnections_throws in Hgen. subst e.
      injection Hrun as <- _. destruct Hr; discriminate. }
  pose proof (notifyNeighbors_updated self width dirs
                (setNth self (markCollapsed this') (boardTiles w))) as [_ Hup].
  destruct (Hup self (markCollapsed this')) as (t' & Hn & [(_ & Hc & _) Hf]).
  { apply nth_error_setNth_same. eapply nth_error_in_range; eauto. }
  exists t'.
  assert (Hb : boardTiles w' =
               snd (notifyNeighbors self width dirs
                      (setNth self (markCollapsed this') (boardTiles w)))).
  { destruct (notifyNeighbors self width dirs
                (setNth self (markCollapsed this') (boardTiles w))) as [[[]|e] b'];
      injection Hrun as _ <-; reflexivity. }
  rewrite Hb. split; [exact Hn|]. split; [exact Hc|].
  apply filtered_nil. exact Hf.
Qed.

(** C8.  [collapse] on a tile without candidates returns [false] and leaves
    the whole state as it is: no field of the tile changes, no neighbour is
    told, no random number is drawn.  A tile that was collapsed is such a
    tile, so a second [collapse] on it is rejected and its choice, layout and
    connectors stay. *)
Theorem collapse_without_candidates_is_rejected
    (random : nat -> Rand) (self : nat) (width : Z) (w : World) :
  (forall this, nth_error (boardTiles w) self = Some this ->
                possibleTiles this = [] ->
                collapse random self width w = (Ret false, w)) /\
  (forall r w', collapse random self width w = (r, w') ->
                r = Ret true \/ r = Throw NoTilesPossible ->
                exists this',
                  nth_error (boardTiles w') self = Some this' /\
                  collapsed this' = true /\
                  collapse random self width w' = (Ret false, w') /\
                  nth_error (boardTiles (snd (collapse random self width w'))) self
                  = Some this').
Proof.
  assert (Hempty : forall w0 this, nth_error (boardTiles w0) self = Some this ->
                     possibleTiles this = [] ->
                     collapse random self width w0 = (Ret false, w0)).
  { intros w0 this Hself Hps. unfold collapse. rewrite Hself, Hps. reflexivity. }
  split; [apply Hempty|].
  intros r w' Hrun Hr.
  destruct (collapse_leaves_collapsed random self width w w' r Hrun Hr)
    as (this' & Hn & Hc & Hps).
  exists this'. split; [exact Hn|]. split; [exact Hc|].
  rewrite (Hempty w' this' Hn Hps). split; [reflexivity | exact Hn].
Qed.

Lemma collapse_without_candidates_witness :
  let random := fun _ : nat => fraction 1 3 in
  let w := resetBoard 2 1 (mkWorld [] 0 0) in
  let w' := snd (collapse random 0 2 w) in
  exists this',
    nth_error (boardTiles w') 0 = Some this' /\
    collapsed this' = true /\
    collapse random 0 2 w' = (Ret false, w') /\
    nth_error (boardTiles (snd (collapse random 0 2 w'))) 0 = Some this'.
Proof.
  intros random w w'.
  destruct (collapse_without_candidates_is_rejected random 0 2 w) as [_ H].
  apply (H (Ret true) w').
  - vm_compute. reflexivity.
  - left. reflexivity.
Defined.

(* ------------------------------------------------------------------ *)
(** ** chooseNextTile *)

Lemma jsMin_spec (l : list nat) :
  match jsMin l with
  | None => l = []
  | Some m => In m l /\ forall x, In x l -> (m <= x)%nat
  end.
Proof.
  induction l as [|x tl IH]; simpl; [reflexivity|].
  destruct (jsMin tl) as [m|].
  - destruct IH as [Hin Hmin]. split.
    + destruct (Nat.min_spec x m) as [[_ ->]|[_ ->]]; [left | right]; auto.
    + intros y [<-|Hy]; [apply Nat.le_min_l|].
      etransitivity; [apply Nat.le_min_r | apply Hmin; exact Hy].
  - subst tl. split; [left; reflexivity|].
    intros y [<-|[]]. reflexivity.
Qed.

Lemma flagged_spec (min : option nat) (values : list nat) :
  forall index j,
    In j (flagged min index values) <->
    exists k v, j = (index + k)%nat /\ nth_error values k = Some v /\ min = Some v.
Proof.
  induction values as [|value rest IH]; intros index j; simpl.
  - split; [contradiction|]. intros (k & v & _ & H & _). destruct k; discriminate.
  - assert (Hrest :
      In j (flagged min (S index) rest) <->
      exists k v, j = (index + S k)%nat /\ nth_error rest k = Some v /\ min = Some v).
    { rewrite IH. split; intros (k & v & Hj & Hn & Hm); exists k, v;
        (split; [lia | split; assumption]). }
    assert (Hsplit :
      (exists k v, j = (index + k)%nat /\
                   nth_error (value :: rest) k = Some v /\ min = Some v) <->
      (j = index /\ min = Some value) \/
      (exists k v, j = (index + S k)%nat /\ nth_error rest k = Some v /\ min = Some v)).
    { split.
      - intros ([|k] & v & Hj & Hn & Hm); simpl in Hn.
        + left. injection Hn as ->. split; [lia | exact Hm].
        + right. exists k, v. auto.
      - intros [[Hj Hm]|(k & v & Hj & Hn & Hm)].
        + exists O, value. split; [lia | split; [reflexivity | exact Hm]].
        + exists (S k), v. auto. }
    rewrite Hsplit. rewrite <- Hrest.
    destruct min as [m|].
    + destruct (Nat.eqb_spec value m) as [->|Hne]; simpl.
      * split; [intros [<-|H]; [left; auto | right; exact H]
               | intros [[-> _]|H]; [left; reflexivity | right; exact H]].
      * split; [intros H; right; exact H | intros [[_ Hm]|H]; [congruence | exact H]].
    + split; [intros H; right; exact H | intros [[_ Hm]|H]; [discriminate | exact H]].
Qed.

Lemma flagged_lower_bound (min : option nat) (values : list nat) :
  forall index j, In j (flagged min index values) -> (index <= j)%nat.
Proof.
  intros index j H. apply flagged_spec in H. destruct H as (k & v & -> & _). lia.
Qed.

Lemma flagged_NoDup (min : option nat) (values : list nat) :
  forall index, NoDup (flagged min index values).
Proof.
  induction values as [|value rest IH]; intros index; simpl; [constructor|].
  destruct min as [m|]; [|apply IH].
  destruct (value =? m)%nat; [|apply IH].
  constructor; [|apply IH].
  intros Hin. apply flagged_lower_bound in Hin. lia.
Qed.

Lemma entropyArray_nth (board : list Tile) (j : nat) :
  nth_error (entropyArray board) j =
  option_map (fun t => if collapsed t then O else getEntropy t) (nth_error board j).
Proof. unfold entropyArray, isCollapsed. apply nth_error_map. Qed.

Lemma getEntropy_length (t : Tile) : getEntropy t = List.length (possibleTiles t).
Proof. unfold getEntropy. apply length_map. Qed.

(** A tile that [chooseNextTile] may return: not collapsed, and with the
    least number of candidates among the tiles that are not collapsed. *)
Definition leastEntropy (board : list Tile) (i : nat) : Prop :=
  exists t, nth_error board i = Some t /\ collapsed t = false /\
    forall j t', nth_error board j = Some t' -> collapsed t' = false ->
                 (getEntropy t <= getEntropy t')%nat.

Lemma entropicTiles_spec (board : list Tile) :
  (forall t, In t board -> collapsed t = false -> possibleTiles t <> []) ->
  forall i, In i (entropicTiles board) <-> leastEntropy board i.
Proof.
  intros Hne i. unfold entropicTiles. rewrite flagged_spec.
  set (nonzero := filter (fun item => negb (item =? 0)%nat) (entropyArray board)).
  assert (Hpos : forall t, In t board -> collapsed t = false -> (0 < getEntropy t)%nat).
  { intros t Hin Hc. rewrite getEntropy_length.
    specialize (Hne t Hin Hc). destruct (possibleTiles t); [congruence | simpl; lia]. }
  assert (Hnz : forall v, In v nonzero <->
                  exists t, In t board /\ collapsed t = false /\ getEntropy t = v).
  { intros v. unfold nonzero. rewrite filter_In. unfold entropyArray.
    rewrite in_map_iff. unfold isCollapsed. split.
    - intros [(t & Hv & Hin) Hz]. exists t. split; [exact Hin|].
      destruct (collapsed t); [subst v; discriminate | auto].
    - intros (t & Hin & Hc & Hv). split.
      + exists t. rewrite Hc. auto.
      + specialize (Hpos t Hin Hc). subst v.
        destruct (Nat.eqb_spec (getEntropy t) 0); [lia | reflexivity]. }
  pose proof (jsMin_spec nonzero) as Hmin.
  split.
  - intros (k & v & Hi & Hk & Hm). simpl in Hi. subst k.
    rewrite Hm in Hmin. destruct Hmin as [Hin Hle].
    rewrite entropyArray_nth in Hk.
    destruct (nth_error board i) as [t|] eqn:Ht; [|discriminate].
    simpl in Hk. injection Hk as Hv.
    apply Hnz in Hin. destruct Hin as (t0 & Hin0 & Hc0 & Hv0).
    pose proof (Hpos t0 Hin0 Hc0) as Hp0.
    exists t. split; [exact Ht|].
    destruct (collapsed t) eqn:Hc; [lia|].
    split; [reflexivity|].
    intros j t' Hj Hc'. rewrite Hv. apply Hle. apply Hnz.
    exists t'. split; [eapply nth_error_In; eauto | auto].
  - intros (t & Ht & Hc & Hle).
    exists i, (getEntropy t). split; [reflexivity|].
    split; [rewrite entropyArray_nth, Ht; simpl; rewrite Hc; reflexivity|].
    assert (Hin : In (getEntropy t) nonzero).
    { apply Hnz. exists t. split; [eapply nth_error_In; eauto | auto]. }
    destruct (jsMin nonzero) as [m|]; [|rewrite Hmin in Hin; contradiction].
    destruct Hmin as [Hm Hmle]. f_equal.
    apply Hnz in Hm. destruct Hm as (t0 & Hin0 & Hc0 & Hv0).
    apply In_nth_error in Hin0. destruct Hin0 as [j Hj].
    specialize (Hle j t0 Hj Hc0). specialize (Hmle _ Hin). lia.
Qed.

Lemma chooseNextTile_pick (random : nat -> Rand) (w : World) :
  fst (chooseNextTile random w) =
  nth_error (entropicTiles (boardTiles w))
    (randIndex (random (draws w)) (List.length (entropicTiles (boardTiles w)))) /\
  boardTiles (snd (chooseNextTile random w)) = boardTiles w /\
  collapsedTiles (snd (chooseNextTile random w)) = collapsedTiles w.
Proof.
  unfold chooseNextTile.
  destruct (entropicTiles (boardTiles w)) as [|only [|second rest]] eqn:Htied;
    simpl fst; simpl snd; cbn [boardTiles collapsedTiles];
    repeat split; try reflexivity.
  pose proof (randIndex_lt (random (draws w)) 1 ltac:(lia)) as Hlt.
  simpl List.length.
  destruct (randIndex (random (draws w)) 1); [reflexivity | lia].
Qed.

Lemma entropicTiles_nonempty (board : list Tile) :
  (exists t, In t board /\ collapsed t = false) ->
  (forall t, In t board -> collapsed t = false -> possibleTiles t <> []) ->
  entropicTiles board <> [].
Proof.
  intros (t & Hin & Hc) Hne.
  (* the least entropy among the tiles that are not collapsed *)
  assert (Hleast : forall l : list Tile,
            (exists t, In t l /\ collapsed t = false) ->
            exists t, In t l /\ collapsed t = false /\
              forall t', In t' l -> collapsed t' = false ->
                         (getEntropy t <= getEntropy t')%nat).
  { induction l as [|h tl IH]; intros (x & Hx & Hcx); [contradiction|].
    destruct (collapsed h) eqn:Hch.
    - destruct Hx as [->|Hx]; [congruence|].
      destruct IH as (m & Hm & Hcm & Hle); [exists x; auto|].
      exists m. split; [right; exact Hm|]. split; [exact Hcm|].
      intros t' [<-|Ht'] Hc'; [congruence | auto].
    - assert (Hcases : (exists y, In y tl /\ collapsed y = false) \/
                       (forall y, In y tl -> collapsed y = true)).
      { clear. induction tl as [|a tl IH]; [right; intros y []|].
        destruct (collapsed a) eqn:Ha.
        - destruct IH as [(y & Hy & Hcy)|Hall].
          + left. exists y. split; [right; exact Hy | exact Hcy].
          + right. intros y [<-|Hy]; auto.
        - left. exists a. split; [left; reflexivity | exact Ha]. }
      destruct Hcases as [Hex|Hall].
      + destruct (IH Hex) as (m & Hm & Hcm & Hle).
        destruct (Nat.le_gt_cases (getEntropy h) (getEntropy m)) as [Hhm|Hmh].
        * exists h. split; [left; reflexivity|]. split; [exact Hch|].
          intros t' [<-|Ht'] Hc'; [lia|]. specialize (Hle t' Ht' Hc'). lia.
        * exists m. split; [right; exact Hm|]. split; [exact Hcm|].
          intros t' [<-|Ht'] Hc'; [lia | auto].
      + exists h. split; [left; reflexivity|]. split; [exact Hch|].
        intros t' [<-|Ht'] Hc'; [lia|]. rewrite (Hall t' Ht') in Hc'. discriminate. }
  destruct (Hleast board) as (m & Hm & Hcm & Hle); [exists t; auto|].
  apply In_nth_error in Hm. destruct Hm as [i Hi].
  assert (Htied : In i (entropicTiles board)).
  { apply entropicTiles_spec; [exact Hne|].
    exists m. split; [exact Hi|]. split; [exact Hcm|].
    intros j t' Hj Hc'. apply Hle; [eapply nth_error_In; eauto | exact Hc']. }
  intros Hnil. rewrite Hnil in Htied. contradiction.
Qed.

Lemma flagged_length (min : option nat) (values : list nat) :
  forall index,
    (List.length (flagged min index values) <= List.length values)%nat.
Proof.
  induction values as [|value rest IH]; intros index; simpl; [lia|].
  destruct min as [m|]; [|specialize (IH (S index)); lia].
  destruct (value =? m)%nat; simpl; specialize (IH (S index)); lia.
Qed.

Lemma entropicTiles_length (board : list Tile) :
  (List.length (entropicTiles board) <= List.length board)%nat.
Proof.
  unfold entropicTiles.
  pose proof (flagged_length
                (jsMin (filter (fun item => negb (item =? 0)%nat) (entropyArray board)))
                (entropyArray board) O) as H.
  unfold entropyArray in H at 3. rewrite length_map in H. exact H.
Qed.

(** The tile in slot [i] is not collapsed, and no tile that is not collapsed
    has fewer candidates: sizes are counted on the candidate objects
    themselves. *)
Definition fewestCandidates (board : list Tile) (i : nat) : Prop :=
  exists t, nth_error board i = Some t /\ collapsed t = false /\
    forall j t', nth_error board j = Some t' -> collapsed t' = false ->
                 (List.length (possibleTiles t) <= List.length (possibleTiles t'))%nat.

Lemma leastEntropy_fewestCandidates (board : list Tile) (i : nat) :
  leastEntropy board i <-> fewestCandidates board i.
Proof.
  unfold leastEntropy, fewestCandidates.
  split; intros (t & Ht & Hc & Hle); exists t; (split; [exact Ht|]);
    (split; [exact Hc|]); intros j t' Hj Hc'; specialize (Hle j t' Hj Hc');
    rewrite !getEntropy_length in *; exact Hle.
Qed.

(** C7.  On a board (an array, so of fewer than [2^32] tiles) with a tile
    that is not collapsed, where every such tile has a candidate,
    [chooseNextTile] returns a tile that is not collapsed and whose candidate
    object is smallest among the tiles that are not collapsed; collapsed
    tiles are never returned.  The tiles tied at that size are listed once
    each.  Which of the [n] tied tiles is returned is decided by
    [Math.floor(Math.random() * n)].  With [u] the draw and [x = u * n] the
    exact product, both in units of [2^-scale]: the tile in place [k] is
    returned whenever [k <= x] and [x * (1 + 2^-53) < k + 1]; when it is
    returned, [k <= x * (1 + 2^-53)] and [x < k + 1]; and some draw returns
    it.  So every tied tile is returned on an interval of draws of length
    [1/n], up to the rounding of one product of doubles.  The board is not
    changed. *)
Theorem chooseNextTile_least_entropy (random : nat -> Rand) (w : World) :
  (exists t, In t (boardTiles w) /\ collapsed t = false) ->
  (forall t, In t (boardTiles w) -> collapsed t = false -> possibleTiles t <> []) ->
  Z.of_nat (List.length (boardTiles w)) < 2 ^ 32 ->
  let tied := entropicTiles (boardTiles w) in
  let n := List.length tied in
  let x := mantissa (random (draws w)) * Z.of_nat n in
  let one := 2 ^ scale (random (draws w)) in
  (forall i, In i tied <-> fewestCandidates (boardTiles w) i) /\
  NoDup tied /\ (0 < n)%nat /\
  (exists i, fst (chooseNextTile random w) = Some i /\
             fewestCandidates (boardTiles w) i) /\
  (forall k i, nth_error tied k = Some i ->
     (Z.of_nat k * one <= x /\
      (2 ^ 53 + 1) * x < 2 ^ 53 * ((Z.of_nat k + 1) * one) ->
      fst (chooseNextTile random w) = Some i) /\
     (fst (chooseNextTile random w) = Some i ->
      2 ^ 53 * (Z.of_nat k * one) <= (2 ^ 53 + 1) * x /\
      x < (Z.of_nat k + 1) * one) /\
     (exists u, forall random' : nat -> Rand,
        random' (draws w) = u -> fst (chooseNextTile random' w) = Some i)) /\
  boardTiles (snd (chooseNextTile random w)) = boardTiles w.
Proof.
  intros Hex Hne Hsize tied n x one.
  assert (Hspec : forall i, In i tied <-> fewestCandidates (boardTiles w) i).
  { intros i. rewrite <- leastEntropy_fewestCandidates.
    apply (entropicTiles_spec (boardTiles w) Hne). }
  pose proof (entropicTiles_nonempty (boardTiles w) Hex Hne) as Hnonempty.
  pose proof (flagged_NoDup
                (jsMin (filter (fun item => negb (item =? 0)%nat)
                          (entropyArray (boardTiles w))))
                (entropyArray (boardTiles w)) O) as Hnd.
  fold (entropicTiles (boardTiles w)) in Hnd. fold tied in Hnd, Hnonempty.
  destruct (chooseNextTile_pick random w) as (Hpick & Hboard & _).
  fold tied in Hpick. fold n in Hpick.
  assert (Hn : (0 < n)%nat).
  { unfold n. destruct tied; [congruence | simpl; lia]. }
  assert (Hn32 : Z.of_nat n < 2 ^ 32).
  { pose proof (entropicTiles_length (boardTiles w)) as Hlen.
    fold tied in Hlen. fold n in Hlen. lia. }
  assert (Hn53 : Z.of_nat n < 2 ^ 53).
  { change (2 ^ 32) with 4294967296 in Hn32.
    change (2 ^ 53) with 9007199254740992. lia. }
  pose proof (randIndex_lt (random (draws w)) n Hn) as Hlt.
  split; [exact Hspec|]. split; [exact Hnd|]. split; [exact Hn|].
  split; [|split; [|exact Hboard]].
  - destruct (nth_error tied (randIndex (random (draws w)) n)) as [i|] eqn:Hi.
    + exists i. split; [exact Hpick|]. apply Hspec. eapply nth_error_In; eauto.
    + apply nth_error_None in Hi. fold n in Hi. lia.
  - intros k i Hk.
    destruct (randIndex_interval (random (draws w)) n k Hn53) as [Hinto Hfrom].
    fold x one in Hinto, Hfrom.
    split; [|split].
    + intros Hin. rewrite Hpick, (Hinto Hin). exact Hk.
    + intros Hr. apply Hfrom. rewrite Hpick, <- Hk in Hr.
      apply (proj1 (NoDup_nth_error tied) Hnd); [exact Hlt | exact Hr].
    + assert (Hkn : (k < n)%nat) by (apply nth_error_Some; congruence).
      exists (fraction k (n - k - 1)). intros random' Hu.
      destruct (chooseNextTile_pick random' w) as (Hpick' & _).
      fold tied in Hpick'. fold n in Hpick'. rewrite Hpick', Hu.
      pose proof (randIndex_fraction k (n - k - 1)) as Hfrac.
      replace (S (k + (n - k - 1))) with n in Hfrac by lia.
      rewrite (Hfrac Hn32). exact Hk.
Qed.

(** The two-tile board after tile 0 collapsed to "east". *)
Definition twoTilesAfterEast : World :=
  snd (collapse (fun _ => fraction 1 3) 0 2 (resetBoard 2 1 (mkWorld [] 0 0))).

(** Draws for a board of four tiles in a row: the first makes tile 1 choose
    "north", the second is [1/2]. *)
Definition northThenHalf (k : nat) : Rand :=
  match k with
  | O => fraction 0 0
  | S _ => fraction 1 0
  end.

(** The board of four after tile 1 collapsed to "north": tiles 0 and 2 are
    left with three candidates each, tile 3 has its five. *)
Definition fourTilesAfterNorth : World :=
  snd (collapse northThenHalf 1 4 (resetBoard 4 1 (mkWorld [] 0 0))).

Lemma chooseNextTile_least_entropy_witness :
  map (fun t => (collapsed t, List.length (possibleTiles t)))
      (boardTiles fourTilesAfterNorth)
  = [(false, 3%nat); (true, O); (false, 3%nat); (false, 5%nat)] /\
  entropicTiles (boardTiles fourTilesAfterNorth) = [O; 2%nat] /\
  fst (chooseNextTile northThenHalf fourTilesAfterNorth) = Some 2%nat /\
  fewestCandidates (boardTiles fourTilesAfterNorth) 2 /\
  fst (chooseNextTile (fun _ => fraction 0 1) fourTilesAfterNorth) = Some O.
Proof.
  assert (Hb : boardTiles fourTilesAfterNorth =
               [nth 0 (boardTiles fourTilesAfterNorth) (newTile 0);
                nth 1 (boardTiles fourTilesAfterNorth) (newTile 0);
                nth 2 (boardTiles fourTilesAfterNorth) (newTile 0);
                nth 3 (boardTiles fourTilesAfterNorth) (newTile 0)])
    by (vm_compute; reflexivity).
  assert (Hc0 : collapsed (nth 0 (boardTiles fourTilesAfterNorth) (newTile 0)) = false)
    by (vm_compute; reflexivity).
  assert (Hc1 : collapsed (nth 1 (boardTiles fourTilesAfterNorth) (newTile 0)) = true)
    by (vm_compute; reflexivity).
  assert (Hp0 : possibleTiles (nth 0 (boardTiles fourTilesAfterNorth) (newTile 0)) <> [])
    by (vm_compute; discriminate).
  assert (Hp2 : possibleTiles (nth 2 (boardTiles fourTilesAfterNorth) (newTile 0)) <> [])
    by (vm_compute; discriminate).
  assert (Hp3 : possibleTiles (nth 3 (boardTiles fourTilesAfterNorth) (newTile 0)) <> [])
    by (vm_compute; discriminate).
  assert (Htied : entropicTiles (boardTiles fourTilesAfterNorth) = [O; 2%nat])
    by (vm_compute; reflexivity).
  assert (Hone : fst (chooseNextTile northThenHalf fourTilesAfterNorth) = Some 2%nat)
    by (vm_compute; reflexivity).
  assert (Hex : exists t, In t (boardTiles fourTilesAfterNorth) /\ collapsed t = false).
  { exists (nth 0 (boardTiles fourTilesAfterNorth) (newTile 0)).
    split; [apply nth_In; rewrite Hb; simpl; lia | exact Hc0]. }
  assert (Hne : forall t, In t (boardTiles fourTilesAfterNorth) ->
                  collapsed t = false -> possibleTiles t <> []).
  { intros t Hin Hc. rewrite Hb in Hin. destruct Hin as [Ht|[Ht|[Ht|[Ht|[]]]]].
    - rewrite <- Ht. exact Hp0.
    - rewrite <- Ht in Hc. rewrite Hc1 in Hc. discriminate Hc.
    - rewrite <- Ht. exact Hp2.
    - rewrite <- Ht. exact Hp3. }
  assert (Hsize : Z.of_nat (List.length (boardTiles fourTilesAfterNorth)) < 2 ^ 32)
    by (vm_compute; reflexivity).
  split; [vm_compute; reflexivity|]. split; [exact Htied|].
  destruct (chooseNextTile_least_entropy northThenHalf fourTilesAfterNorth Hex Hne Hsize)
    as (_ & _ & _ & (i & Hi & Hleast) & _).
  rewrite Hone in Hi. injection Hi as Hi. rewrite <- Hi in Hleast.
  split; [exact Hone|]. split; [exact Hleast|].
  destruct (chooseNextTile_least_entropy (fun _ => fraction 0 1) fourTilesAfterNorth
              Hex Hne Hsize) as (_ & _ & _ & _ & Hdraw & _).
  destruct (Hdraw O O) as (Hinto & _); [rewrite Htied; reflexivity|].
  apply Hinto. rewrite Htied. vm_compute. split; [discriminate | reflexivity].
Defined.

(* ------------------------------------------------------------------ *)
(** ** A step on a board that is already solved *)

Lemma flagged_infinity (values : list nat) :
  forall index, flagged None index values = [].
Proof.
  induction values as [|v rest IH]; intros index; simpl; auto.
Qed.

Lemma entropicTiles_all_collapsed (board : list Tile) :
  (forall t, In t board -> collapsed t = true) -> entropicTiles board = [].
Proof.
  intros Hall. unfold entropicTiles.
  assert (Hz : filter (fun item => negb (item =? 0)%nat) (entropyArray board) = []).
  { unfold entropyArray, isCollapsed.
    induction board as [|t tl IH]; simpl; [reflexivity|].
    rewrite (Hall t) by (left; reflexivity). simpl.
    apply IH. intros t' Hin. apply Hall. right. exact Hin. }
  rewrite Hz. simpl. apply flagged_infinity.
Qed.

(** When every tile is collapsed [chooseNextTile] returns [undefined], the
    call of [collapse] on it is a [TypeError], and [doCollapse] returns
    [false]: the same value as for a contradiction. *)
Lemma step_on_solved_board (random : nat -> Rand) (width : Z) (w : World) :
  (forall t, In t (boardTiles w) -> collapsed t = true) ->
  fst (chooseNextTile random w) = None /\
  iterateLoop random width w =
    (Throw TypeError, mkWorld (boardTiles w) (collapsedTiles w) (S (draws w))) /\
  doCollapse random width w =
    (false, mkWorld (boardTiles w) (collapsedTiles w) (S (draws w))).
Proof.
  intros Hall.
  pose proof (entropicTiles_all_collapsed (boardTiles w) Hall) as Htied.
  assert (Hchoose : chooseNextTile random w =
            (None, mkWorld (boardTiles w) (collapsedTiles w) (S (draws w)))).
  { unfold chooseNextTile. rewrite Htied. simpl.
    destruct (randIndex (random (draws w)) 0); reflexivity. }
  unfold doCollapse, iterateLoop. rewrite Hchoose. repeat split.
Qed.

(** The board of one tile after its only step, and the step after that. *)
Definition solvedOneTile : World :=
  snd (doCollapse (fun _ => fraction 0 0) 1 (resetBoard 1 1 (mkWorld [] 0 0))).

(** C5 (the code at the failing input).  The board of one tile is solved
    after one step; the next step throws a [TypeError] inside [iterateLoop]
    and [doCollapse] reports [false], as it does for a contradiction. *)
Theorem step_after_solved_reports_failure :
  doCollapse (fun _ => fraction 0 0) 1 (resetBoard 1 1 (mkWorld [] 0 0))
    = (true, solvedOneTile) /\
  (forall t, In t (boardTiles solvedOneTile) -> collapsed t = true) /\
  collapsedTiles solvedOneTile = Z.of_nat (List.length (boardTiles solvedOneTile)) /\
  fst (iterateLoop (fun _ => fraction 0 0) 1 solvedOneTile) = Throw TypeError /\
  fst (doCollapse (fun _ => fraction 0 0) 1 solvedOneTile) = false.
Proof.
  split; [vm_compute; reflexivity|].
  split.
  { intros t Hin.
    assert (Hb : boardTiles solvedOneTile =
                 [nth 0 (boardTiles solvedOneTile) (newTile 0)])
      by (vm_compute; reflexivity).
    rewrite Hb in Hin. destruct Hin as [<-|[]]. vm_compute. reflexivity. }
  split; [vm_compute; reflexivity|].
  split; vm_compute; reflexivity.
Qed.

(* ------------------------------------------------------------------ *)
(** ** Index arithmetic of the grid *)

Lemma neighborIndex_stepIndex (width pos : Z) (d : Dir) :
  0 <= neighborIndex width pos d ->
  neighborIndex width pos d = stepIndex width pos d.
Proof.
  unfold neighborIndex, stepIndex. destruct d; try reflexivity.
  - destruct (jsNe (jsMod (pos + 1) width) 0); [reflexivity | lia].
  - destruct (jsNe (jsMod (pos - 1) width) (width - 1)); [reflexivity | lia].
Qed.

Lemma rem_succ_nonzero (width p : Z) :
  0 < width -> 0 <= p -> Z.rem (p + 1) width <> 0 -> Z.rem p width <> width - 1.
Proof.
  intros Hw Hp Hne Heq. apply Hne.
  rewrite Z.rem_mod_nonneg in * by lia.
  symmetry. apply (Z.mod_unique_pos (p + 1) width (p / width + 1)); [lia|].
  pose proof (Z.div_mod p width ltac:(lia)). lia.
Qed.

Lemma rem_pred_not_last (width p : Z) :
  0 < width -> 1 <= p -> Z.rem (p - 1) width <> width - 1 -> Z.rem p width <> 0.
Proof.
  intros Hw Hp Hne Heq. apply Hne.
  rewrite Z.rem_mod_nonneg in * by lia.
  symmetry. apply (Z.mod_unique_pos (p - 1) width (p / width - 1)); [lia|].
  pose proof (Z.div_mod p width ltac:(lia)). lia.
Qed.

(** Adjacency is symmetric: the neighbour found in direction [d] finds the
    tile back in the facing direction. *)
Lemma neighborIndex_sym (width p : Z) (d : Dir) :
  0 < width -> 0 <= p -> 0 <= neighborIndex width p d ->
  neighborIndex width (neighborIndex width p d) (facingSide d) = p.
Proof.
  intros Hw Hp Hq.
  assert (Hmod : forall a, jsMod a width = Some (Z.rem a width)).
  { intros a. unfold jsMod. destruct (Z.eqb_spec width 0); [lia | reflexivity]. }
  destruct d; simpl in *; rewrite ?Hmod in *; unfold jsNe in *.
  - lia.
  - destruct (Z.eqb_spec (Z.rem (p + 1) width) 0) as [E|Hne]; simpl in *; [lia|].
    replace (p + 1 - 1) with p by lia.
    pose proof (rem_succ_nonzero width p Hw Hp Hne) as H.
    destruct (Z.eqb_spec (Z.rem p width) (width - 1)); simpl; [contradiction | lia].
  - lia.
  - destruct (Z.eqb_spec (Z.rem (p - 1) width) (width - 1)) as [E|Hne];
      simpl in *; [lia|].
    replace (p - 1 + 1) with p by lia.
    pose proof (rem_pred_not_last width p Hw ltac:(lia) Hne) as H.
    destruct (Z.eqb_spec (Z.rem p width) 0); simpl; [contradiction | lia].
Qed.

Lemma neighborIndex_other (width p : Z) (d : Dir) :
  0 < width -> 0 <= p -> neighborIndex width p d <> p.
Proof.
  intros Hw Hp. destruct d; simpl; try lia.
  - destruct (jsNe (jsMod (p + 1) width) 0); lia.
  - destruct (jsNe (jsMod (p - 1) width) (width - 1)); lia.
Qed.

Lemma facingSide_involutive (d : Dir) : facingSide (facingSide d) = d.
Proof. destruct d; reflexivity. Qed.




(* ------------------------------------------------------------------ *)
(** ** Invariants of the board *)

Section Invariant.

Variable width : Z.
Hypothesis width_pos : 0 < width.

(** The tile next to slot [i] in direction [d], [None] when there is none. *)
Definition neighborOf (b : list Tile) (i : nat) (d : Dir) : option Tile :=
  boardAt b (neighborIndex width (Z.of_nat i) d).

(** What holds of the tiles of a board between two steps. *)
Record goodBoard (b : list Tile) : Prop := mkGoodBoard {
  good_position :
    forall i t, nth_error b i = Some t -> position t = Z.of_nat i;
  good_null :
    forall i t d, nth_error b i = Some t ->
      (getDir (neighbors t) d = None <-> neighborOf b i d = None);
  good_true :
    forall i t d, nth_error b i = Some t ->
      getDir (neighbors t) d = Some true ->
      exists n, neighborOf b i d = Some n /\ collapsed n = true;
  good_connections :
    forall i t, nth_error b i = Some t -> collapsed t = true ->
      exists name l, In (name, l) layouts /\
                     forall d, getConnector t d = edgeOf d l;
  good_candidates :
    forall i t, nth_error b i = Some t -> collapsed t = false ->
      filtered layouts (possibleTiles t)
}.

(** Two collapsed tiles side by side show the same connector to each other. *)
Definition connectorsAgree (b : list Tile) : Prop :=
  forall i d t n,
    nth_error b i = Some t -> neighborOf b i d = Some n ->
    collapsed t = true -> collapsed n = true ->
    getConnector t d = getConnector n (facingSide d).

(** Every candidate of a tile fits every collapsed tile next to it, except
    for the pairs in [skip] (the neighbours that a running cascade has not
    reached yet). *)
Definition candidatesFit (skip : nat -> Dir -> Prop) (b : list Tile) : Prop :=
  forall i d t n,
    nth_error b i = Some t -> neighborOf b i d = Some n ->
    collapsed t = false -> collapsed n = true ->
    skip i d \/
    forall name l, In (name, l) (possibleTiles t) ->
                   edgeOf d l = getConnector n (facingSide d).

(** The statuses of [t'] are those of [t], some of them raised to
    "collapsed" for a neighbour that is. *)
Definition statusKept (b : list Tile) (i : nat) (t t' : Tile) : Prop :=
  forall d,
    (getDir (neighbors t') d = None <-> getDir (neighbors t) d = None) /\
    (getDir (neighbors t') d = Some true ->
     getDir (neighbors t) d = Some true \/
     exists n, neighborOf b i d = Some n /\ collapsed n = true).

Lemma neighborOf_updated (b b' : list Tile) (i : nat) (d : Dir) :
  boardUpdated b b' ->
  match neighborOf b i d, neighborOf b' i d with
  | Some n, Some n' => updated n n'
  | None, None => True
  | _, _ => False
  end.
Proof. intros H. apply boardAt_updated. exact H. Qed.

Lemma neighborOf_updated_Some (b b' : list Tile) (i : nat) (d : Dir) (n : Tile) :
  boardUpdated b b' -> neighborOf b i d = Some n ->
  exists n', neighborOf b' i d = Some n' /\ updated n n'.
Proof.
  intros Hu Hn. pose proof (neighborOf_updated b b' i d Hu) as H.
  rewrite Hn in H. destruct (neighborOf b' i d) as [n'|]; [|contradiction].
  exists n'. split; [reflexivity | exact H].
Qed.

Lemma neighborOf_updated_back (b b' : list Tile) (i : nat) (d : Dir) (n' : Tile) :
  boardUpdated b b' -> neighborOf b' i d = Some n' ->
  exists n, neighborOf b i d = Some n /\ updated n n'.
Proof.
  intros Hu Hn. pose proof (neighborOf_updated b b' i d Hu) as H.
  rewrite Hn in H. destruct (neighborOf b i d) as [n|]; [|contradiction].
  exists n. split; [reflexivity | exact H].
Qed.

Lemma neighborOf_updated_None (b b' : list Tile) (i : nat) (d : Dir) :
  boardUpdated b b' -> (neighborOf b' i d = None <-> neighborOf b i d = None).
Proof.
  intros Hu. pose proof (neighborOf_updated b b' i d Hu) as H.
  destruct (neighborOf b i d), (neighborOf b' i d); try contradiction;
    split; congruence.
Qed.

(** Replacing one tile by an updated version with kept statuses keeps a good
    board good. *)
Lemma goodBoard_setNth (b : list Tile) (j : nat) (t t' : Tile) :
  goodBoard b -> nth_error b j = Some t ->
  updated t t' -> statusKept b j t t' ->
  goodBoard (setNth j t' b).
Proof.
  intros Hg Hj Hu Hs.
  pose proof (boardUpdated_setNth b j t t' Hj Hu) as Hb.
  assert (Hslot : forall i x, nth_error (setNth j t' b) i = Some x ->
            (i = j /\ x = t') \/ (i <> j /\ nth_error b i = Some x)).
  { intros i x Hi. destruct (Nat.eq_dec j i) as [<-|Hne].
    - left. rewrite nth_error_setNth_same in Hi
        by (eapply nth_error_in_range; eauto).
      split; congruence.
    - right. rewrite nth_error_setNth_other in Hi by exact Hne. auto. }
  constructor.
  - intros i x Hi. destruct (Hslot i x Hi) as [[-> ->]|[_ Hi']].
    + destruct Hu as [(Hp & _) _]. rewrite Hp. eapply good_position; eauto.
    + eapply good_position; eauto.
  - intros i x d Hi. rewrite (neighborOf_updated_None b _ i d Hb).
    destruct (Hslot i x Hi) as [[-> ->]|[_ Hi']].
    + rewrite (proj1 (Hs d)). eapply good_null; eauto.
    + eapply good_null; eauto.
  - intros i x d Hi Htrue.
    assert (Hold : exists n, neighborOf b i d = Some n /\ collapsed n = true).
    { destruct (Hslot i x Hi) as [[-> ->]|[_ Hi']].
      - destruct (proj2 (Hs d) Htrue) as [Hwas|Hn]; [|exact Hn].
        eapply good_true; eauto.
      - eapply good_true; eauto. }
    destruct Hold as (n & Hn & Hc).
    destruct (neighborOf_updated_Some b _ i d n Hb Hn) as (n' & Hn' & [(_ & Hc' & _) _]).
    exists n'. split; [exact Hn' | congruence].
  - intros i x Hi Hc. destruct (Hslot i x Hi) as [[-> ->]|[_ Hi']].
    + destruct Hu as [(_ & Hc' & _ & _ & Hconn) _].
      assert (Hct : collapsed t = true) by congruence.
      destruct (good_connections b Hg j t Hj Hct) as (name & l & Hin & He).
      exists name, l. split; [exact Hin|]. intros d. unfold getConnector.
      rewrite Hconn. apply He.
    + eapply good_connections; eauto.
  - intros i x Hi Hc. destruct (Hslot i x Hi) as [[-> ->]|[_ Hi']].
    + destruct Hu as [(_ & Hc' & _) Hf].
      assert (Hct : collapsed t = false) by congruence.
      eapply filtered_trans; [|exact Hf].
      eapply good_candidates; eauto.
    + eapply good_candidates; eauto.
Qed.

Lemma connectorsAgree_updated (b b' : list Tile) :
  boardUpdated b b' -> connectorsAgree b -> connectorsAgree b'.
Proof.
  intros Hu Ha i d t' n' Hi Hn Hct Hcn.
  destruct (boardUpdated_back b b' i t' Hu Hi) as (t & Hi0 & [(_ & Hc1 & _ & _ & Hk1) _]).
  destruct (neighborOf_updated_back b b' i d n' Hu Hn)
    as (n & Hn0 & [(_ & Hc2 & _ & _ & Hk2) _]).
  unfold getConnector. rewrite Hk1, Hk2.
  apply (Ha i d t n Hi0 Hn0); congruence.
Qed.

Lemma statusAfter_good (b : list Tile) (j : nat) (t : Tile) (d : Dir) :
  goodBoard b -> nth_error b j = Some t ->
  statusAfter b width t d =
  match neighborOf b j d with
  | None => None
  | Some n => if collapsed n then Some true else getDir (neighbors t) d
  end.
Proof.
  intros Hg Hj. unfold statusAfter.
  rewrite (good_position b Hg j t Hj). fold (neighborOf b j d).
  pose proof (good_null b Hg j t d Hj) as Hnull.
  destruct (getDir (neighbors t) d) as [s|] eqn:Hs.
  - destruct (neighborOf b j d) as [n|]; [reflexivity|].
    destruct Hnull as [_ H]. discriminate (H eq_refl).
  - destruct Hnull as [H _]. rewrite (H eq_refl). reflexivity.
Qed.

Lemma goodBoard_findNeighbors (b : list Tile) (j : nat) :
  goodBoard b -> goodBoard (snd (findNeighbors j width b)).
Proof.
  intros Hg. destruct (nth_error b j) as [t|] eqn:Hj.
  - rewrite (findNeighbors_slot j width b t Hj). simpl snd.
    apply (goodBoard_setNth b j t); try assumption.
    + apply findNeighborsBody_updated.
    + intros d. rewrite findNeighborsBody_status.
      rewrite (statusAfter_good b j t d Hg Hj).
      pose proof (good_null b Hg j t d Hj) as Hnull.
      destruct (neighborOf b j d) as [n|] eqn:Hn.
      * destruct (collapsed n) eqn:Hc.
        -- split.
           ++ split; [discriminate|]. intros H. apply Hnull in H. discriminate.
           ++ intros _. right. exists n. auto.
        -- split; [tauto|]. intros H. left. exact H.
      * split; [tauto|]. discriminate.
  - unfold findNeighbors, callOn. rewrite Hj. exact Hg.
Qed.

Lemma goodBoard_findPossibleTiles (b : list Tile) (j : nat) :
  goodBoard b -> goodBoard (snd (findPossibleTiles j width b)).
Proof.
  intros Hg. unfold findPossibleTiles, callOn.
  destruct (nth_error b j) as [t|] eqn:Hj; [|exact Hg].
  pose proof (findPossibleTilesBody_updated b width t) as [Hu Hn].
  destruct (findPossibleTilesBody width b t) as [r t']. simpl in *.
  apply (goodBoard_setNth b j t); try assumption.
  intros d. rewrite Hn. split; [tauto|]. intros H. left. exact H.
Qed.

Lemma edgeOf_catalogue (name : string) (l : Layout) (d : Dir) :
  In (name, l) layouts ->
  exists s, edgeOf d l = Some s /\ singlePixel s = true.
Proof.
  intros Hin. simpl in Hin.
  repeat (destruct Hin as [Hin|Hin];
          [injection Hin as <- <-; destruct d; eexists; split; reflexivity|]).
  contradiction.
Qed.

Lemma neighborOf_slot (b : list Tile) (i : nat) (d : Dir) (n : Tile) :
  neighborOf b i d = Some n ->
  0 <= neighborIndex width (Z.of_nat i) d /\
  nth_error b (Z.to_nat (neighborIndex width (Z.of_nat i) d)) = Some n.
Proof. intros H. apply boardAt_Some. exact H. Qed.

Lemma facingConnector_good (b : list Tile) (j : nat) (t n : Tile) (d : Dir) :
  goodBoard b -> nth_error b j = Some t -> neighborOf b j d = Some n ->
  facingConnector b width t d = getConnector n (facingSide d).
Proof.
  intros Hg Hj Hn. unfold facingConnector.
  rewrite (good_position b Hg j t Hj).
  destruct (neighborOf_slot b j d n Hn) as [H0 _].
  rewrite <- (neighborIndex_stepIndex width (Z.of_nat j) d H0).
  fold (neighborOf b j d). rewrite Hn. reflexivity.
Qed.

Lemma collapsed_connector (b : list Tile) (i : nat) (d d' : Dir) (n : Tile) :
  goodBoard b -> neighborOf b i d = Some n -> collapsed n = true ->
  exists c, getConnector n d' = Some c /\ singlePixel c = true.
Proof.
  intros Hg Hn Hc. destruct (neighborOf_slot b i d n Hn) as [_ Hslot].
  destruct (good_connections b Hg _ n Hslot Hc) as (name & l & Hin & He).
  rewrite He. eapply edgeOf_catalogue; eauto.
Qed.

Lemma connectorsKnown_good (b : list Tile) (j : nat) (t : Tile) :
  goodBoard b -> nth_error b j = Some t -> connectorsKnown b width t.
Proof.
  intros Hg Hj d Htrue.
  destruct (good_true b Hg j t d Hj Htrue) as (n & Hn & Hc).
  rewrite (facingConnector_good b j t n d Hg Hj Hn).
  destruct (collapsed_connector b j d (facingSide d) n Hg Hn Hc) as (c & Hk & _).
  congruence.
Qed.

Lemma candidates_wellformed (b : list Tile) (j : nat) (t : Tile) :
  goodBoard b -> nth_error b j = Some t -> collapsed t = false ->
  NoDup (map fst (possibleTiles t)) /\ threeRows (possibleTiles t).
Proof.
  intros Hg Hj Hc. pose proof (good_candidates b Hg j t Hj Hc) as Hf. split.
  - eapply filtered_NoDup_keys; [exact Hf | exact layouts_NoDup].
  - eapply threeRows_filtered; [exact Hf | exact layouts_threeRows].
Qed.

(** The two calls that a cascade makes on a neighbour.  On a good board the
    neighbour ends with candidates that fit every collapsed tile next to it,
    whether or not the second call throws. *)
Lemma refreshed_candidates_fit (b : list Tile) (j : nat) (t : Tile) :
  goodBoard b -> nth_error b j = Some t -> collapsed t = false ->
  let b2 := snd (findPossibleTiles j width (snd (findNeighbors j width b))) in
  exists t2, nth_error b2 j = Some t2 /\
    forall d n2, neighborOf b2 j d = Some n2 -> collapsed n2 = true ->
      forall name l, In (name, l) (possibleTiles t2) ->
                     edgeOf d l = getConnector n2 (facingSide d).
Proof.
  intros Hg Hj Hc b2.
  pose proof (goodBoard_findNeighbors b j Hg) as Hg1.
  pose proof (findNeighbors_updated j width b) as Hu1.
  set (b1 := snd (findNeighbors j width b)) in *.
  assert (Hj1 : nth_error b1 j = Some (snd (findNeighborsBody width b t))).
  { unfold b1. rewrite (findNeighbors_slot j width b t Hj). simpl snd.
    apply nth_error_setNth_same. eapply nth_error_in_range; eauto. }
  set (t1 := snd (findNeighborsBody width b t)) in *.
  assert (Hc1 : collapsed t1 = false).
  { destruct (findNeighborsBody_sameCore b width t) as [(_ & H & _) _].
    unfold t1. congruence. }
  destruct (candidates_wellformed b1 j t1 Hg1 Hj1 Hc1) as [Hnd H3].
  pose proof (connectorsKnown_good b1 j t1 Hg1 Hj1) as Hk.
  pose proof (findPossibleTilesBody_spec b1 width t1 Hnd H3 Hk) as Hspec.
  pose proof (findPossibleTiles_updated j width b1) as Hu2. fold b2 in Hu2.
  assert (Hj2 : nth_error b2 j = Some (narrowedAll b1 width t1)).
  { unfold b2, findPossibleTiles, callOn. rewrite Hj1, Hspec. simpl snd.
    apply nth_error_setNth_same. eapply nth_error_in_range; eauto. }
  exists (narrowedAll b1 width t1). split; [exact Hj2|].
  intros d n2 Hn2 Hcn2 name l Hin.
  destruct (neighborOf_updated_back b1 b2 j d n2 Hu2 Hn2)
    as (n1 & Hn1 & [(_ & Hcn1 & _ & _ & Hk1) _]).
  destruct (neighborOf_updated_back b b1 j d n1 Hu1 Hn1)
    as (n & Hn & [(_ & Hcn & _ & _ & _) _]).
  assert (Hstatus : getDir (neighbors t1) d = Some true).
  { unfold t1. rewrite findNeighborsBody_status.
    rewrite (statusAfter_good b j t d Hg Hj), Hn.
    replace (collapsed n) with true by congruence. reflexivity. }
  rewrite narrowedAll_possibleTiles in Hin. apply filter_In in Hin.
  destruct Hin as [Hin Hno]. simpl snd in Hno.
  assert (Hcn1' : collapsed n1 = true) by congruence.
  destruct (collapsed_connector b1 j d (facingSide d) n1 Hg1 Hn1 Hcn1')
    as (c & Hconn & Hsp).
  assert (Hclash : conflicts d c l = false).
  { apply negb_true_iff in Hno.
    destruct (conflicts d c l) eqn:Hcf; [|reflexivity].
    assert (Hyes : clashes b1 width t1 l = true).
    { unfold clashes. apply existsb_exists. exists d.
      split; [destruct d; simpl; tauto|].
      rewrite Hstatus, (facingConnector_good b1 j t1 n1 d Hg1 Hj1 Hn1), Hconn.
      exact Hcf. }
    congruence. }
  assert (Hl : exists nm, In (nm, l) layouts).
  { exists name. apply (filtered_incl _ _ (good_candidates b1 Hg1 j t1 Hj1 Hc1)).
    exact Hin. }
  destruct Hl as (nm & Hl).
  destruct (edgeOf_catalogue nm l d Hl) as (s & Hs & Hsps).
  unfold conflicts in Hclash. rewrite Hsp, Hs, Hsps in Hclash. simpl in Hclash.
  apply negb_false_iff in Hclash. apply String.eqb_eq in Hclash. subst s.
  unfold getConnector in *. rewrite Hk1. congruence.
Qed.

Lemma callOn_other (self i : nat) (method : list Tile -> TileOp) (b : list Tile) :
  i <> self -> nth_error (snd (callOn self method b)) i = nth_error b i.
Proof.
  intros Hne. unfold callOn.
  destruct (nth_error b self) as [t|]; [|reflexivity].
  destruct (method b t) as [r t']. simpl.
  apply nth_error_setNth_other. congruence.
Qed.

Lemma goodBoard_notifyDir (self : nat) (d : Dir) (b : list Tile) :
  goodBoard b -> goodBoard (snd (notifyDir self width d b)).
Proof.
  intros Hg. unfold notifyDir.
  destruct (nth_error b self) as [this|]; [|exact Hg].
  destruct (getDir (neighbors this) d) as [[|]|]; try exact Hg.
  destruct ((0 <=? stepIndex width (position this) d)
            && (stepIndex width (position this) d <? Z.of_nat (List.length b)));
    [|exact Hg].
  pose proof (goodBoard_findNeighbors b
                (Z.to_nat (stepIndex width (position this) d)) Hg) as H1.
  destruct (findNeighbors (Z.to_nat (stepIndex width (position this) d)) width b)
    as [[[]|e] b1]; simpl in *; [|exact H1].
  apply goodBoard_findPossibleTiles. exact H1.
Qed.

Lemma goodBoard_notifyNeighbors (self : nat) (ds : list Dir) :
  forall b, goodBoard b -> goodBoard (snd (notifyNeighbors self width ds b)).
Proof.
  induction ds as [|d rest IH]; intros b Hg; simpl; [exact Hg|].
  pose proof (goodBoard_notifyDir self d b Hg) as H1.
  destruct (notifyDir self width d b) as [[[]|e] b1]; simpl in *; [|exact H1].
  apply IH. exact H1.
Qed.

(** The pairs that a cascade from slot [self] still has to repair: the
    neighbours, in the directions [ds] yet to come, that the collapsing tile
    saw as not collapsed. *)
Definition awaiting (self : nat) (statuses : PerDir (option bool)) (ds : list Dir)
  : nat -> Dir -> Prop :=
  fun i d' =>
    neighborIndex width (Z.of_nat i) d' = Z.of_nat self /\
    exists d, In d ds /\ getDir statuses d = Some false /\
              Z.of_nat i = stepIndex width (Z.of_nat self) d.

(** The state of the board while [collapse] on slot [self] tells the
    neighbours in the directions [ds]. *)
Definition cascading (self : nat) (statuses : PerDir (option bool)) (ds : list Dir)
    (b : list Tile) : Prop :=
  goodBoard b /\ connectorsAgree b /\
  (exists this, nth_error b self = Some this /\ collapsed this = true /\
                neighbors this = statuses) /\
  candidatesFit (awaiting self statuses ds) b.

Lemma notifyDir_cascading (self : nat) (statuses : PerDir (option bool))
    (d : Dir) (rest : list Dir) (b b' : list Tile) :
  cascading self statuses (d :: rest) b ->
  notifyDir self width d b = (Ret tt, b') ->
  cascading self statuses rest b'.
Proof.
  intros (Hg & Ha & (this & Hself & Hct & Hst) & Hfit) Hrun.
  pose proof (goodBoard_notifyDir self d b Hg) as Hg'.
  pose proof (notifyDir_updated self width d b) as Hu.
  rewrite Hrun in Hg', Hu. simpl snd in Hg', Hu.
  assert (Hweaken : getDir statuses d <> Some false -> b' = b ->
            candidatesFit (awaiting self statuses rest) b').
  { intros Hnot ->. intros i d' t n Hi Hn Hc Hcn.
    destruct (Hfit i d' t n Hi Hn Hc Hcn) as [(Hidx & dw & Hin & Hf & Heq)|Hok];
      [|right; exact Hok].
    left. split; [exact Hidx|]. exists dw. split; [|split; assumption].
    destruct Hin as [<-|Hin]; [contradiction | exact Hin]. }
  unfold notifyDir in Hrun. rewrite Hself in Hrun. rewrite Hst in Hrun.
  destruct (getDir statuses d) as [[|]|] eqn:Hd.
  - injection Hrun as <-.
    split; [exact Hg|]. split; [exact Ha|]. split; [exists this; auto|].
    apply Hweaken; [congruence | reflexivity].
  - rewrite (good_position b Hg self this Hself) in Hrun.
    pose proof (good_null b Hg self this d Hself) as Hnull.
    rewrite Hst, Hd in Hnull.
    destruct (neighborOf b self d) as [nb|] eqn:Hnb;
      [|destruct Hnull as [_ H]; discriminate (H eq_refl)].
    destruct (neighborOf_slot b self d nb Hnb) as [H0 Hslot].
    pose proof (neighborIndex_stepIndex width (Z.of_nat self) d H0) as Hidx.
    pose proof (neighborIndex_other width (Z.of_nat self) d width_pos ltac:(lia))
      as Hother.
    rewrite Hidx in H0, Hslot, Hother.
    set (target := stepIndex width (Z.of_nat self) d) in *.
    set (j := Z.to_nat target) in *.
    assert (Hjne : j <> self) by (unfold j; lia).
    destruct ((0 <=? target) && (target <? Z.of_nat (List.length b)));
      [|discriminate].
    rewrite (findNeighbors_slot j width b nb Hslot) in Hrun.
    set (b1 := setNth j (snd (findNeighborsBody width b nb)) b) in *.
    assert (Hb1 : b1 = snd (findNeighbors j width b)).
    { rewrite (findNeighbors_slot j width b nb Hslot). reflexivity. }
    assert (Hb' : b' = snd (findPossibleTiles j width (snd (findNeighbors j width b)))).
    { rewrite <- Hb1. rewrite Hrun. reflexivity. }
    split; [exact Hg'|]. split; [eapply connectorsAgree_updated; eauto|].
    split.
    { exists this. split; [|auto].
      rewrite Hb'. unfold findPossibleTiles. rewrite callOn_other by congruence.
      unfold findNeighbors. rewrite callOn_other by congruence. exact Hself. }
    intros i d' t2 n2 Hi Hn2 Hc2 Hcn2.
    destruct (Nat.eq_dec i j) as [->|Hij].
    + right.
      assert (Hcnb : collapsed nb = false).
      { destruct (boardUpdated_back b b' j t2 Hu Hi) as (t0 & Ht0 & [(_ & Hc0 & _) _]).
        congruence. }
      destruct (refreshed_candidates_fit b j nb Hg Hslot Hcnb) as (t2' & Ht2' & Hfits).
      rewrite <- Hb' in Ht2', Hfits.
      assert (t2' = t2) by congruence. subst t2'.
      intros name l Hin. eapply Hfits; eauto.
    + assert (Hi0 : nth_error b i = Some t2).
      { rewrite Hb' in Hi. unfold findPossibleTiles in Hi.
        rewrite callOn_other in Hi by exact Hij.
        unfold findNeighbors in Hi. rewrite callOn_other in Hi by exact Hij.
        exact Hi. }
      destruct (neighborOf_updated_back b b' i d' n2 Hu Hn2)
        as (n & Hn & [(_ & Hcn & _ & _ & Hk) _]).
      assert (Hcn0 : collapsed n = true) by congruence.
      destruct (Hfit i d' t2 n Hi0 Hn Hc2 Hcn0) as [(Hback & dw & Hin & Hf & Heq)|Hok].
      * left. split; [exact Hback|]. exists dw. split; [|split; assumption].
        destruct Hin as [<-|Hin]; [|exact Hin].
        exfalso. apply Hij. unfold j, target. rewrite <- Heq. lia.
      * right. intros name l Hin. unfold getConnector. rewrite Hk.
        apply (Hok name l Hin).
  - injection Hrun as <-.
    split; [exact Hg|]. split; [exact Ha|]. split; [exists this; auto|].
    apply Hweaken; [congruence | reflexivity].
Qed.

Lemma notifyNeighbors_cascading (self : nat) (statuses : PerDir (option bool))
    (ds : list Dir) :
  forall b b', cascading self statuses ds b ->
               notifyNeighbors self width ds b = (Ret tt, b') ->
               cascading self statuses [] b'.
Proof.
  induction ds as [|d rest IH]; intros b b' Hc Hrun; simpl in Hrun.
  - injection Hrun as <-. exact Hc.
  - destruct (notifyDir self width d b) as [[[]|e] b1] eqn:Hd; [|discriminate].
    apply (IH b1 b'); [|exact Hrun].
    eapply notifyDir_cascading; eauto.
Qed.

Lemma neighborOf_setNth (b : list Tile) (self i : nat) (d : Dir) (x : Tile) :
  (self < List.length b)%nat ->
  (neighborIndex width (Z.of_nat i) d = Z.of_nat self ->
   neighborOf (setNth self x b) i d = Some x) /\
  (neighborIndex width (Z.of_nat i) d <> Z.of_nat self ->
   neighborOf (setNth self x b) i d = neighborOf b i d).
Proof.
  intros Hlt. unfold neighborOf, boardAt. rewrite setNth_length. split.
  - intros ->. rewrite Nat2Z.id.
    replace ((0 <=? Z.of_nat self) && (Z.of_nat self <? Z.of_nat (List.length b)))
      with true
      by (symmetry; apply andb_true_iff; split;
          [apply Z.leb_le | apply Z.ltb_lt]; lia).
    apply nth_error_setNth_same. exact Hlt.
  - intros Hne.
    destruct ((0 <=? neighborIndex width (Z.of_nat i) d)
              && (neighborIndex width (Z.of_nat i) d <? Z.of_nat (List.length b)))
      eqn:Hin; [|reflexivity].
    apply andb_true_iff in Hin. destruct Hin as [H0 _]. apply Z.leb_le in H0.
    apply nth_error_setNth_other. lia.
Qed.

Lemma lookup_layouts (name : string) (l : Layout) :
  In (name, l) layouts -> lookup name layouts = Some l.
Proof.
  intros Hin. simpl in Hin.
  repeat (destruct Hin as [Hin|Hin]; [injection Hin as <- <-; reflexivity|]).
  contradiction.
Qed.

Lemma nth_key (ps : list (string * Layout)) (k : nat) :
  (k < List.length ps)%nat ->
  exists l, In (nth k (map fst ps) "", l) ps.
Proof.
  revert k. induction ps as [|[name l] tl IH]; intros [|k] Hk; simpl in *; try lia.
  - exists l. left. reflexivity.
  - destruct (IH k ltac:(lia)) as (l' & Hin). exists l'. right. exact Hin.
Qed.

(** The moment in [collapse] after the tile has been marked and before the
    first neighbour is told. *)
Lemma collapse_write_cascading (b : list Tile) (self : nat) (this this' : Tile)
    (choice : string) (l : Layout) :
  goodBoard b -> connectorsAgree b -> candidatesFit (fun _ _ => False) b ->
  nth_error b self = Some this -> collapsed this = false ->
  In (choice, l) (possibleTiles this) ->
  generateConnections (setChoice this choice) = (Ret tt, this') ->
  cascading self (neighbors this) dirs (setNth self (markCollapsed this') b).
Proof.
  intros Hg Ha Hfit Hself Hc Hin Hgen.
  assert (Hcat : In (choice, l) layouts).
  { apply (filtered_incl _ _ (good_candidates b Hg self this Hself Hc)). exact Hin. }
  destruct (generateConnections_catalogue choice l this Hcat)
    as (g & Hgen' & Hp & _ & _ & _ & Hnb & _ & Hedge).
  assert (g = this') by congruence. subst g. clear Hgen'.
  set (T := markCollapsed this').
  assert (HTconn : forall d, getConnector T d = edgeOf d l).
  { intros d. unfold edgeOf. rewrite (Hedge d). reflexivity. }
  assert (Hlt : (self < List.length b)%nat) by (eapply nth_error_in_range; eauto).
  assert (Hslot : forall i x, nth_error (setNth self T b) i = Some x ->
            (i = self /\ x = T) \/ (i <> self /\ nth_error b i = Some x)).
  { intros i x Hi. destruct (Nat.eq_dec self i) as [<-|Hne].
    - left. rewrite nth_error_setNth_same in Hi by exact Hlt. split; congruence.
    - right. rewrite nth_error_setNth_other in Hi by exact Hne. auto. }
  assert (Hnbr : forall i d x, neighborOf (setNth self T b) i d = Some x ->
            (neighborIndex width (Z.of_nat i) d = Z.of_nat self /\ x = T) \/
            (neighborIndex width (Z.of_nat i) d <> Z.of_nat self /\
             neighborOf b i d = Some x)).
  { intros i d x Hx. destruct (neighborOf_setNth b self i d T Hlt) as [Heq Hne].
    destruct (Z.eq_dec (neighborIndex width (Z.of_nat i) d) (Z.of_nat self)) as [E|E].
    - left. rewrite (Heq E) in Hx. split; congruence.
    - right. rewrite (Hne E) in Hx. auto. }
  assert (Hnone : forall i d, neighborOf (setNth self T b) i d = None <->
                              neighborOf b i d = None).
  { intros i d. unfold neighborOf. rewrite !boardAt_None, setNth_length. tauto. }
  (* what the chosen layout owes to the collapsed tiles around [self] *)
  assert (Hchoice : forall d n, neighborOf b self d = Some n -> collapsed n = true ->
            edgeOf d l = getConnector n (facingSide d)).
  { intros d n Hn Hcn.
    destruct (Hfit self d this n Hself Hn Hc Hcn) as [[]|Hok]. eapply Hok; eauto. }
  split; [|split; [|split]].
  - constructor.
    + intros i x Hi. destruct (Hslot i x Hi) as [[-> ->]|[_ Hi']].
      * unfold T. simpl. rewrite Hp. eapply good_position; eauto.
      * eapply good_position; eauto.
    + intros i x d Hi. rewrite Hnone.
      destruct (Hslot i x Hi) as [[-> ->]|[_ Hi']].
      * unfold T. simpl. rewrite Hnb. eapply good_null; eauto.
      * eapply good_null; eauto.
    + intros i x d Hi Htrue.
      assert (Hold : exists n, neighborOf b i d = Some n /\ collapsed n = true).
      { destruct (Hslot i x Hi) as [[-> ->]|[_ Hi']].
        - unfold T in Htrue. simpl in Htrue. rewrite Hnb in Htrue.
          eapply good_true; eauto.
        - eapply good_true; eauto. }
      destruct Hold as (n & Hn & Hcn).
      destruct (neighborOf_setNth b self i d T Hlt) as [Heq Hne].
      destruct (Z.eq_dec (neighborIndex width (Z.of_nat i) d) (Z.of_nat self)) as [E|E].
      * exists T. split; [apply Heq; exact E | reflexivity].
      * exists n. split; [rewrite (Hne E); exact Hn | exact Hcn].
    + intros i x Hi Hcx. destruct (Hslot i x Hi) as [[-> ->]|[_ Hi']].
      * exists choice, l. split; [exact Hcat | exact HTconn].
      * eapply good_connections; eauto.
    + intros i x Hi Hcx. destruct (Hslot i x Hi) as [[-> ->]|[_ Hi']].
      * discriminate Hcx.
      * eapply good_candidates; eauto.
  - intros i d t n Hi Hn Hct Hcn.
    destruct (Hslot i t Hi) as [[-> ->]|[Hine Hi']];
      destruct (Hnbr _ d n Hn) as [[E ->]|[E Hn']].
    + exfalso. exact (neighborIndex_other width (Z.of_nat self) d width_pos
                        ltac:(lia) E).
    + rewrite HTconn. apply Hchoice; assumption.
    + (* the tile at [i] is collapsed and has [self] in direction [d] *)
      pose proof (neighborIndex_sym width (Z.of_nat i) d width_pos ltac:(lia)
                    ltac:(lia)) as Hsym.
      rewrite E in Hsym.
      assert (Hback : neighborOf b self (facingSide d) = Some t).
      { unfold neighborOf. rewrite Hsym. apply boardAt_Some.
        split; [lia|]. rewrite Nat2Z.id. exact Hi'. }
      rewrite HTconn. rewrite (Hchoice (facingSide d) t Hback Hct).
      rewrite facingSide_involutive. reflexivity.
    + apply (Ha i d t n Hi' Hn' Hct Hcn).
  - exists T. split; [apply nth_error_setNth_same; exact Hlt|].
    split; [reflexivity|]. unfold T. simpl. exact Hnb.
  - intros i d t n Hi Hn Hct Hcn.
    destruct (Hslot i t Hi) as [[-> ->]|[Hine Hi']]; [discriminate Hct|].
    destruct (Hnbr _ d n Hn) as [[E ->]|[E Hn']].
    + left. split; [exact E|].
      pose proof (neighborIndex_sym width (Z.of_nat i) d width_pos ltac:(lia)
                    ltac:(lia)) as Hsym.
      rewrite E in Hsym.
      assert (Hback : neighborOf b self (facingSide d) = Some t).
      { unfold neighborOf. rewrite Hsym. apply boardAt_Some.
        split; [lia|]. rewrite Nat2Z.id. exact Hi'. }
      exists (facingSide d). split; [destruct d; simpl; tauto|]. split.
      * pose proof (good_null b Hg self this (facingSide d) Hself) as Hnull.
        destruct (getDir (neighbors this) (facingSide d)) as [[|]|] eqn:Hs.
        -- destruct (good_true b Hg self this (facingSide d) Hself Hs)
             as (n' & Hn' & Hcn').
           rewrite Hback in Hn'. injection Hn' as <-. congruence.
        -- reflexivity.
        -- destruct Hnull as [H _]. rewrite (H eq_refl) in Hback. discriminate.
      * rewrite <- neighborIndex_stepIndex by lia. lia.
    + destruct (Hfit i d t n Hi' Hn' Hct Hcn) as [[]|Hok]. right. exact Hok.
Qed.

End Invariant.

(* ------------------------------------------------------------------ *)
(** ** One step of the driver *)

(** The board between two steps: good, agreeing connectors, and every
    candidate fits every collapsed neighbour. *)
Definition stable (width : Z) (b : list Tile) : Prop :=
  goodBoard width b /\ connectorsAgree width b /\
  candidatesFit width (fun _ _ => False) b.

Lemma chooseNextTile_returns (random : nat -> Rand) (w w1 : World) (i : nat) :
  chooseNextTile random w = (Some i, w1) ->
  boardTiles w1 = boardTiles w /\
  exists t, nth_error (boardTiles w) i = Some t /\
            collapsed t = false /\ possibleTiles t <> [].
Proof.
  intros Hrun. destruct (chooseNextTile_pick random w) as (Hpick & Hboard & _).
  rewrite Hrun in Hpick, Hboard. simpl in Hpick, Hboard.
  split; [exact Hboard|].
  symmetry in Hpick. apply nth_error_In in Hpick.
  unfold entropicTiles in Hpick. apply flagged_spec in Hpick.
  destruct Hpick as (k & v & Hk & Hnth & Hmin). simpl in Hk. subst k.
  pose proof (jsMin_spec (filter (fun item => negb (item =? 0)%nat)
                            (entropyArray (boardTiles w)))) as Hspec.
  rewrite Hmin in Hspec. destruct Hspec as [Hin _].
  apply filter_In in Hin. destruct Hin as [_ Hnz].
  rewrite entropyArray_nth in Hnth.
  destruct (nth_error (boardTiles w) i) as [t|]; [|discriminate].
  simpl in Hnth. injection Hnth as Hv.
  exists t. split; [reflexivity|].
  destruct (collapsed t); [subst v; discriminate|].
  split; [reflexivity|]. intros Hempty.
  rewrite getEntropy_length, Hempty in Hv. subst v. discriminate.
Qed.

Lemma stable_edges (width : Z) (b : list Tile) :
  stable width b -> goodBoard width b /\ connectorsAgree width b.
Proof. intros (Hg & Ha & _). split; assumption. Qed.

(** A step on a stable board: the connectors of collapsed neighbours agree
    afterwards whatever the outcome, and the board is stable again when the
    step succeeded. *)
Lemma doCollapse_step (random : nat -> Rand) (width : Z) (w w' : World) (ok : bool) :
  0 < width -> stable width (boardTiles w) ->
  doCollapse random width w = (ok, w') ->
  goodBoard width (boardTiles w') /\ connectorsAgree width (boardTiles w') /\
  (ok = true -> stable width (boardTiles w')).
Proof.
  intros Hw (Hg & Ha & Hfit) Hrun.
  assert (Hsame : forall w1 : World, boardTiles w1 = boardTiles w ->
            goodBoard width (boardTiles w1) /\ connectorsAgree width (boardTiles w1) /\
            stable width (boardTiles w1)).
  { intros w1 ->. split; [exact Hg|]. split; [exact Ha|].
    split; [exact Hg|]. split; [exact Ha | exact Hfit]. }
  unfold doCollapse, iterateLoop in Hrun.
  destruct (chooseNextTile random w) as [[i|] w1] eqn:Hchoose.
  2:{ destruct (chooseNextTile_pick random w) as (_ & Hb & _).
      rewrite Hchoose in Hb. simpl in Hb.
      injection Hrun as <- <-. destruct (Hsame w1 Hb) as (H1 & H2 & _).
      split; [exact H1|]. split; [exact H2|]. discriminate. }
  destruct (chooseNextTile_returns random w w1 i Hchoose)
    as (Hb1 & this & Hself & Hc & Hne).
  unfold collapse in Hrun. rewrite Hb1, Hself in Hrun.
  rewrite length_map in Hrun.
  destruct (possibleTiles this) as [|e0 ps0] eqn:Hps; [congruence|].
  rewrite <- Hps in Hrun.
  replace (List.length (possibleTiles this) =? 0)%nat with false in Hrun
    by (rewrite Hps; reflexivity).
  set (k := randIndex (random (draws w1)) (List.length (possibleTiles this))) in Hrun.
  assert (Hk : (k < List.length (possibleTiles this))%nat).
  { apply randIndex_lt. rewrite Hps. simpl. lia. }
  destruct (nth_key (possibleTiles this) k Hk) as (l & Hin).
  set (choice := nth k (map fst (possibleTiles this)) "") in *.
  assert (Hcat : In (choice, l) layouts).
  { apply (filtered_incl _ _ (good_candidates width _ Hg i this Hself Hc)). exact Hin. }
  destruct (generateConnections_catalogue choice l this Hcat)
    as (this' & Hgen & _).
  rewrite Hgen in Hrun.
  pose proof (collapse_write_cascading width Hw (boardTiles w) i this this' choice l
                Hg Ha Hfit Hself Hc Hin Hgen) as Hcasc.
  set (b1 := setNth i (markCollapsed this') (boardTiles w)) in *.
  pose proof (goodBoard_notifyNeighbors width i dirs b1 (proj1 Hcasc)) as Hg2.
  pose proof (notifyNeighbors_updated i width dirs b1) as Hu2.
  pose proof (notifyNeighbors_cascading width Hw i (neighbors this) dirs b1) as Hrestore.
  destruct (notifyNeighbors i width dirs b1) as [[[]|e] b2] eqn:Hnotify;
    simpl snd in Hg2, Hu2.
  - destruct (Hrestore b2 Hcasc eq_refl) as (_ & Ha2 & _ & Hfit2).
    cbn [boardTiles] in Hrun.
    destruct (nth_error b2 i) as [tile|] eqn:Htile.
    + injection Hrun as <- <-. cbn [boardTiles].
      assert (Hstore : storeAt (position tile) tile b2 = b2).
      { unfold storeAt. rewrite (good_position width b2 Hg2 i tile Htile).
        rewrite Nat2Z.id.
        destruct ((0 <=? Z.of_nat i) && (Z.of_nat i <? Z.of_nat (List.length b2)));
          [apply setNth_unchanged; exact Htile | reflexivity]. }
      rewrite Hstore.
      assert (Hfit3 : candidatesFit width (fun _ _ => False) b2).
      { intros j d t n Hj Hn Hct Hcn.
        destruct (Hfit2 j d t n Hj Hn Hct Hcn) as [(_ & dw & [] & _)|Hok].
        right. exact Hok. }
      split; [exact Hg2|]. split; [exact Ha2|]. intros _.
      split; [exact Hg2|]. split; [exact Ha2 | exact Hfit3].
    + injection Hrun as <- <-. cbn [boardTiles].
      split; [exact Hg2|]. split; [exact Ha2|]. discriminate.
  - injection Hrun as <- <-. cbn [boardTiles].
    split; [exact Hg2|].
    split; [eapply connectorsAgree_updated; [exact Hu2 | apply Hcasc]|].
    discriminate.
Qed.

Lemma resetBoard_stable (width height : Z) (w : World) :
  stable width (boardTiles (resetBoard width height w)).
Proof.
  assert (Htile : forall i t,
            nth_error (boardTiles (resetBoard width height w)) i = Some t ->
            position t = Z.of_nat i /\ collapsed t = false /\
            possibleTiles t = layouts /\
            forall d, getDir (neighbors t) d =
              if (0 <=? neighborIndex width (Z.of_nat i) d)
                 && (neighborIndex width (Z.of_nat i) d
                     <? Z.of_nat (Z.to_nat (height * width)))
              then Some false else None).
  { intros i t Hi.
    pose proof (nth_error_in_range _ _ _ Hi) as Hlt.
    rewrite resetBoard_length in Hlt.
    destruct (resetBoard_tile width height w i Hlt) as (t' & Hi' & H).
    assert (t' = t) by congruence. subst t'. exact H. }
  assert (Hfresh : forall i d n,
            neighborOf width (boardTiles (resetBoard width height w)) i d = Some n ->
            collapsed n = false).
  { intros i d n Hn. apply boardAt_Some in Hn. destruct Hn as [_ Hn].
    apply Htile in Hn. tauto. }
  split; [|split].
  - constructor.
    + intros i t Hi. apply Htile in Hi. tauto.
    + intros i t d Hi. destruct (Htile i t Hi) as (_ & _ & _ & Hs).
      rewrite Hs. unfold neighborOf. rewrite boardAt_None, resetBoard_length.
      destruct ((0 <=? neighborIndex width (Z.of_nat i) d)
                && (neighborIndex width (Z.of_nat i) d
                    <? Z.of_nat (Z.to_nat (height * width)))) eqn:Hin.
      * apply andb_true_iff in Hin. destruct Hin as [H0 H1].
        apply Z.leb_le in H0. apply Z.ltb_lt in H1.
        split; [discriminate | intros H; exfalso; apply H; lia].
      * apply andb_false_iff in Hin. split; [|reflexivity].
        intros _ [H0 H1].
        destruct Hin as [Hin|Hin];
          [apply Z.leb_gt in Hin | apply Z.ltb_ge in Hin]; lia.
    + intros i t d Hi Htrue. destruct (Htile i t Hi) as (_ & _ & _ & Hs).
      rewrite Hs in Htrue.
      destruct ((0 <=? neighborIndex width (Z.of_nat i) d)
                && (neighborIndex width (Z.of_nat i) d
                    <? Z.of_nat (Z.to_nat (height * width)))); discriminate.
    + intros i t Hi Hc. destruct (Htile i t Hi) as (_ & Hc' & _). congruence.
    + intros i t Hi _. destruct (Htile i t Hi) as (_ & _ & -> & _).
      apply filtered_refl.
  - intros i d t n Hi Hn _ Hcn. rewrite (Hfresh i d n Hn) in Hcn. discriminate.
  - intros i d t n Hi Hn _ Hcn. rewrite (Hfresh i d n Hn) in Hcn. discriminate.
Qed.

(* ------------------------------------------------------------------ *)
(** ** Runs of the driver and the edge-matching invariant *)

(** Two collapsed tiles side by side: when one of the two facing connectors
    has at most one black pixel, the two connectors are the same string. *)
Definition edgesMatch (width : Z) (b : list Tile) : Prop :=
  forall i d t n,
    nth_error b i = Some t -> neighborOf width b i d = Some n ->
    collapsed t = true -> collapsed n = true ->
    exists s s',
      getConnector t d = Some s /\ getConnector n (facingSide d) = Some s' /\
      ((activeCells s <= 1 \/ activeCells s' <= 1)%nat -> s = s').

Section Runs.

Variable random : nat -> Rand.
Variables width height : Z.

(** The boards of a run that has not met a contradiction: a new board, then
    steps that all returned [true]. *)
Inductive solving : World -> Prop :=
| solving_reset : forall w, solving (resetBoard width height w)
| solving_step : forall w w',
    solving w -> doCollapse random width w = (true, w') -> solving w'.

(** The boards that calls of [doCollapse] can reach at all: the "Next"
    button keeps calling it after a step has failed. *)
Inductive stepped : World -> Prop :=
| stepped_reset : forall w, stepped (resetBoard width height w)
| stepped_step : forall w w' ok,
    stepped w -> doCollapse random width w = (ok, w') -> stepped w'.

(** [n] calls of [doCollapse], whatever they return. *)
Fixpoint stepMany (n : nat) (w : World) : World :=
  match n with
  | O => w
  | S n' => stepMany n' (snd (doCollapse random width w))
  end.

Lemma stepMany_stepped (n : nat) :
  forall w, stepped w -> stepped (stepMany n w).
Proof.
  induction n as [|n IH]; intros w Hw; simpl; [exact Hw|].
  apply IH. destruct (doCollapse random width w) as [ok w'] eqn:Hstep.
  eapply stepped_step; eauto.
Qed.

Lemma solving_stable (w : World) :
  0 < width -> solving w -> stable width (boardTiles w).
Proof.
  intros Hw Hs. induction Hs as [w|w w' Hs IH Hstep].
  - apply resetBoard_stable.
  - destruct (doCollapse_step random width w w' true Hw IH Hstep) as (_ & _ & H).
    apply H. reflexivity.
Qed.

Lemma agreeing_edgesMatch (b : list Tile) :
  goodBoard width b -> connectorsAgree width b -> edgesMatch width b.
Proof.
  intros Hg Ha i d t n Hi Hn Hct Hcn.
  destruct (collapsed_connector width b i d (facingSide d) n Hg Hn Hcn)
    as (s' & Hs' & _).
  exists s', s'. split; [|split; [exact Hs' | reflexivity]].
  rewrite (Ha i d t n Hi Hn Hct Hcn). exact Hs'.
Qed.

(** C1, as the code keeps it.  In a run from a new board in which no step
    before the last has failed, the facing connectors of any two collapsed
    tiles side by side are equal strings (every edge of the five variants has
    at most one black pixel): this holds before every step and after it,
    also when that step ends in a contradiction. *)
Theorem edge_matching_until_contradiction (w : World) :
  0 < width -> solving w ->
  edgesMatch width (boardTiles w) /\
  forall ok w', doCollapse random width w = (ok, w') ->
                edgesMatch width (boardTiles w').
Proof.
  intros Hw Hs. pose proof (solving_stable w Hw Hs) as Hst.
  split.
  - destruct Hst as (Hg & Ha & _). apply agreeing_edgesMatch; assumption.
  - intros ok w' Hstep.
    destruct (doCollapse_step random width w w' ok Hw Hst Hstep) as (Hg & Ha & _).
    apply agreeing_edgesMatch; assumption.
Qed.

End Runs.

(* ------------------------------------------------------------------ *)
(** ** A contradiction in the middle of a cascade *)

Lemma narrowEntries_throws (dir : Dir) (valid : bool) (connector : string)
    (entries : list (string * Layout)) :
  forall cur e ps, narrowEntries dir valid connector entries cur = (Throw e, ps) ->
                   e = TypeError.
Proof.
  induction entries as [|[k l] rest IH]; intros cur e ps H; simpl in H.
  - discriminate.
  - destruct (potentialConnectionStr dir l) as [p|e1] eqn:Hp.
    + unfold mustDelete in H. destruct valid.
      * destruct p as [s|]; [|injection H as <- _; reflexivity].
        destruct (singlePixel s && negb (String.eqb s connector)); eapply IH; eauto.
      * eapply IH; eauto.
    + injection H as <- _. destruct dir; simpl in Hp; try discriminate;
        unfold column3 in Hp;
        destruct l as [|r0 [|r1 [|r2 tl]]]; try discriminate;
        injection Hp as <-; reflexivity.
Qed.

Lemma findPossibleTilesDir_throws (board : list Tile) (width : Z) (dir : Dir)
    (t t' : Tile) (e : Exn) :
  findPossibleTilesDir board width dir t = (Throw e, t') -> e = TypeError.
Proof.
  unfold findPossibleTilesDir.
  destruct (getDir (neighbors t) dir) as [[|]|]; try discriminate.
  destruct (boardAt board _) as [target|]; [|intros H; injection H as <- _; reflexivity].
  destruct (getConnector target (facingSide dir)) as [connector|];
    [|intros H; injection H as <- _; reflexivity].
  destruct (narrowEntries dir (singlePixel connector) connector
              (possibleTiles t) (possibleTiles t)) as [[[]|e1] ps] eqn:Hn.
  - discriminate.
  - intros H. injection H as <- _. eapply narrowEntries_throws; eauto.
Qed.

Lemma forDirs_throws (body : Dir -> TileOp) (ds : list Dir) :
  (forall d t t' e, body d t = (Throw e, t') -> e = TypeError) ->
  forall t t' e, forDirs body ds t = (Throw e, t') -> e = TypeError.
Proof.
  intros Hbody. induction ds as [|d rest IH]; intros t t' e H; simpl in H.
  - discriminate.
  - destruct (body d t) as [[[]|e1] t1] eqn:Hd.
    + eapply IH; eauto.
    + injection H as <- _. eapply Hbody; eauto.
Qed.


(** The slot that [notifyDir] works on. *)
Definition touches (width : Z) (this : Tile) (d : Dir) (j : nat) : Prop :=
  getDir (neighbors this) d = Some false /\
  Z.of_nat j = stepIndex width (position this) d.

Lemma notifyDir_frame (self : nat) (width : Z) (d : Dir) (b : list Tile)
    (this : Tile) (j : nat) :
  nth_error b self = Some this -> ~ touches width this d j ->
  nth_error (snd (notifyDir self width d b)) j = nth_error b j.
Proof.
  intros Hself Hnot. unfold notifyDir. rewrite Hself.
  destruct (getDir (neighbors this) d) as [[|]|] eqn:Hs; try reflexivity.
  destruct ((0 <=? stepIndex width (position this) d)
            && (stepIndex width (position this) d <? Z.of_nat (List.length b)))
    eqn:Hin; [|reflexivity].
  apply andb_true_iff in Hin. destruct Hin as [H0 _]. apply Z.leb_le in H0.
  assert (Hne : j <> Z.to_nat (stepIndex width (position this) d)).
  { intros ->. apply Hnot. split; [exact Hs|]. lia. }
  set (k := Z.to_nat (stepIndex width (position this) d)) in *.
  assert (H1 : nth_error (snd (findNeighbors k width b)) j = nth_error b j).
  { unfold findNeighbors. apply callOn_other. exact Hne. }
  destruct (findNeighbors k width b) as [[[]|e] b1]; simpl in *; [|exact H1].
  rewrite <- H1. unfold findPossibleTiles. apply callOn_other. exact Hne.
Qed.

Lemma notifyNeighbors_frame (self : nat) (width : Z) (this : Tile) (j : nat)
    (ds : list Dir) :
  ~ (exists d, touches width this d self) ->
  (forall d, In d ds -> ~ touches width this d j) ->
  forall b, nth_error b self = Some this ->
    nth_error (snd (notifyNeighbors self width ds b)) j = nth_error b j /\
    nth_error (snd (notifyNeighbors self width ds b)) self = Some this.
Proof.
  intros Hself_free. induction ds as [|d rest IH]; intros Hfree b Hself; simpl.
  - split; [reflexivity | exact Hself].
  - pose proof (notifyDir_frame self width d b this j Hself
                  (Hfree d (or_introl eq_refl))) as Hj.
    assert (Hs : nth_error (snd (notifyDir self width d b)) self = Some this).
    { rewrite (notifyDir_frame self width d b this self Hself); [exact Hself|].
      intros H. apply Hself_free. exists d. exact H. }
    destruct (notifyDir self width d b) as [[[]|e] b1]; simpl in *.
    + destruct (IH (fun x Hx => Hfree x (or_intror Hx)) b1 Hs) as [H1 H2].
      split; [congruence | exact H2].
    + split; assumption.
Qed.





Lemma generateConnections_keeps (t : Tile) :
  let t' := snd (generateConnections t) in
  position t' = position t /\ collapsed t' = collapsed t /\
  facing t' = facing t /\ layout t' = layout t /\
  neighbors t' = neighbors t /\ possibleTiles t' = possibleTiles t.
Proof.
  apply (forDirs_keeps
           (fun a b => position b = position a /\ collapsed b = collapsed a /\
                       facing b = facing a /\ layout b = layout a /\
                       neighbors b = neighbors a /\
                       possibleTiles b = possibleTiles a)).
  - intros a. repeat split.
  - intros a b c (A1 & A2 & A3 & A4 & A5 & A6) (B1 & B2 & B3 & B4 & B5 & B6).
    repeat split; congruence.
  - intros d a. unfold generateConnectionsKey.
    destruct (connectionStr (facing a) (layout a) d); simpl; repeat split.
Qed.




(* ------------------------------------------------------------------ *)
(** ** The contradiction, from findPossibleTiles to the driver *)


(* ------------------------------------------------------------------ *)
(** ** A run of forty-one steps on a board of 7 by 6 tiles *)

(** A script for [Math.random]: the [k]-th call returns [fraction a m] for
    the [k]-th entry [(a, m)], the draw that gives index [a] of [a + m + 1]. *)
Definition scripted (script : list (nat * nat)) (k : nat) : Rand :=
  match nth_error script k with
  | Some (a, m) => fraction a m
  | None => fraction 0 0
  end.

Definition sixtyDraws : list (nat * nat) :=
  [
   (36, 5); (1, 3); (1, 0); (1, 0); (0, 0); (1, 0); (0, 0); (1, 0); (0, 0);
    (0, 1); (1, 0); (1, 0); (0, 0); (0, 2); (1, 0); (0, 0); (1, 2); (1, 0);
    (0, 0); (0, 0); (1, 2); (1, 0); (0, 0); (0, 0); (1, 2); (0, 1); (0, 0);
    (0, 2); (1, 0); (0, 1); (0, 1); (1, 0); (1, 0); (0, 0); (2, 1); (0, 1);
    (3, 0); (0, 1); (0, 4); (1, 0); (3, 1); (1, 0); (0, 4); (1, 0); (2, 2);
    (0, 1); (0, 1); (0, 0); (0, 1); (0, 0); (1, 0); (1, 0); (0, 1); (1, 2);
    (0, 2); (1, 0); (0, 0); (1, 0); (0, 2); (1, 1)
  ]%nat.

(** [n] steps succeed one after the other. *)
Fixpoint allSucceed (random : nat -> Rand) (width : Z) (n : nat) (w : World) : bool :=
  match n with
  | O => true
  | S n' =>
      fst (doCollapse random width w)
      && allSucceed random width n' (snd (doCollapse random width w))
  end.

Lemma stepMany_solving (random : nat -> Rand) (width height : Z) (n : nat) :
  forall w, solving random width height w ->
            allSucceed random width n w = true ->
            solving random width height (stepMany random width n w).
Proof.
  induction n as [|n IH]; intros w Hs Hall; simpl in *; [exact Hs|].
  apply andb_true_iff in Hall. destruct Hall as [Hok Hrest].
  apply IH; [|exact Hrest].
  apply (solving_step random width height w); [exact Hs|].
  destruct (doCollapse random width w) as [ok w']. simpl in *. congruence.
Qed.

(** The board after 33 steps that all succeeded, after the 34th step, which
    ends in a contradiction at the east neighbour of tile 30, and after seven
    more steps. *)
Definition beforeContradiction : World :=
  stepMany (scripted sixtyDraws) 7 33 (resetBoard 7 6 (mkWorld [] 0 0)).

Definition afterContradiction : World :=
  snd (doCollapse (scripted sixtyDraws) 7 beforeContradiction).

Definition steppedOn : World :=
  stepMany (scripted sixtyDraws) 7 7 afterContradiction.

Lemma beforeContradiction_solving :
  solving (scripted sixtyDraws) 7 6 beforeContradiction.
Proof.
  apply stepMany_solving; [apply solving_reset|]. vm_compute. reflexivity.
Qed.

Lemma steppedOn_stepped : stepped (scripted sixtyDraws) 7 6 steppedOn.
Proof.
  unfold steppedOn. apply stepMany_stepped.
  unfold afterContradiction.
  destruct (doCollapse (scripted sixtyDraws) 7 beforeContradiction) as [ok w'] eqn:Hstep.
  apply (stepped_step _ _ _ beforeContradiction w' ok); [|exact Hstep].
  unfold beforeContradiction. apply stepMany_stepped. apply stepped_reset.
Qed.

(** C1 as stated fails on the code: [doCollapse] can be called again after
    a contradiction, and then the tile south of tile 30, which the aborted
    cascade never told, collapses to a variant whose north connector is "000"
    under the south connector "010" of tile 30. *)
Lemma edge_matching_broken_by_stepping_on :
  stepped (scripted sixtyDraws) 7 6 steppedOn /\
  fst (doCollapse (scripted sixtyDraws) 7 beforeContradiction) = false /\
  ~ edgesMatch 7 (boardTiles steppedOn).
Proof.
  split; [exact steppedOn_stepped|]. split; [vm_compute; reflexivity|].
  intros Hmatch.
  destruct (Hmatch 30%nat south
              (nth 30 (boardTiles steppedOn) (newTile 0))
              (nth 37 (boardTiles steppedOn) (newTile 0)))
    as (s & s' & Hs & Hs' & Heq).
  - vm_compute. reflexivity.
  - vm_compute. reflexivity.
  - vm_compute. reflexivity.
  - vm_compute. reflexivity.
  - vm_compute in Hs, Hs'. injection Hs as <-. injection Hs' as <-.
    assert (Habs : "010" = "000") by (apply Heq; left; simpl; lia).
    discriminate Habs.
Qed.

Lemma edge_matching_until_contradiction_witness :
  edgesMatch 7 (boardTiles beforeContradiction) /\
  edgesMatch 7 (boardTiles afterContradiction).
Proof.
  assert (Hw : 0 < 7) by lia.
  destruct (edge_matching_until_contradiction (scripted sixtyDraws) 7 6
              beforeContradiction Hw beforeContradiction_solving) as [Hbefore Hafter].
  split; [exact Hbefore|].
  apply (Hafter false afterContradiction).
  vm_compute. reflexivity.
Defined.

(** The 34th step: [chooseNextTile] returns tile 30, whose only candidate is
    "south"; its north and west neighbours are collapsed, its east and south
    neighbours are not. *)
Definition contradictionChoice : World :=
  snd (chooseNextTile (scripted sixtyDraws) beforeContradiction).

Definition collapsingTile : Tile :=
  nth 30 (boardTiles contradictionChoice) (newTile 0).





(** The state that the 34th step leaves: tile 30 is collapsed to "south";
    tile 31 to its east is not collapsed and has no candidate; tile 37 to its
    south was never told, so it still sees tile 30 as not collapsed and keeps
    "north", whose north connector "010" fits, next to "south" and "west",
    whose north connector "000" does not. *)
Example cascade_stopped_at_east :
  option_map (fun t => (collapsed t, facing t, getConnector t south))
             (nth_error (boardTiles afterContradiction) 30)
    = Some (true, "south", Some "010") /\
  option_map (fun t => (collapsed t, possibleTiles t))
             (nth_error (boardTiles afterContradiction) 31)
    = Some (false, []) /\
  option_map (fun t => (collapsed t, getDir (neighbors t) north,
                        map fst (possibleTiles t)))
             (nth_error (boardTiles afterContradiction) 37)
    = Some (false, Some false, ["north"; "south"; "west"]).
Proof.
  repeat split; vm_compute; reflexivity.
Qed.

(* ------------------------------------------------------------------ *)
(** * Further properties of the tile methods and of the driver *)

(** ** What a call of [collapse] that returns [true] has done *)

Lemma collapse_true_anatomy (random : nat -> Rand) (self : nat) (width : Z)
    (w w' : World) :
  collapse random self width w = (Ret true, w') ->
  exists this generated,
    nth_error (boardTiles w) self = Some this /\
    possibleTiles this <> [] /\
    generateConnections
      (setChoice this
         (nth (randIndex (random (draws w)) (List.length (possibleTiles this)))
              (map fst (possibleTiles this)) "")) = (Ret tt, generated) /\
    notifyNeighbors self width dirs
      (setNth self (markCollapsed generated) (boardTiles w))
      = (Ret tt, boardTiles w') /\
    collapsedTiles w' = collapsedTiles w /\ draws w' = S (draws w).
Proof.
  unfold collapse. intros Hrun.
  destruct (nth_error (boardTiles w) self) as [this|] eqn:Hself; [|discriminate].
  rewrite length_map in Hrun.
  destruct (possibleTiles this) as [|x xs] eqn:Hps; [discriminate|].
  rewrite <- Hps in *.
  replace (List.length (possibleTiles this) =? 0)%nat with false in Hrun
    by (rewrite Hps; reflexivity).
  destruct (generateConnections _) as [[[]|e] generated] eqn:Hgen in Hrun;
    [|discriminate].
  destruct (notifyNeighbors self width dirs _) as [[[]|e] b'] eqn:Hnotify in Hrun;
    [|discriminate].
  injection Hrun as <-. exists this, generated.
  split; [reflexivity|]. split; [rewrite Hps; discriminate|].
  split; [exact Hgen|]. split; [exact Hnotify|]. split; reflexivity.
Qed.

Lemma generateConnections_stores (t t' : Tile) :
  generateConnections t = (Ret tt, t') ->
  forall key, connectionStr (facing t) (layout t) key = Ret (getConnector t' key).
Proof.
  unfold generateConnections, dirs. simpl forDirs.
  unfold generateConnectionsKey at 1.
  destruct (connectionStr (facing t) (layout t) north) as [sn|e] eqn:Hn;
    [|discriminate].
  unfold generateConnectionsKey at 1. cbn [facing layout setConnection].
  destruct (connectionStr (facing t) (layout t) east) as [se|e] eqn:He;
    [|discriminate].
  unfold generateConnectionsKey at 1. cbn [facing layout setConnection].
  destruct (connectionStr (facing t) (layout t) south) as [ss|e] eqn:Hs;
    [|discriminate].
  unfold generateConnectionsKey at 1. cbn [facing layout setConnection].
  destruct (connectionStr (facing t) (layout t) west) as [sw|e] eqn:Hw;
    [|discriminate].
  intros H. injection H as <-. intros []; simpl; assumption.
Qed.

Lemma nth_key_in (keys : list string) (k : nat) :
  (k < List.length keys)%nat -> In (nth k keys "") keys.
Proof. intros H. apply nth_In. exact H. Qed.

(** X1.  A [collapse] that returns [true] has committed the tile to one of
    the keys it had as candidates: the tile is collapsed, its layout is the
    catalogue entry of that key, its four connectors are the strings that
    [generateConnections] computes for that key, and its candidate object is
    empty.  One random number was drawn, the counter of collapsed tiles was
    left to the caller, and the board has the size it had. *)
Theorem collapse_commits_to_a_candidate (random : nat -> Rand) (self : nat)
    (width : Z) (w w' : World) :
  collapse random self width w = (Ret true, w') ->
  exists this this',
    nth_error (boardTiles w) self = Some this /\
    nth_error (boardTiles w') self = Some this' /\
    collapsed this' = true /\
    In (facing this') (map fst (possibleTiles this)) /\
    layout this' = lookup (facing this') layouts /\
    (forall key, connectionStr (facing this') (layout this') key
                 = Ret (getConnector this' key)) /\
    possibleTiles this' = [] /\
    position this' = position this /\
    List.length (boardTiles w') = List.length (boardTiles w) /\
    draws w' = S (draws w) /\ collapsedTiles w' = collapsedTiles w.
Proof.
  intros Hrun.
  destruct (collapse_true_anatomy random self width w w' Hrun)
    as (this & generated & Hself & Hne & Hgen & Hnotify & Hcount & Hdraws).
  set (choice := nth (randIndex (random (draws w)) (List.length (possibleTiles this)))
                     (map fst (possibleTiles this)) "") in *.
  pose proof (generateConnections_keeps (setChoice this choice)) as Hkeep.
  rewrite Hgen in Hkeep. cbn [snd setChoice position collapsed facing layout
                              neighbors possibleTiles] in Hkeep.
  destruct Hkeep as (Hp & _ & Hf & Hl & _ & _).
  pose proof (generateConnections_stores _ _ Hgen) as Hstore.
  cbn [setChoice facing layout] in Hstore.
  pose proof (notifyNeighbors_updated self width dirs
                (setNth self (markCollapsed generated) (boardTiles w))) as [Hlen Hup].
  rewrite Hnotify in Hlen, Hup. simpl snd in Hlen, Hup.
  assert (Hlt : (self < List.length (boardTiles w))%nat)
    by (eapply nth_error_in_range; eauto).
  destruct (Hup self (markCollapsed generated)) as (this' & Hself' & Hcore & Hfil).
  { apply nth_error_setNth_same. exact Hlt. }
  destruct Hcore as (Hp' & Hc' & Hf' & Hl' & Hk').
  cbn [markCollapsed position collapsed facing layout connections possibleTiles]
    in Hp', Hc', Hf', Hl', Hk', Hfil.
  exists this, this'. split; [exact Hself|]. split; [exact Hself'|].
  split; [exact Hc'|]. split.
  { rewrite Hf', Hf. apply nth_key_in. rewrite length_map.
    apply randIndex_lt. destruct (possibleTiles this); [congruence | simpl; lia]. }
  split; [rewrite Hl', Hf', Hl, Hf; reflexivity|]. split.
  { intros key. unfold getConnector. rewrite Hk', Hl', Hf', Hl, Hf.
    apply Hstore. }
  split; [apply filtered_nil; exact Hfil|].
  split; [congruence|]. split; [rewrite Hlen; apply setNth_length|].
  split; assumption.
Qed.

Lemma collapse_commits_witness :
  exists this this',
    nth_error (boardTiles (resetBoard 2 1 (mkWorld [] 0 0))) 0 = Some this /\
    nth_error (boardTiles twoTilesAfterEast) 0 = Some this' /\
    collapsed this' = true /\
    In (facing this') (map fst (possibleTiles this)) /\
    layout this' = lookup (facing this') layouts /\
    (forall key, connectionStr (facing this') (layout this') key
                 = Ret (getConnector this' key)) /\
    possibleTiles this' = [] /\
    position this' = position this /\
    List.length (boardTiles twoTilesAfterEast)
    = List.length (boardTiles (resetBoard 2 1 (mkWorld [] 0 0))) /\
    draws twoTilesAfterEast = S (draws (resetBoard 2 1 (mkWorld [] 0 0))) /\
    collapsedTiles twoTilesAfterEast
    = collapsedTiles (resetBoard 2 1 (mkWorld [] 0 0)).
Proof.
  apply (collapse_commits_to_a_candidate (fun _ => fraction 1 3) 0 2).
  vm_compute. reflexivity.
Defined.

(** ** What one call of [collapse] and one step can change *)

Lemma filtered_to_nil {A} (l : list A) : filtered l [].
Proof.
  exists (fun _ => false). induction l as [|h tl IH]; simpl; auto.
Qed.

(** Slot by slot, the board after [collapse], whatever it returned. *)
Lemma collapse_slotwise (random : nat -> Rand) (self : nat) (width : Z)
    (w w' : World) (r : Outcome bool) :
  collapse random self width w = (r, w') ->
  List.length (boardTiles w') = List.length (boardTiles w) /\
  forall j t, nth_error (boardTiles w) j = Some t ->
    exists t', nth_error (boardTiles w') j = Some t' /\
      position t' = position t /\
      filtered (possibleTiles t) (possibleTiles t') /\
      (j <> self -> sameCore t t') /\
      (collapsed t = true -> collapsed t' = true).
Proof.
  intros Hrun.
  assert (Hsame : forall b : list Tile,
            List.length b = List.length b /\
            forall j t, nth_error b j = Some t ->
              exists t', nth_error b j = Some t' /\
                position t' = position t /\
                filtered (possibleTiles t) (possibleTiles t') /\
                (j <> self -> sameCore t t') /\
                (collapsed t = true -> collapsed t' = true)).
  { intros b. split; [reflexivity|]. intros j t Hj. exists t.
    split; [exact Hj|]. split; [reflexivity|]. split; [apply filtered_refl|].
    split; [intros _; apply sameCore_refl | auto]. }
  unfold collapse in Hrun.
  destruct (nth_error (boardTiles w) self) as [this|] eqn:Hself.
  2:{ injection Hrun as _ <-. apply Hsame. }
  destruct (List.length (map fst (possibleTiles this)) =? 0)%nat.
  { injection Hrun as _ <-. apply Hsame. }
  set (choice := nth _ _ _) in Hrun.
  pose proof (generateConnections_keeps (setChoice this choice)) as Hkeep.
  assert (Hlt : (self < List.length (boardTiles w))%nat)
    by (eapply nth_error_in_range; eauto).
  destruct (generateConnections (setChoice this choice)) as [[[]|e] generated].
  - cbn [snd setChoice position collapsed possibleTiles] in Hkeep.
    destruct Hkeep as (Hp & _ & _ & _ & _ & _).
    pose proof (notifyNeighbors_updated self width dirs
                  (setNth self (markCollapsed generated) (boardTiles w)))
      as [Hlen Hup].
    assert (Hb : boardTiles w' =
                 snd (notifyNeighbors self width dirs
                        (setNth self (markCollapsed generated) (boardTiles w)))).
    { destruct (notifyNeighbors self width dirs _) as [[[]|e] b'];
        injection Hrun as _ <-; reflexivity. }
    rewrite Hb. split; [rewrite Hlen; apply setNth_length|].
    intros j t Hj. destruct (Nat.eq_dec self j) as [<-|Hne].
    + destruct (Hup self (markCollapsed generated)) as (t' & Hj' & Hcore & Hfil).
      { apply nth_error_setNth_same. exact Hlt. }
      assert (t = this) by congruence. subst t.
      destruct Hcore as (Hp' & Hc' & _).
      exists t'. split; [exact Hj'|].
      split; [cbn [markCollapsed position] in Hp'; congruence|].
      split; [apply filtered_nil in Hfil; rewrite Hfil; apply filtered_to_nil|].
      split; [congruence|]. intros _. exact Hc'.
    + destruct (Hup j t) as (t' & Hj' & Hcore & Hfil).
      { rewrite nth_error_setNth_other by exact Hne. exact Hj. }
      exists t'. split; [exact Hj'|]. destruct Hcore as (Hp' & Hc' & Hrest).
      split; [exact Hp'|]. split; [exact Hfil|].
      split; [intros _; repeat split; tauto | congruence].
  - cbn [snd setChoice position collapsed possibleTiles] in Hkeep.
    destruct Hkeep as (Hp & Hc & _ & _ & _ & Hps).
    injection Hrun as _ <-. cbn [boardTiles].
    split; [apply setNth_length|].
    intros j t Hj. destruct (Nat.eq_dec self j) as [<-|Hne].
    + assert (t = this) by congruence. subst t.
      exists generated. split; [apply nth_error_setNth_same; exact Hlt|].
      split; [exact Hp|]. split; [rewrite Hps; apply filtered_refl|].
      split; [congruence | congruence].
    + exists t. split; [rewrite nth_error_setNth_other by exact Hne; exact Hj|].
      split; [reflexivity|]. split; [apply filtered_refl|].
      split; [intros _; apply sameCore_refl | auto].
Qed.

(** The relation between a tile before and after steps of the driver. *)
Definition stepsOn (t t' : Tile) : Prop :=
  position t' = position t /\
  filtered (possibleTiles t) (possibleTiles t') /\
  (collapsed t = true -> sameCore t t').

Lemma stepsOn_refl (t : Tile) : stepsOn t t.
Proof.
  split; [reflexivity|]. split; [apply filtered_refl | intros _; apply sameCore_refl].
Qed.

Lemma stepsOn_trans (a b c : Tile) : stepsOn a b -> stepsOn b c -> stepsOn a c.
Proof.
  intros (P1 & F1 & C1) (P2 & F2 & C2).
  split; [congruence|]. split; [eapply filtered_trans; eauto|].
  intros Hc. specialize (C1 Hc).
  assert (Hcb : collapsed b = true) by (destruct C1 as (_ & H & _); congruence).
  eapply sameCore_trans; [exact C1 | exact (C2 Hcb)].
Qed.

Definition slotsArePositions (b : list Tile) : Prop :=
  forall j t, nth_error b j = Some t -> position t = Z.of_nat j.

(** One step, whatever it returns, slot by slot. *)
Lemma doCollapse_slotwise (random : nat -> Rand) (width : Z) (w w' : World)
    (ok : bool) :
  slotsArePositions (boardTiles w) ->
  doCollapse random width w = (ok, w') ->
  List.length (boardTiles w') = List.length (boardTiles w) /\
  forall j t, nth_error (boardTiles w) j = Some t ->
    exists t', nth_error (boardTiles w') j = Some t' /\ stepsOn t t'.
Proof.
  intros Hpos Hrun. unfold doCollapse, iterateLoop in Hrun.
  destruct (chooseNextTile random w) as [[i|] w1] eqn:Hchoose.
  2:{ destruct (chooseNextTile_pick random w) as (_ & Hb & _).
      rewrite Hchoose in Hb. simpl in Hb.
      injection Hrun as _ <-. rewrite Hb. split; [reflexivity|].
      intros j t Hj. exists t. split; [exact Hj | apply stepsOn_refl]. }
  destruct (chooseNextTile_returns random w w1 i Hchoose)
    as (Hb1 & this & Hself & Hc & _).
  destruct (collapse random i width w1) as [r w2] eqn:Hcollapse.
  destruct (collapse_slotwise random i width w1 w2 r Hcollapse) as [Hlen Hslots].
  rewrite Hb1 in Hlen, Hslots.
  assert (Hgeneral : List.length (boardTiles w2) = List.length (boardTiles w) /\
            forall j t, nth_error (boardTiles w) j = Some t ->
              exists t', nth_error (boardTiles w2) j = Some t' /\ stepsOn t t').
  { split; [exact Hlen|]. intros j t Hj.
    destruct (Hslots j t Hj) as (t' & Hj' & Hp & Hf & Hcore & _).
    exists t'. split; [exact Hj'|]. split; [exact Hp|]. split; [exact Hf|].
    intros Hct. apply Hcore. intros ->. congruence. }
  destruct r as [[|]|e].
  - destruct (nth_error (boardTiles w2) i) as [tile|] eqn:Htile.
    + injection Hrun as _ <-. cbn [boardTiles].
      assert (Hstore : storeAt (position tile) tile (boardTiles w2) = boardTiles w2).
      { destruct (Hslots i this Hself) as (t' & Hi' & Hp & _).
        assert (t' = tile) by congruence. subst t'.
        unfold storeAt. rewrite Hp, (Hpos i this Hself), Nat2Z.id.
        destruct ((0 <=? Z.of_nat i)
                  && (Z.of_nat i <? Z.of_nat (List.length (boardTiles w2))));
          [apply setNth_unchanged; exact Htile | reflexivity]. }
      rewrite Hstore. exact Hgeneral.
    + injection Hrun as _ <-. exact Hgeneral.
  - injection Hrun as _ <-. exact Hgeneral.
  - injection Hrun as _ <-. exact Hgeneral.
Qed.

Lemma stepMany_slotwise (random : nat -> Rand) (width : Z) (n : nat) :
  forall w, slotsArePositions (boardTiles w) ->
    slotsArePositions (boardTiles (stepMany random width n w)) /\
    List.length (boardTiles (stepMany random width n w))
    = List.length (boardTiles w) /\
    forall j t, nth_error (boardTiles w) j = Some t ->
      exists t', nth_error (boardTiles (stepMany random width n w)) j = Some t' /\
                 stepsOn t t'.
Proof.
  induction n as [|n IH]; intros w Hpos; simpl.
  - split; [exact Hpos|]. split; [reflexivity|].
    intros j t Hj. exists t. split; [exact Hj | apply stepsOn_refl].
  - destruct (doCollapse random width w) as [ok w1] eqn:Hstep. simpl snd.
    destruct (doCollapse_slotwise random width w w1 ok Hpos Hstep) as [Hlen1 Hs1].
    assert (Hpos1 : slotsArePositions (boardTiles w1)).
    { intros j t1 Hj1.
      destruct (nth_error (boardTiles w) j) as [t|] eqn:Hj.
      - destruct (Hs1 j t Hj) as (t' & Hj' & Hp & _).
        assert (t' = t1) by congruence. subst t'. rewrite Hp. apply (Hpos j t Hj).
      - apply nth_error_None in Hj. apply nth_error_in_range in Hj1. lia. }
    destruct (IH w1 Hpos1) as (Hposn & Hlenn & Hsn).
    split; [exact Hposn|]. split; [congruence|].
    intros j t Hj. destruct (Hs1 j t Hj) as (t1 & Hj1 & S1).
    destruct (Hsn j t1 Hj1) as (t' & Hj' & S2).
    exists t'. split; [exact Hj' | eapply stepsOn_trans; eauto].
Qed.

Lemma stepped_slotsArePositions (random : nat -> Rand) (width height : Z) (w : World) :
  stepped random width height w -> slotsArePositions (boardTiles w).
Proof.
  intros Hs. induction Hs as [w|w w' ok Hs IH Hstep].
  - intros j t Hj. exact (good_position width _ (proj1 (resetBoard_stable width height w)) j t Hj).
  - destruct (doCollapse_slotwise random width w w' ok IH Hstep) as [Hlen Hslots].
    intros j t' Hj'.
    destruct (nth_error (boardTiles w) j) as [t|] eqn:Hj.
    + destruct (Hslots j t Hj) as (t2 & Hj2 & Hp & _).
      assert (t2 = t') by congruence. subst t2. rewrite Hp. apply (IH j t Hj).
    + apply nth_error_None in Hj. apply nth_error_in_range in Hj'. lia.
Qed.

Lemma afterContradiction_stepped :
  stepped (scripted sixtyDraws) 7 6 afterContradiction.
Proof.
  unfold afterContradiction.
  destruct (doCollapse (scripted sixtyDraws) 7 beforeContradiction) as [ok w'] eqn:Hstep.
  apply (stepped_step _ _ _ beforeContradiction w' ok); [|exact Hstep].
  unfold beforeContradiction. apply stepMany_stepped. apply stepped_reset.
Qed.

(** X2.  Candidates are only ever deleted.  On a board whose tiles sit in
    the slot of their position, after any number of calls of [doCollapse],
    successful or not, every candidate of every tile was a candidate of that
    tile before, so no tile's entropy has grown; no tile has moved and the
    board has kept its size. *)
Theorem candidates_only_shrink (random : nat -> Rand) (width : Z) (n : nat)
    (w : World) :
  slotsArePositions (boardTiles w) ->
  List.length (boardTiles (stepMany random width n w)) = List.length (boardTiles w) /\
  forall j t, nth_error (boardTiles w) j = Some t ->
    exists t',
      nth_error (boardTiles (stepMany random width n w)) j = Some t' /\
      position t' = position t /\
      (forall name l, In (name, l) (possibleTiles t') -> In (name, l) (possibleTiles t)) /\
      (getEntropy t' <= getEntropy t)%nat.
Proof.
  intros Hpos.
  destruct (stepMany_slotwise random width n w Hpos) as (_ & Hlen & Hslots).
  split; [exact Hlen|]. intros j t Hj.
  destruct (Hslots j t Hj) as (t' & Hj' & Hp & Hf & _).
  exists t'. split; [exact Hj'|]. split; [exact Hp|]. split.
  - intros name l Hin. apply (filtered_incl _ _ Hf). exact Hin.
  - rewrite !getEntropy_length. apply filtered_length. exact Hf.
Qed.

Lemma candidates_only_shrink_witness :
  exists t',
    nth_error (boardTiles (stepMany (scripted sixtyDraws) 7 7 afterContradiction)) 37
      = Some t' /\
    position t' = position (nth 37 (boardTiles afterContradiction) (newTile 0)) /\
    (forall name l, In (name, l) (possibleTiles t') ->
       In (name, l) (possibleTiles (nth 37 (boardTiles afterContradiction) (newTile 0)))) /\
    (getEntropy t' <= getEntropy (nth 37 (boardTiles afterContradiction) (newTile 0)))%nat.
Proof.
  destruct (candidates_only_shrink (scripted sixtyDraws) 7 7 afterContradiction
              (stepped_slotsArePositions _ _ _ _ afterContradiction_stepped))
    as [_ Hslots].
  apply Hslots. vm_compute. reflexivity.
Defined.

(** X3.  A collapsed tile is never written again.  On a board whose tiles
    sit in the slot of their position, after any number of calls of
    [doCollapse], successful or not, a tile that was collapsed is collapsed
    with the same choice, the same layout and the same four connectors. *)
Theorem collapsed_tile_is_final (random : nat -> Rand) (width : Z) (n : nat)
    (w : World) (j : nat) (t : Tile) :
  slotsArePositions (boardTiles w) ->
  nth_error (boardTiles w) j = Some t ->
  collapsed t = true ->
  exists t',
    nth_error (boardTiles (stepMany random width n w)) j = Some t' /\
    collapsed t' = true /\ facing t' = facing t /\ layout t' = layout t /\
    connections t' = connections t /\
    forall d, getConnector t' d = getConnector t d.
Proof.
  intros Hpos Hj Hc.
  destruct (stepMany_slotwise random width n w Hpos) as (_ & _ & Hslots).
  destruct (Hslots j t Hj) as (t' & Hj' & _ & _ & Hcore).
  destruct (Hcore Hc) as (_ & Hc' & Hf & Hl & Hk).
  exists t'. split; [exact Hj'|]. split; [congruence|].
  split; [exact Hf|]. split; [exact Hl|]. split; [exact Hk|].
  intros d. unfold getConnector. rewrite Hk. reflexivity.
Qed.

Lemma collapsed_tile_is_final_witness :
  exists t',
    nth_error (boardTiles (stepMany (scripted sixtyDraws) 7 7 afterContradiction)) 30
      = Some t' /\
    collapsed t' = true /\
    facing t' = facing (nth 30 (boardTiles afterContradiction) (newTile 0)) /\
    layout t' = layout (nth 30 (boardTiles afterContradiction) (newTile 0)) /\
    connections t' = connections (nth 30 (boardTiles afterContradiction) (newTile 0)) /\
    forall d, getConnector t' d
              = getConnector (nth 30 (boardTiles afterContradiction) (newTile 0)) d.
Proof.
  apply (collapsed_tile_is_final (scripted sixtyDraws) 7 7 afterContradiction 30).
  - exact (stepped_slotsArePositions _ _ _ _ afterContradiction_stepped).
  - vm_compute. reflexivity.
  - vm_compute. reflexivity.
Defined.

(** X4.  The cascade of [collapse] goes one tile far.  On a board of
    positive width, a call of [collapse] on the tile in slot [self], whatever
    it returns, leaves every other tile as it was, except the tiles one step
    away in a direction whose status in the collapsing tile was "not
    collapsed": tiles further away, and neighbours seen as collapsed or out of
    bounds, are not read for writing at all. *)
Theorem collapse_tells_only_adjacent_tiles (random : nat -> Rand) (self : nat)
    (width : Z) (w w' : World) (r : Outcome bool) (this : Tile) :
  0 < width ->
  nth_error (boardTiles w) self = Some this ->
  position this = Z.of_nat self ->
  collapse random self width w = (r, w') ->
  forall j, j <> self ->
    (forall d, getDir (neighbors this) d = Some false ->
               Z.of_nat j <> stepIndex width (Z.of_nat self) d) ->
    nth_error (boardTiles w') j = nth_error (boardTiles w) j.
Proof.
  intros Hw Hself Hpos Hrun j Hj Hfar.
  unfold collapse in Hrun. rewrite Hself in Hrun.
  destruct (List.length (map fst (possibleTiles this)) =? 0)%nat.
  { injection Hrun as _ <-. reflexivity. }
  set (choice := nth _ _ _) in Hrun.
  pose proof (generateConnections_keeps (setChoice this choice)) as Hkeep.
  destruct (generateConnections (setChoice this choice)) as [[[]|e] generated].
  2:{ injection Hrun as _ <-. cbn [boardTiles].
      apply nth_error_setNth_other. congruence. }
  cbn [snd setChoice position neighbors] in Hkeep.
  destruct Hkeep as (Hp & _ & _ & _ & Hnb & _).
  set (T := markCollapsed generated) in *.
  assert (HTpos : position T = Z.of_nat self).
  { unfold T. cbn [markCollapsed position]. congruence. }
  assert (HTnb : neighbors T = neighbors this).
  { unfold T. cbn [markCollapsed neighbors]. exact Hnb. }
  assert (Hlt : (self < List.length (boardTiles w))%nat)
    by (eapply nth_error_in_range; eauto).
  assert (Hself_free : ~ (exists d, touches width T d self)).
  { intros (d & _ & Hd). rewrite HTpos in Hd. destruct d; simpl in Hd; lia. }
  assert (Hj_free : forall d, In d dirs -> ~ touches width T d j).
  { intros d _ [Hs Hd]. rewrite HTpos in Hd. rewrite HTnb in Hs.
    exact (Hfar d Hs Hd). }
  destruct (notifyNeighbors_frame self width T j dirs Hself_free Hj_free
              (setNth self T (boardTiles w))
              (nth_error_setNth_same self T (boardTiles w) Hlt)) as [Hframe _].
  assert (Hb : boardTiles w' =
               snd (notifyNeighbors self width dirs (setNth self T (boardTiles w)))).
  { destruct (notifyNeighbors self width dirs _) as [[[]|e] b'];
      injection Hrun as _ <-; reflexivity. }
  rewrite Hb, Hframe. apply nth_error_setNth_other. congruence.
Qed.

Lemma collapse_tells_only_adjacent_tiles_witness :
  nth_error (boardTiles afterContradiction) 38
  = nth_error (boardTiles contradictionChoice) 38.
Proof.
  apply (collapse_tells_only_adjacent_tiles (scripted sixtyDraws) 30 7
           contradictionChoice afterContradiction (Throw NoTilesPossible)
           collapsingTile).
  - lia.
  - vm_compute. reflexivity.
  - vm_compute. reflexivity.
  - vm_compute. reflexivity.
  - lia.
  - intros d _. destruct d; vm_compute; intros Heq; discriminate Heq.
Defined.

(** ** [chooseNextTile] on any board *)

(** A tile that can still be collapsed: not collapsed and with a candidate. *)
Definition collapsible (t : Tile) : Prop :=
  collapsed t = false /\ possibleTiles t <> [].

Lemma nonzero_entropies (board : list Tile) (v : nat) :
  In v (filter (fun item => negb (item =? 0)%nat) (entropyArray board)) <->
  exists t, In t board /\ collapsible t /\ getEntropy t = v.
Proof.
  rewrite filter_In. unfold entropyArray, isCollapsed. rewrite in_map_iff. split.
  - intros [(t & Hv & Hin) Hz]. exists t. split; [exact Hin|].
    destruct (collapsed t) eqn:Hc; [subst v; discriminate|].
    split; [|exact Hv]. split; [exact Hc|].
    intros Hnil. rewrite getEntropy_length, Hnil in Hv. subst v. discriminate.
  - intros (t & Hin & [Hc Hne] & Hv). split.
    + exists t. rewrite Hc. auto.
    + subst v. rewrite getEntropy_length.
      destruct (possibleTiles t); [congruence | reflexivity].
Qed.

Lemma entropicTiles_general (board : list Tile) (i : nat) :
  In i (entropicTiles board) <->
  exists t, nth_error board i = Some t /\ collapsible t /\
    forall j t', nth_error board j = Some t' -> collapsible t' ->
                 (getEntropy t <= getEntropy t')%nat.
Proof.
  unfold entropicTiles. rewrite flagged_spec.
  set (nonzero := filter (fun item => negb (item =? 0)%nat) (entropyArray board)).
  pose proof (jsMin_spec nonzero) as Hmin.
  split.
  - intros (k & v & Hi & Hk & Hm). simpl in Hi. subst k.
    rewrite Hm in Hmin. destruct Hmin as [Hin Hle].
    rewrite entropyArray_nth in Hk.
    destruct (nth_error board i) as [t|] eqn:Ht; [|discriminate].
    simpl in Hk. injection Hk as Hv.
    apply nonzero_entropies in Hin. destruct Hin as (t0 & Hin0 & [Hc0 Hne0] & Hv0).
    assert (Hpos : (0 < v)%nat).
    { rewrite <- Hv0, getEntropy_length.
      destruct (possibleTiles t0); [congruence | simpl; lia]. }
    exists t. split; [reflexivity|].
    destruct (collapsed t) eqn:Hc; [lia|].
    assert (Hopen : collapsible t).
    { split; [exact Hc|]. intros Hnil.
      rewrite getEntropy_length, Hnil in Hv. simpl in Hv. lia. }
    split; [exact Hopen|].
    intros j t' Hj Ho'. rewrite Hv. apply Hle. apply nonzero_entropies.
    exists t'. split; [eapply nth_error_In; eauto | auto].
  - intros (t & Ht & [Hc Hne] & Hle).
    exists i, (getEntropy t). split; [reflexivity|].
    split; [rewrite entropyArray_nth, Ht; simpl; rewrite Hc; reflexivity|].
    assert (Hin : In (getEntropy t) nonzero).
    { apply nonzero_entropies. exists t.
      split; [eapply nth_error_In; eauto | split; [split; assumption | reflexivity]]. }
    destruct (jsMin nonzero) as [m|]; [|rewrite Hmin in Hin; contradiction].
    destruct Hmin as [Hm Hmle]. f_equal.
    apply nonzero_entropies in Hm. destruct Hm as (t0 & Hin0 & Ho0 & Hv0).
    apply In_nth_error in Hin0. destruct Hin0 as [j Hj].
    specialize (Hle j t0 Hj Ho0). specialize (Hmle _ Hin). lia.
Qed.

Lemma entropicTiles_empty (board : list Tile) :
  entropicTiles board = [] <-> forall t, In t board -> ~ collapsible t.
Proof.
  split.
  - intros Hnil t Hin Hopen.
    set (nonzero := filter (fun item => negb (item =? 0)%nat) (entropyArray board)).
    assert (Hv : In (getEntropy t) nonzero).
    { apply nonzero_entropies. exists t. auto. }
    pose proof (jsMin_spec nonzero) as Hmin.
    destruct (jsMin nonzero) as [m|] eqn:Hm; [|rewrite Hmin in Hv; contradiction].
    destruct Hmin as [Hmin Hle].
    apply nonzero_entropies in Hmin. destruct Hmin as (t0 & Hin0 & Ho0 & Hv0).
    apply In_nth_error in Hin0. destruct Hin0 as [i Hi].
    assert (Htied : In i (entropicTiles board)).
    { apply entropicTiles_general. exists t0. split; [exact Hi|]. split; [exact Ho0|].
      intros j t' Hj Ho'. rewrite Hv0. apply Hle. apply nonzero_entropies.
      exists t'. split; [eapply nth_error_In; eauto | auto]. }
    rewrite Hnil in Htied. contradiction.
  - intros Hnone. destruct (entropicTiles board) as [|i rest] eqn:Htied; [reflexivity|].
    assert (Hin : In i (entropicTiles board)) by (rewrite Htied; left; reflexivity).
    apply entropicTiles_general in Hin. destruct Hin as (t & Ht & Ho & _).
    exfalso. apply (Hnone t); [eapply nth_error_In; eauto | exact Ho].
Qed.

(** X5.  [chooseNextTile] on any board.  It returns [undefined] exactly when
    no tile is collapsible (every tile is collapsed or has no candidate left); a tile
    that is not collapsed and has no candidate is skipped, not returned.  What
    it returns otherwise is an collapsible tile whose entropy is least among the collapsible
    tiles.  It never writes to the board or to the counter, and it draws a
    random number unless exactly one tile is tied. *)
Theorem chooseNextTile_returns_least_open_tile (random : nat -> Rand) (w : World) :
  (fst (chooseNextTile random w) = None <->
   forall t, In t (boardTiles w) -> collapsed t = true \/ possibleTiles t = []) /\
  (forall i, fst (chooseNextTile random w) = Some i ->
     exists t, nth_error (boardTiles w) i = Some t /\
       collapsed t = false /\ possibleTiles t <> [] /\
       forall j t', nth_error (boardTiles w) j = Some t' ->
         collapsed t' = false -> possibleTiles t' <> [] ->
         (getEntropy t <= getEntropy t')%nat) /\
  boardTiles (snd (chooseNextTile random w)) = boardTiles w /\
  collapsedTiles (snd (chooseNextTile random w)) = collapsedTiles w /\
  draws (snd (chooseNextTile random w)) =
    (if (List.length (entropicTiles (boardTiles w)) =? 1)%nat
     then draws w else S (draws w)).
Proof.
  destruct (chooseNextTile_pick random w) as (Hpick & Hboard & Hcount).
  split; [|split; [|split; [exact Hboard|split; [exact Hcount|]]]].
  - rewrite Hpick. split.
    + intros Hnone t Hin.
      destruct (entropicTiles (boardTiles w)) as [|i rest] eqn:Htied.
      * pose proof (proj1 (entropicTiles_empty (boardTiles w)) Htied t Hin) as Hno.
        destruct (collapsed t) eqn:Hc; [left; reflexivity|]. right.
        destruct (possibleTiles t) eqn:Hps; [reflexivity|].
        exfalso. apply Hno. split; [exact Hc | rewrite Hps; discriminate].
      * apply nth_error_None in Hnone.
        pose proof (randIndex_lt (random (draws w)) (List.length (i :: rest))
                      ltac:(simpl; lia)). lia.
    + intros Hall.
      assert (Htied : entropicTiles (boardTiles w) = []).
      { apply entropicTiles_empty. intros t Hin [Hc Hne].
        destruct (Hall t Hin); congruence. }
      rewrite Htied. apply nth_error_None. simpl. lia.
  - intros i Hi. rewrite Hpick in Hi. apply nth_error_In in Hi.
    apply entropicTiles_general in Hi. destruct Hi as (t & Ht & [Hc Hne] & Hle).
    exists t. split; [exact Ht|]. split; [exact Hc|]. split; [exact Hne|].
    intros j t' Hj Hc' Hne'. apply (Hle j t' Hj). split; assumption.
  - unfold chooseNextTile.
    destruct (entropicTiles (boardTiles w)) as [|only [|second rest]]; reflexivity.
Qed.

(** ** The fresh board as a grid *)

(** Whether the tile in row [row], column [col] of a [width] by [height]
    board lies on the border in direction [d]. *)
Definition onBorder (width height row col : Z) (d : Dir) : bool :=
  match d with
  | north => row =? 0
  | east => col =? width - 1
  | south => row =? height - 1
  | west => col =? 0
  end.

Lemma rem_row_col (width row c : Z) :
  0 < width -> 0 <= row -> 0 <= c < width ->
  Z.rem (row * width + c) width = c.
Proof.
  intros Hw Hrow Hc.
  rewrite Z.rem_mod_nonneg by nia.
  rewrite Z.add_comm, Z_mod_plus_full. apply Z.mod_small. exact Hc.
Qed.

Lemma neighborIndex_grid (width height row col : Z) (d : Dir) :
  0 < width -> 0 <= row < height -> 0 <= col < width ->
  (0 <=? neighborIndex width (row * width + col) d)
  && (neighborIndex width (row * width + col) d <? height * width)
  = negb (onBorder width height row col d).
Proof.
  intros Hw Hrow Hcol.
  assert (Hne : (width =? 0) = false) by (apply Z.eqb_neq; lia).
  destruct d; unfold neighborIndex, onBorder, jsMod, jsNe; try rewrite Hne.
  - destruct (Z.eqb_spec row 0) as [H0|H0]; simpl.
    + apply andb_false_iff. left. apply Z.leb_gt. nia.
    + apply andb_true_iff. split; [apply Z.leb_le | apply Z.ltb_lt]; nia.
  - destruct (Z.eqb_spec col (width - 1)) as [Hlast|Hlast]; simpl.
    + replace (row * width + col + 1) with ((row + 1) * width + 0) by nia.
      rewrite rem_row_col by lia. reflexivity.
    + replace (row * width + col + 1) with (row * width + (col + 1)) by lia.
      rewrite rem_row_col by lia.
      destruct (Z.eqb_spec (col + 1) 0); [lia|]. simpl.
      apply andb_true_iff. split; [apply Z.leb_le | apply Z.ltb_lt]; nia.
  - destruct (Z.eqb_spec row (height - 1)) as [Hlast|Hlast]; simpl.
    + apply andb_false_iff. right. apply Z.ltb_ge. nia.
    + apply andb_true_iff. split; [apply Z.leb_le | apply Z.ltb_lt]; nia.
  - destruct (Z.eqb_spec col 0) as [Hfirst|Hfirst]; simpl.
    + destruct (negb (Z.rem (row * width + col - 1) width =? width - 1)) eqn:Hguard;
        [|reflexivity].
      apply andb_false_iff. left. apply Z.leb_gt.
      destruct (Z.eq_dec row 0) as [Hr|Hr]; [subst; lia|].
      exfalso. apply negb_true_iff, Z.eqb_neq in Hguard. apply Hguard.
      replace (row * width + col - 1) with ((row - 1) * width + (width - 1)) by nia.
      apply rem_row_col; lia.
    + replace (row * width + col - 1) with (row * width + (col - 1)) by lia.
      rewrite rem_row_col by lia.
      destruct (Z.eqb_spec (col - 1) (width - 1)); [lia|]. simpl.
      apply andb_true_iff. split; [apply Z.leb_le | apply Z.ltb_lt]; nia.
Qed.

Lemma resetBoard_fresh_core (width height : Z) (w : World) (j : nat) (t : Tile) :
  nth_error (boardTiles (resetBoard width height w)) j = Some t ->
  sameCore (newTile (Z.of_nat j)) t.
Proof.
  intros Ht. unfold resetBoard in Ht. cbn [boardTiles] in Ht.
  fold (freshBoard (Z.to_nat (height * width))) in Ht.
  set (size := Z.to_nat (height * width)) in *.
  destruct (findNeighborsFrom_spec width size 0 (freshBoard size)) as [L H].
  { rewrite freshBoard_length. lia. }
  assert (Hj : (j < size)%nat).
  { rewrite <- (freshBoard_length size), <- L. apply nth_error_Some. congruence. }
  destruct (H j _ (freshBoard_nth size j Hj)) as (t' & Hn & Hc & _).
  rewrite Ht in Hn. injection Hn as <-. exact Hc.
Qed.

(** X6.  [resetBoard] lays out a [width] by [height] grid in row-major order
    ([width] positive): the tile of row [row] and column [col] sits in slot
    [row * width + col] and has that position; it is not collapsed, shows the
    blank layout, has no connector yet and the whole catalogue as candidates
    (entropy five); and its status in a direction is [null] exactly when the
    tile lies on the border in that direction, [false] otherwise.  The board
    has [height * width] tiles and the counter of collapsed tiles is zero. *)
Theorem resetBoard_lays_out_grid (width height : Z) (w : World) (row col : Z) :
  0 < width -> 0 <= row < height -> 0 <= col < width ->
  List.length (boardTiles (resetBoard width height w)) = Z.to_nat (height * width) /\
  collapsedTiles (resetBoard width height w) = 0 /\
  exists t,
    nth_error (boardTiles (resetBoard width height w))
              (Z.to_nat (row * width + col)) = Some t /\
    position t = row * width + col /\
    isCollapsed t = false /\
    getLayout t = Some ["000"; "000"; "000"] /\
    (forall d, getConnector t d = None) /\
    possibleTiles t = layouts /\
    getEntropy t = 5%nat /\
    forall d, getDir (neighbors t) d =
              if onBorder width height row col d then None else Some false.
Proof.
  intros Hw Hrow Hcol.
  split; [apply resetBoard_length|]. split; [reflexivity|].
  assert (Hp : 0 <= row * width + col < height * width) by nia.
  destruct (resetBoard_tile width height w (Z.to_nat (row * width + col)))
    as (t & Ht & Hpos & Hc & Hcand & Hstatus); [lia|].
  rewrite Z2Nat.id in Hpos, Hstatus by lia.
  destruct (resetBoard_fresh_core width height w _ t Ht)
    as (_ & _ & _ & Hlayout & Hconn).
  exists t. split; [exact Ht|]. split; [exact Hpos|]. split; [exact Hc|].
  split; [unfold getLayout; rewrite Hlayout; reflexivity|].
  split; [intros d; unfold getConnector; rewrite Hconn; destruct d; reflexivity|].
  split; [exact Hcand|].
  split; [rewrite getEntropy_length, Hcand; reflexivity|].
  intros d. rewrite Hstatus, Z2Nat.id by lia.
  rewrite neighborIndex_grid by assumption.
  destruct (onBorder width height row col d); reflexivity.
Qed.

Lemma resetBoard_lays_out_grid_witness :
  exists t,
    nth_error (boardTiles (resetBoard 7 6 (mkWorld [] 0 0))) 41 = Some t /\
    getDir (neighbors t) north = Some false /\
    getDir (neighbors t) east = None /\
    getDir (neighbors t) south = None /\
    getDir (neighbors t) west = Some false.
Proof.
  destruct (resetBoard_lays_out_grid 7 6 (mkWorld [] 0 0) 5 6
              ltac:(lia) ltac:(lia) ltac:(lia))
    as (_ & _ & t & Ht & _ & _ & _ & _ & _ & _ & Hstatus).
  exists t. split; [exact Ht|].
  split; [exact (Hstatus north)|]. split; [exact (Hstatus east)|].
  split; [exact (Hstatus south) | exact (Hstatus west)].
Defined.

(** ** Candidates and the collapsed flag *)

(** A collapsed tile has no candidate left, a tile that is not collapsed has
    at least one. *)
Definition settledTile (t : Tile) : Prop :=
  if collapsed t then possibleTiles t = [] else possibleTiles t <> [].

Definition settled (b : list Tile) : Prop :=
  forall j t, nth_error b j = Some t -> settledTile t.

Lemma settled_setNth (b : list Tile) (i : nat) (x : Tile) :
  settled b -> settledTile x -> settled (setNth i x b).
Proof.
  intros Hb Hx j t Hj.
  destruct (Nat.eq_dec i j) as [->|Hne].
  - assert (Hlt : (j < List.length b)%nat).
    { rewrite <- (setNth_length j x b). eapply nth_error_in_range; eauto. }
    rewrite nth_error_setNth_same in Hj by exact Hlt. injection Hj as <-. exact Hx.
  - rewrite nth_error_setNth_other in Hj by exact Hne. apply (Hb j t Hj).
Qed.

Lemma callOn_settled (self : nat) (method : list Tile -> TileOp)
    (b b' : list Tile) :
  (forall t t', method b t = (Ret tt, t') -> settledTile t -> settledTile t') ->
  settled b -> callOn self method b = (Ret tt, b') -> settled b'.
Proof.
  intros Hm Hb Hrun. unfold callOn in Hrun.
  destruct (nth_error b self) as [this|] eqn:Hself; [|discriminate].
  destruct (method b this) as [[[]|e] this'] eqn:Hcall; [|discriminate].
  injection Hrun as <-. apply settled_setNth; [exact Hb|].
  apply (Hm this this' Hcall). apply (Hb self this Hself).
Qed.

Lemma findNeighborsBody_settled (width : Z) (b : list Tile) (t t' : Tile) :
  findNeighborsBody width b t = (Ret tt, t') -> settledTile t -> settledTile t'.
Proof.
  intros Hrun Ht.
  destruct (findNeighborsBody_sameCore b width t) as [(_ & Hc & _) Hp].
  rewrite Hrun in Hc, Hp. simpl snd in Hc, Hp.
  unfold settledTile in *. rewrite Hc, Hp. exact Ht.
Qed.

Lemma findPossibleTilesBody_settled (width : Z) (b : list Tile) (t t' : Tile) :
  findPossibleTilesBody width b t = (Ret tt, t') -> settledTile t -> settledTile t'.
Proof.
  intros Hrun Ht.
  destruct (findPossibleTilesBody_updated b width t) as [[(_ & Hc & _) Hf] _].
  rewrite Hrun in Hc, Hf. simpl snd in Hc, Hf.
  unfold settledTile in *. rewrite Hc.
  destruct (collapsed t) eqn:Hct.
  - rewrite Ht in Hf. apply filtered_nil in Hf. exact Hf.
  - unfold findPossibleTilesBody in Hrun.
    destruct (forDirs (findPossibleTilesDir b width) dirs t) as [[[]|e] t1];
      [|discriminate].
    unfold isCollapsed in Hrun. rewrite length_map in Hrun.
    destruct (negb (collapsed t1) && (List.length (possibleTiles t1) =? 0)%nat)
      eqn:Hguard; [discriminate|].
    injection Hrun as ->. rewrite Hc in Hguard. simpl in Hguard.
    destruct (possibleTiles t'); [discriminate Hguard | discriminate].
Qed.

Lemma notifyDir_settled (self : nat) (width : Z) (d : Dir) (b b' : list Tile) :
  settled b -> notifyDir self width d b = (Ret tt, b') -> settled b'.
Proof.
  intros Hb Hrun. unfold notifyDir in Hrun.
  destruct (nth_error b self) as [this|]; [|discriminate].
  destruct (getDir (neighbors this) d) as [[|]|];
    try (injection Hrun as <-; exact Hb).
  destruct ((0 <=? stepIndex width (position this) d)
            && (stepIndex width (position this) d <? Z.of_nat (List.length b)));
    [|discriminate].
  destruct (findNeighbors (Z.to_nat (stepIndex width (position this) d)) width b)
    as [[[]|e] b1] eqn:Hfind; [|discriminate].
  assert (Hb1 : settled b1).
  { unfold findNeighbors in Hfind.
    eapply callOn_settled; [|exact Hb|exact Hfind].
    intros t t'. apply findNeighborsBody_settled. }
  unfold findPossibleTiles in Hrun.
  eapply callOn_settled; [|exact Hb1|exact Hrun].
  intros t t'. apply findPossibleTilesBody_settled.
Qed.

Lemma notifyNeighbors_settled (self : nat) (width : Z) (ds : list Dir) :
  forall b b', settled b -> notifyNeighbors self width ds b = (Ret tt, b') ->
               settled b'.
Proof.
  induction ds as [|d rest IH]; intros b b' Hb Hrun; simpl in Hrun.
  - injection Hrun as <-. exact Hb.
  - destruct (notifyDir self width d b) as [[[]|e] b1] eqn:Hd; [|discriminate].
    apply (IH b1 b'); [|exact Hrun]. eapply notifyDir_settled; eauto.
Qed.

Lemma collapse_settled (random : nat -> Rand) (self : nat) (width : Z)
    (w w' : World) :
  settled (boardTiles w) -> collapse random self width w = (Ret true, w') ->
  settled (boardTiles w').
Proof.
  intros Hb Hrun.
  destruct (collapse_true_anatomy random self width w w' Hrun)
    as (this & generated & _ & _ & _ & Hnotify & _).
  eapply notifyNeighbors_settled; [|exact Hnotify].
  apply settled_setNth; [exact Hb | reflexivity].
Qed.

Lemma doCollapse_settled (random : nat -> Rand) (width : Z) (w w' : World) :
  settled (boardTiles w) -> doCollapse random width w = (true, w') ->
  settled (boardTiles w').
Proof.
  intros Hb Hrun. unfold doCollapse, iterateLoop in Hrun.
  destruct (chooseNextTile random w) as [[i|] w1] eqn:Hchoose; [|discriminate].
  destruct (chooseNextTile_pick random w) as (_ & Hb1 & _).
  rewrite Hchoose in Hb1. simpl in Hb1.
  destruct (collapse random i width w1) as [[[|]|e] w2] eqn:Hcollapse;
    try discriminate.
  assert (Hb2 : settled (boardTiles w2)).
  { eapply collapse_settled; [|exact Hcollapse]. rewrite Hb1. exact Hb. }
  destruct (nth_error (boardTiles w2) i) as [tile|] eqn:Htile; [|discriminate].
  injection Hrun as <-. cbn [boardTiles]. unfold storeAt.
  destruct ((0 <=? position tile)
            && (position tile <? Z.of_nat (List.length (boardTiles w2))));
    [|exact Hb2].
  apply settled_setNth; [exact Hb2 | apply (Hb2 i tile Htile)].
Qed.

Lemma resetBoard_settled (width height : Z) (w : World) :
  settled (boardTiles (resetBoard width height w)).
Proof.
  intros j t Hj.
  assert (Hlt : (j < Z.to_nat (height * width))%nat).
  { rewrite <- (resetBoard_length width height w). eapply nth_error_in_range; eauto. }
  destruct (resetBoard_tile width height w j Hlt) as (t0 & Ht0 & _ & Hc & Hp & _).
  assert (t0 = t) by congruence. subst t0.
  unfold settledTile. rewrite Hc, Hp. discriminate.
Qed.

Lemma solving_settled (random : nat -> Rand) (width height : Z) (w : World) :
  solving random width height w -> settled (boardTiles w).
Proof.
  intros Hs. induction Hs as [w|w w' Hs IH Hstep].
  - apply resetBoard_settled.
  - eapply doCollapse_settled; eauto.
Qed.

Lemma solving_stepped (random : nat -> Rand) (width height : Z) (w : World) :
  solving random width height w -> stepped random width height w.
Proof.
  intros Hs. induction Hs as [w|w w' Hs IH Hstep].
  - apply stepped_reset.
  - eapply stepped_step; eauto.
Qed.

(** ** The counter of collapsed tiles *)

(** The number of tiles of the board that are collapsed. *)
Definition collapsedCount (b : list Tile) : nat :=
  List.length (filter isCollapsed b).

Lemma collapsedCount_cons (x : Tile) (xs : list Tile) :
  collapsedCount (x :: xs)
  = ((if collapsed x then 1 else 0) + collapsedCount xs)%nat.
Proof.
  unfold collapsedCount, isCollapsed. simpl. destruct (collapsed x); reflexivity.
Qed.

Lemma collapsedCount_le (b : list Tile) : (collapsedCount b <= List.length b)%nat.
Proof.
  induction b as [|x xs IH]; [unfold collapsedCount; simpl; lia|].
  rewrite collapsedCount_cons. simpl List.length. destruct (collapsed x); lia.
Qed.

Lemma collapsedCount_full (b : list Tile) :
  collapsedCount b = List.length b <-> forall t, In t b -> isCollapsed t = true.
Proof.
  induction b as [|x xs IH].
  - split; [intros _ t [] | reflexivity].
  - rewrite collapsedCount_cons. simpl List.length.
    pose proof (collapsedCount_le xs) as Hle. unfold isCollapsed in *.
    destruct (collapsed x) eqn:Hx.
    + split.
      * intros H t [<-|Hin]; [exact Hx|]. apply IH; [lia | exact Hin].
      * intros H. simpl. f_equal. apply IH. intros t Hin. apply H. right. exact Hin.
    + split; [lia|]. intros H. specialize (H x (or_introl eq_refl)). congruence.
Qed.

Lemma collapsedCount_grows (b : list Tile) :
  forall b' : list Tile,
    List.length b' = List.length b ->
    (forall j t t', nth_error b j = Some t -> nth_error b' j = Some t' ->
                    collapsed t = true -> collapsed t' = true) ->
    (collapsedCount b <= collapsedCount b')%nat.
Proof.
  induction b as [|x xs IH]; intros [|y ys] Hlen Hflag;
    try discriminate Hlen; [unfold collapsedCount; simpl; lia|].
  simpl in Hlen. rewrite !collapsedCount_cons.
  assert (Hrest : (collapsedCount xs <= collapsedCount ys)%nat).
  { apply IH; [lia|]. intros j t t' Hj Hj'. apply (Hflag (S j) t t' Hj Hj'). }
  pose proof (Hflag O x y eq_refl eq_refl) as Hhead.
  destruct (collapsed x); [rewrite (Hhead eq_refl)|destruct (collapsed y)]; lia.
Qed.

Lemma collapsedCount_same (b : list Tile) :
  forall b' : list Tile,
    List.length b' = List.length b ->
    (forall j t t', nth_error b j = Some t -> nth_error b' j = Some t' ->
                    collapsed t' = collapsed t) ->
    collapsedCount b' = collapsedCount b.
Proof.
  induction b as [|x xs IH]; intros [|y ys] Hlen Hflag;
    try discriminate Hlen; [reflexivity|].
  simpl in Hlen. rewrite !collapsedCount_cons.
  rewrite (Hflag O x y eq_refl eq_refl).
  rewrite (IH ys); [reflexivity | lia |].
  intros j t t' Hj Hj'. apply (Hflag (S j) t t' Hj Hj').
Qed.

Lemma collapsedCount_one_more (b : list Tile) :
  forall (b' : list Tile) (i : nat) (this this' : Tile),
    List.length b' = List.length b ->
    nth_error b i = Some this -> collapsed this = false ->
    nth_error b' i = Some this' -> collapsed this' = true ->
    (forall j t t', j <> i -> nth_error b j = Some t -> nth_error b' j = Some t' ->
                    collapsed t' = collapsed t) ->
    collapsedCount b' = S (collapsedCount b).
Proof.
  induction b as [|x xs IH]; intros [|y ys] i this this' Hlen Hi Hc Hi' Hc' Hflag;
    try (destruct i; discriminate); simpl in Hlen.
  rewrite !collapsedCount_cons.
  destruct i as [|i]; simpl in Hi, Hi'.
  - injection Hi as ->. injection Hi' as ->.
    assert (Hrest : collapsedCount ys = collapsedCount xs).
    { apply collapsedCount_same; [lia|].
      intros j t t' Hj Hj'. apply (Hflag (S j) t t'); [lia | exact Hj | exact Hj']. }
    rewrite Hc, Hc'. lia.
  - assert (Hrest : collapsedCount ys = S (collapsedCount xs)).
    { apply (IH ys i this this'); try assumption; [lia|].
      intros j t t' Hne Hj Hj'. apply (Hflag (S j) t t'); [lia | exact Hj | exact Hj']. }
    pose proof (Hflag O x y ltac:(lia) eq_refl eq_refl) as Hhead.
    rewrite Hhead. destruct (collapsed x); lia.
Qed.

(** One step and the two counts: a step that returns [true] has collapsed
    exactly one tile and counted it; a step that returns [false] has counted
    nothing, whatever it collapsed. *)
Lemma doCollapse_counts (random : nat -> Rand) (width : Z) (w w' : World)
    (ok : bool) :
  slotsArePositions (boardTiles w) ->
  doCollapse random width w = (ok, w') ->
  List.length (boardTiles w') = List.length (boardTiles w) /\
  (collapsedCount (boardTiles w) <= collapsedCount (boardTiles w'))%nat /\
  (if ok
   then collapsedTiles w' = collapsedTiles w + 1 /\
        collapsedCount (boardTiles w') = S (collapsedCount (boardTiles w))
   else collapsedTiles w' = collapsedTiles w).
Proof.
  intros Hpos Hrun.
  destruct (doCollapse_slotwise random width w w' ok Hpos Hrun) as [Hlen Hslots].
  split; [exact Hlen|]. split.
  { apply collapsedCount_grows; [exact Hlen|].
    intros j t t' Hj Hj' Hc. destruct (Hslots j t Hj) as (t2 & Hj2 & _ & _ & Hcore).
    assert (t2 = t') by congruence. subst t2.
    destruct (Hcore Hc) as (_ & Hc' & _). congruence. }
  unfold doCollapse, iterateLoop in Hrun.
  destruct (chooseNextTile_pick random w) as (_ & Hb & Hcount).
  destruct (chooseNextTile random w) as [[i|] w1] eqn:Hchoose; simpl in Hb, Hcount.
  2:{ injection Hrun as <- <-. exact Hcount. }
  destruct (chooseNextTile_returns random w w1 i Hchoose)
    as (_ & this & Hself & Hc & _).
  destruct (collapse random i width w1) as [r w2] eqn:Hcollapse.
  assert (Hcounter : collapsedTiles w2 = collapsedTiles w).
  { rewrite <- Hcount. clear - Hcollapse. unfold collapse in Hcollapse.
    destruct (nth_error (boardTiles w1) i) as [t|];
      [|injection Hcollapse as _ <-; reflexivity].
    destruct (List.length (map fst (possibleTiles t)) =? 0)%nat;
      [injection Hcollapse as _ <-; reflexivity|].
    destruct (generateConnections _) as [[[]|e] g];
      [|injection Hcollapse as _ <-; reflexivity].
    destruct (notifyNeighbors i width dirs _) as [[[]|e] b'];
      injection Hcollapse as _ <-; reflexivity. }
  destruct (collapse_slotwise random i width w1 w2 r Hcollapse) as [_ Hslots2].
  rewrite Hb in Hslots2.
  destruct r as [[|]|e].
  - destruct (collapse_leaves_collapsed random i width w1 w2 (Ret true) Hcollapse
                (or_introl eq_refl)) as (this' & Hi' & Hc' & _).
    rewrite Hi' in Hrun. injection Hrun as <- <-. cbn [boardTiles collapsedTiles].
    split; [rewrite Hcounter; reflexivity|].
    assert (Hstore : storeAt (position this') this' (boardTiles w2) = boardTiles w2).
    { destruct (Hslots2 i this Hself) as (t' & Ht' & Hp & _).
      assert (t' = this') by congruence. subst t'.
      unfold storeAt. rewrite Hp, (Hpos i this Hself), Nat2Z.id.
      destruct ((0 <=? Z.of_nat i)
                && (Z.of_nat i <? Z.of_nat (List.length (boardTiles w2))));
        [apply setNth_unchanged; exact Hi' | reflexivity]. }
    rewrite Hstore.
    apply (collapsedCount_one_more (boardTiles w) (boardTiles w2) i this this');
      try assumption.
    + cbn [boardTiles] in Hlen. rewrite Hstore in Hlen. exact Hlen.
    + intros j t t' Hne Hj Hj'.
      destruct (Hslots2 j t Hj) as (t2 & Hj2 & _ & _ & Hcore & _).
      assert (t2 = t') by congruence. subst t2.
      destruct (Hcore Hne) as (_ & Hflag & _). exact Hflag.
  - injection Hrun as <- <-. exact Hcounter.
  - injection Hrun as <- <-. exact Hcounter.
Qed.

Lemma resetBoard_none_collapsed (width height : Z) (w : World) :
  collapsedCount (boardTiles (resetBoard width height w)) = O.
Proof.
  unfold collapsedCount.
  destruct (filter isCollapsed (boardTiles (resetBoard width height w)))
    as [|x xs] eqn:Hf; [reflexivity|].
  assert (Hin : In x (filter isCollapsed (boardTiles (resetBoard width height w))))
    by (rewrite Hf; left; reflexivity).
  apply filter_In in Hin. destruct Hin as [Hin Hx].
  apply In_nth_error in Hin. destruct Hin as [j Hj].
  assert (Hlt : (j < Z.to_nat (height * width))%nat).
  { rewrite <- (resetBoard_length width height w).
    eapply nth_error_in_range; eauto. }
  destruct (resetBoard_tile width height w j Hlt) as (t0 & Ht0 & _ & Hc & _).
  unfold isCollapsed in Hx. congruence.
Qed.

Lemma solving_counter (random : nat -> Rand) (width height : Z) (w : World) :
  solving random width height w ->
  collapsedTiles w = Z.of_nat (collapsedCount (boardTiles w)).
Proof.
  intros Hs. induction Hs as [w|w w' Hs IH Hstep].
  - rewrite resetBoard_none_collapsed. reflexivity.
  - pose proof (stepped_slotsArePositions random width height w
                  (solving_stepped random width height w Hs)) as Hpos.
    destruct (doCollapse_counts random width w w' true Hpos Hstep)
      as (_ & _ & Hctr & Hcnt).
    rewrite Hctr, Hcnt, IH. lia.
Qed.

(** X7.  In a run without contradiction the counter [collapsedTiles] is the
    number of collapsed tiles of the board, so the test
    [collapsedTiles == boardTiles.length] of the "Next" handler and the loop
    condition of the "Auto" handler hold exactly when every tile is
    collapsed; and every tile is settled: a collapsed tile has no candidate
    left, a tile that is not collapsed has at least one. *)
Theorem counter_counts_collapsed_tiles (random : nat -> Rand) (width height : Z)
    (w : World) :
  solving random width height w ->
  collapsedTiles w = Z.of_nat (collapsedCount (boardTiles w)) /\
  (collapsedTiles w = Z.of_nat (List.length (boardTiles w)) <->
   forall t, In t (boardTiles w) -> isCollapsed t = true) /\
  (forall t, In t (boardTiles w) ->
     if isCollapsed t then getEntropy t = 0%nat else (0 < getEntropy t)%nat).
Proof.
  intros Hs.
  pose proof (solving_counter random width height w Hs) as Hcount.
  split; [exact Hcount|]. split.
  - rewrite Hcount, <- collapsedCount_full. split; [apply Nat2Z.inj | congruence].
  - intros t Hin. apply In_nth_error in Hin. destruct Hin as [j Hj].
    pose proof (solving_settled random width height w Hs j t Hj) as Hset.
    unfold settledTile, isCollapsed in *. rewrite getEntropy_length.
    destruct (collapsed t).
    + rewrite Hset. reflexivity.
    + destruct (possibleTiles t); [congruence | simpl; lia].
Qed.

Lemma counter_counts_collapsed_tiles_witness :
  collapsedTiles beforeContradiction = 33 /\
  collapsedCount (boardTiles beforeContradiction) = 33%nat.
Proof.
  destruct (counter_counts_collapsed_tiles (scripted sixtyDraws) 7 6
              beforeContradiction beforeContradiction_solving) as (Hcount & _).
  assert (Hvalue : collapsedTiles beforeContradiction = 33) by (vm_compute; reflexivity).
  split; [exact Hvalue|]. rewrite Hvalue in Hcount. lia.
Defined.

(** X8.  Once a step has failed the counter can only lag behind: after any
    calls of [doCollapse] on a new board, successful or not, the counter is at
    most the number of collapsed tiles, so if it ever equals the board length
    then every tile is collapsed.  (A step that hits a contradiction has
    collapsed a tile without counting it.) *)
Theorem counter_never_overshoots (random : nat -> Rand) (width height : Z)
    (w : World) :
  stepped random width height w ->
  0 <= collapsedTiles w <= Z.of_nat (collapsedCount (boardTiles w)) /\
  (collapsedTiles w = Z.of_nat (List.length (boardTiles w)) ->
   forall t, In t (boardTiles w) -> isCollapsed t = true).
Proof.
  intros Hs.
  assert (Hle : 0 <= collapsedTiles w <= Z.of_nat (collapsedCount (boardTiles w))).
  { induction Hs as [w|w w' ok Hs IH Hstep].
    - cbn [resetBoard collapsedTiles]. lia.
    - pose proof (stepped_slotsArePositions random width height w Hs) as Hpos.
      destruct (doCollapse_counts random width w w' ok Hpos Hstep)
        as (_ & Hgrow & Hok).
      destruct ok; [destruct Hok as [Hctr Hcnt]|]; lia. }
  split; [exact Hle|].
  intros Hfull. apply collapsedCount_full.
  pose proof (collapsedCount_le (boardTiles w)). lia.
Qed.

Lemma counter_never_overshoots_witness :
  collapsedTiles afterContradiction = 33 /\
  collapsedCount (boardTiles afterContradiction) = 34%nat /\
  collapsedTiles afterContradiction
  <= Z.of_nat (collapsedCount (boardTiles afterContradiction)).
Proof.
  split; [vm_compute; reflexivity|]. split; [vm_compute; reflexivity|].
  exact (proj2 (proj1 (counter_never_overshoots (scripted sixtyDraws) 7 6
                         afterContradiction afterContradiction_stepped))).
Defined.

(** ** How a step can fail *)

Lemma findPossibleTilesBody_throws (width : Z) (b : list Tile) (t t' : Tile)
    (e : Exn) :
  findPossibleTilesBody width b t = (Throw e, t') ->
  e = TypeError \/ e = NoTilesPossible.
Proof.
  unfold findPossibleTilesBody.
  destruct (forDirs (findPossibleTilesDir b width) dirs t) as [[[]|e1] t1] eqn:Hf.
  - destruct (negb (isCollapsed t1)
              && (List.length (map fst (possibleTiles t1)) =? 0)%nat);
      intros H; [|discriminate H].
    injection H as <- _. right. reflexivity.
  - intros H. injection H as <- _. left.
    apply (forDirs_throws (findPossibleTilesDir b width) dirs) in Hf; [exact Hf|].
    intros d u u' e0. apply findPossibleTilesDir_throws.
Qed.

Lemma callOn_throws (self : nat) (method : list Tile -> TileOp) (b b' : list Tile)
    (e : Exn) (allowed : Exn -> Prop) :
  allowed TypeError ->
  (forall t t' e', method b t = (Throw e', t') -> allowed e') ->
  callOn self method b = (Throw e, b') -> allowed e.
Proof.
  intros Htype Hm. unfold callOn.
  destruct (nth_error b self) as [this|];
    [|intros H; injection H as <- _; exact Htype].
  destruct (method b this) as [[[]|e1] this'] eqn:Hcall; intros H;
    [discriminate H|].
  injection H as <- _. eapply Hm; eauto.
Qed.

Lemma notifyNeighbors_throws_only (self : nat) (width : Z) (ds : list Dir) :
  forall b b' e, notifyNeighbors self width ds b = (Throw e, b') ->
                 e = TypeError \/ e = NoTilesPossible.
Proof.
  induction ds as [|d rest IH]; intros b b' e Hrun; simpl in Hrun;
    [discriminate Hrun|].
  destruct (notifyDir self width d b) as [[[]|e1] b1] eqn:Hd;
    [eapply IH; eauto|].
  injection Hrun as <- _. clear IH. unfold notifyDir in Hd.
  destruct (nth_error b self) as [this|];
    [|injection Hd as <- _; left; reflexivity].
  destruct (getDir (neighbors this) d) as [[|]|]; try discriminate Hd.
  destruct ((0 <=? stepIndex width (position this) d)
            && (stepIndex width (position this) d <? Z.of_nat (List.length b)));
    [|injection Hd as <- _; left; reflexivity].
  destruct (findNeighbors (Z.to_nat (stepIndex width (position this) d)) width b)
    as [[[]|e2] b2] eqn:Hfind.
  - unfold findPossibleTiles in Hd.
    apply (callOn_throws _ _ _ _ _
             (fun x => x = TypeError \/ x = NoTilesPossible)) in Hd;
      [exact Hd | left; reflexivity |].
    intros t t' e'. apply findPossibleTilesBody_throws.
  - injection Hd as <- _. unfold findNeighbors in Hfind.
    apply (callOn_throws _ _ _ _ _
             (fun x => x = TypeError \/ x = NoTilesPossible)) in Hfind;
      [exact Hfind | left; reflexivity |].
    intros t t' e' Hbody. rewrite findNeighborsBody_lookAt in Hbody.
    discriminate Hbody.
Qed.

(** X9.  [iterateLoop] never throws "No possible solutions": the tile that
    [chooseNextTile] returns has a candidate, so the [collapse] it calls never
    returns [false], on any board.  What [iterateLoop] can throw is "No tiles
    possible" from a neighbour, or a [TypeError]. *)
Theorem iterateLoop_never_reports_no_solution (random : nat -> Rand) (width : Z)
    (w : World) :
  fst (iterateLoop random width w) <> Throw NoPossibleSolutions /\
  (forall i w1, chooseNextTile random w = (Some i, w1) ->
                fst (collapse random i width w1) <> Ret false).
Proof.
  assert (Hcollapse : forall i w1, chooseNextTile random w = (Some i, w1) ->
            fst (collapse random i width w1) <> Ret false /\
            fst (collapse random i width w1) <> Throw NoPossibleSolutions).
  { intros i w1 Hchoose.
    destruct (chooseNextTile_returns random w w1 i Hchoose)
      as (Hb1 & this & Hself & _ & Hne).
    unfold collapse. rewrite Hb1, Hself, length_map.
    destruct (possibleTiles this) as [|x xs] eqn:Hps; [congruence|].
    rewrite <- Hps.
    replace (List.length (possibleTiles this) =? 0)%nat with false
      by (rewrite Hps; reflexivity).
    destruct (generateConnections _) as [[[]|e] generated] eqn:Hgen.
    - destruct (notifyNeighbors i width dirs _) as [[[]|e] b'] eqn:Hnotify;
        simpl; split; try discriminate.
      destruct (notifyNeighbors_throws_only _ _ _ _ _ _ Hnotify); subst e;
        discriminate.
    - apply generateConnections_throws in Hgen. subst e.
      simpl. split; discriminate. }
  split; [|intros i w1 Hchoose; apply (Hcollapse i w1 Hchoose)].
  unfold iterateLoop.
  destruct (chooseNextTile random w) as [[i|] w1] eqn:Hchoose; [|discriminate].
  destruct (Hcollapse i w1 eq_refl) as [Hfalse Hthrow].
  destruct (collapse random i width w1) as [[[|]|e] w2]; simpl in *.
  - destruct (nth_error (boardTiles w2) i); discriminate.
  - congruence.
  - intros H. apply Hthrow. injection H as ->. reflexivity.
Qed.

(** Collapsed tiles have no candidate: the half of [settled] that a cascade
    keeps also when it throws. *)
Definition collapsedEmpty (b : list Tile) : Prop :=
  forall j t, nth_error b j = Some t -> collapsed t = true -> possibleTiles t = [].

Lemma collapsedEmpty_updated (b b' : list Tile) :
  boardUpdated b b' -> collapsedEmpty b -> collapsedEmpty b'.
Proof.
  intros Hu Hb j t' Hj' Hc'.
  destruct (boardUpdated_back b b' j t' Hu Hj') as (t & Hj & [(_ & Hc & _) Hf]).
  rewrite (Hb j t Hj) in Hf by congruence.
  apply filtered_nil in Hf. exact Hf.
Qed.

Lemma notifyDir_throws_contradiction (width : Z) (self : nat)
    (statuses : PerDir (option bool)) (d : Dir) (rest : list Dir)
    (b b' : list Tile) (e : Exn) :
  cascading width self statuses (d :: rest) b -> collapsedEmpty b ->
  notifyDir self width d b = (Throw e, b') -> e = NoTilesPossible.
Proof.
  intros (Hg & _ & (this & Hself & _ & Hst) & _) Hce Hrun.
  unfold notifyDir in Hrun. rewrite Hself, Hst in Hrun.
  destruct (getDir statuses d) as [[|]|] eqn:Hd; try discriminate Hrun.
  rewrite (good_position width b Hg self this Hself) in Hrun.
  pose proof (good_null width b Hg self this d Hself) as Hnull.
  rewrite Hst, Hd in Hnull.
  destruct (neighborOf width b self d) as [nb|] eqn:Hnb;
    [|destruct Hnull as [_ H]; discriminate (H eq_refl)].
  destruct (neighborOf_slot width b self d nb Hnb) as [H0 Hslot].
  pose proof (neighborIndex_stepIndex width (Z.of_nat self) d H0) as Hidx.
  rewrite Hidx in H0, Hslot.
  set (target := stepIndex width (Z.of_nat self) d) in *.
  set (j := Z.to_nat target) in *.
  pose proof (nth_error_in_range _ _ _ Hslot) as Hlt.
  replace ((0 <=? target) && (target <? Z.of_nat (List.length b))) with true in Hrun
    by (symmetry; apply andb_true_iff; split;
        [apply Z.leb_le | apply Z.ltb_lt]; unfold j in Hlt; lia).
  pose proof (goodBoard_findNeighbors width b j Hg) as Hg1.
  rewrite (findNeighbors_slot j width b nb Hslot) in Hrun, Hg1. simpl snd in Hg1.
  set (t1 := snd (findNeighborsBody width b nb)) in *.
  set (b1 := setNth j t1 b) in *.
  assert (Hj1 : nth_error b1 j = Some t1)
    by (apply nth_error_setNth_same; exact Hlt).
  destruct (findNeighborsBody_sameCore b width nb) as [(_ & Hc1 & _) Hp1].
  fold t1 in Hc1, Hp1.
  assert (Hwf : NoDup (map fst (possibleTiles t1)) /\ threeRows (possibleTiles t1)).
  { destruct (collapsed nb) eqn:Hcnb.
    - rewrite Hp1, (Hce j nb Hslot Hcnb). split; [constructor | intros k l []].
    - apply (candidates_wellformed width b1 j t1 Hg1 Hj1 Hc1). }
  destruct Hwf as [Hnd H3].
  pose proof (connectorsKnown_good width b1 j t1 Hg1 Hj1) as Hk.
  pose proof (findPossibleTilesBody_spec b1 width t1 Hnd H3 Hk) as Hspec.
  unfold findPossibleTiles, callOn in Hrun. rewrite Hj1, Hspec in Hrun.
  destruct (negb (collapsed t1)
            && (List.length (possibleTiles (narrowedAll b1 width t1)) =? 0)%nat);
    [|discriminate Hrun].
  injection Hrun as <- _. reflexivity.
Qed.

Lemma notifyNeighbors_throws_contradiction (width : Z) (Hw : 0 < width)
    (self : nat) (statuses : PerDir (option bool)) (ds : list Dir) :
  forall b b' e,
    cascading width self statuses ds b -> collapsedEmpty b ->
    notifyNeighbors self width ds b = (Throw e, b') -> e = NoTilesPossible.
Proof.
  induction ds as [|d rest IH]; intros b b' e Hc Hce Hrun; simpl in Hrun;
    [discriminate Hrun|].
  pose proof (notifyDir_updated self width d b) as Hu.
  destruct (notifyDir self width d b) as [[[]|e1] b1] eqn:Hd.
  - apply (IH b1 b' e); [|eapply collapsedEmpty_updated; eauto|exact Hrun].
    eapply notifyDir_cascading; eauto.
  - injection Hrun as <- _. eapply notifyDir_throws_contradiction; eauto.
Qed.

Lemma settled_collapsedEmpty (b : list Tile) : settled b -> collapsedEmpty b.
Proof.
  intros Hb j t Hj Hc. specialize (Hb j t Hj). unfold settledTile in Hb.
  rewrite Hc in Hb. exact Hb.
Qed.

(** [collapse] on a tile that has candidates, on a stable and settled board:
    it returns [true] or a neighbour meets a contradiction. *)
Lemma collapse_on_stable (random : nat -> Rand) (width : Z) (w : World)
    (i : nat) (this : Tile) :
  0 < width -> stable width (boardTiles w) -> settled (boardTiles w) ->
  nth_error (boardTiles w) i = Some this ->
  collapsed this = false -> possibleTiles this <> [] ->
  fst (collapse random i width w) = Ret true \/
  fst (collapse random i width w) = Throw NoTilesPossible.
Proof.
  intros Hw (Hg & Ha & Hfit) Hset Hself Hc Hne.
  unfold collapse. rewrite Hself, length_map.
  destruct (possibleTiles this) as [|e0 ps0] eqn:Hps; [congruence|].
  rewrite <- Hps.
  replace (List.length (possibleTiles this) =? 0)%nat with false
    by (rewrite Hps; reflexivity).
  set (k := randIndex (random (draws w)) (List.length (possibleTiles this))).
  assert (Hk : (k < List.length (possibleTiles this))%nat).
  { apply randIndex_lt. rewrite Hps. simpl. lia. }
  destruct (nth_key (possibleTiles this) k Hk) as (l & Hin).
  set (choice := nth k (map fst (possibleTiles this)) "") in *.
  assert (Hcat : In (choice, l) layouts).
  { apply (filtered_incl _ _ (good_candidates width _ Hg i this Hself Hc)). exact Hin. }
  destruct (generateConnections_catalogue choice l this Hcat) as (this' & Hgen & _).
  rewrite Hgen.
  pose proof (collapse_write_cascading width Hw (boardTiles w) i this this' choice l
                Hg Ha Hfit Hself Hc Hin Hgen) as Hcasc.
  assert (Hce : collapsedEmpty (setNth i (markCollapsed this') (boardTiles w))).
  { apply settled_collapsedEmpty. apply settled_setNth; [exact Hset | reflexivity]. }
  destruct (notifyNeighbors i width dirs (setNth i (markCollapsed this') (boardTiles w)))
    as [[[]|e] b2] eqn:Hnotify; simpl; [left; reflexivity|].
  right. f_equal.
  eapply notifyNeighbors_throws_contradiction; eauto.
Qed.

Lemma all_or_one_not_collapsed (b : list Tile) :
  (forall t, In t b -> isCollapsed t = true) \/
  (exists t, In t b /\ isCollapsed t = false).
Proof.
  induction b as [|x xs [IH|(t & Hin & Hc)]].
  - left. intros t [].
  - destruct (isCollapsed x) eqn:Hx.
    + left. intros t [<-|Hin]; [exact Hx | apply IH; exact Hin].
    + right. exists x. split; [left; reflexivity | exact Hx].
  - right. exists t. split; [right; exact Hin | exact Hc].
Qed.

(** X10.  In a run without contradiction a step fails for one of two
    reasons only.  While a tile is not collapsed, [iterateLoop] returns the
    position of a tile that was not collapsed, or throws "No tiles possible"
    out of the cascade; it throws a [TypeError] exactly when every tile is
    collapsed.  So until the board is solved, [false] from [doCollapse] means
    a contradiction. *)
Theorem step_fails_by_contradiction_until_solved (random : nat -> Rand)
    (width height : Z) (w : World) :
  0 < width -> solving random width height w ->
  (fst (iterateLoop random width w) = Throw TypeError <->
   forall t, In t (boardTiles w) -> isCollapsed t = true) /\
  ((exists t, In t (boardTiles w) /\ isCollapsed t = false) ->
   fst (iterateLoop random width w) = Throw NoTilesPossible \/
   exists i this,
     fst (iterateLoop random width w) = Ret (Z.of_nat i) /\
     nth_error (boardTiles w) i = Some this /\ isCollapsed this = false).
Proof.
  intros Hw Hs.
  pose proof (solving_stable random width height w Hw Hs) as Hst.
  pose proof (solving_settled random width height w Hs) as Hset.
  pose proof (stepped_slotsArePositions random width height w
                (solving_stepped random width height w Hs)) as Hpos.
  assert (Hopen : (exists t, In t (boardTiles w) /\ isCollapsed t = false) ->
            fst (iterateLoop random width w) = Throw NoTilesPossible \/
            exists i this,
              fst (iterateLoop random width w) = Ret (Z.of_nat i) /\
              nth_error (boardTiles w) i = Some this /\ isCollapsed this = false).
  { intros (t & Hin & Hct).
    assert (Htied : entropicTiles (boardTiles w) <> []).
    { intros Hnil. apply (proj1 (entropicTiles_empty (boardTiles w)) Hnil t Hin).
      split; [exact Hct|].
      apply In_nth_error in Hin. destruct Hin as [j Hj].
      pose proof (Hset j t Hj) as Ht. unfold settledTile in Ht.
      unfold isCollapsed in Hct. rewrite Hct in Ht. exact Ht. }
    destruct (chooseNextTile_pick random w) as (Hpick & Hb1 & _).
    unfold iterateLoop.
    destruct (chooseNextTile random w) as [[i|] w1] eqn:Hchoose;
      simpl in Hpick, Hb1.
    2:{ exfalso. symmetry in Hpick. apply nth_error_None in Hpick.
        destruct (entropicTiles (boardTiles w)) as [|x xs] eqn:Hl; [congruence|].
        pose proof (randIndex_lt (random (draws w)) (List.length (x :: xs))
                      ltac:(simpl; lia)). lia. }
    destruct (chooseNextTile_returns random w w1 i Hchoose)
      as (_ & this & Hself & Hc & Hne).
    assert (Hst1 : stable width (boardTiles w1)) by (rewrite Hb1; exact Hst).
    assert (Hset1 : settled (boardTiles w1)) by (rewrite Hb1; exact Hset).
    assert (Hself1 : nth_error (boardTiles w1) i = Some this)
      by (rewrite Hb1; exact Hself).
    pose proof (collapse_on_stable random width w1 i this Hw Hst1 Hset1 Hself1 Hc Hne)
      as Hout.
    destruct (collapse random i width w1) as [r w2] eqn:Hcollapse. simpl in Hout.
    destruct (collapse_slotwise random i width w1 w2 r Hcollapse) as [_ Hslots].
    destruct (Hslots i this Hself1) as (tile & Htile & Hp & _).
    destruct Hout as [->| ->]; [|left; reflexivity].
    right. rewrite Htile. simpl. exists i, this.
    rewrite Hp, (Hpos i this Hself). auto. }
  split; [|exact Hopen]. split.
  - intros Hthrow.
    destruct (all_or_one_not_collapsed (boardTiles w)) as [Hall|Hone]; [exact Hall|].
    destruct (Hopen Hone) as [H|(i & this & H & _)]; rewrite H in Hthrow;
      discriminate Hthrow.
  - intros Hall.
    destruct (step_on_solved_board random width w Hall) as (_ & Hrun & _).
    rewrite Hrun. reflexivity.
Qed.

Lemma step_fails_by_contradiction_until_solved_witness :
  fst (iterateLoop (scripted sixtyDraws) 7 beforeContradiction) = Throw NoTilesPossible \/
  exists i this,
    fst (iterateLoop (scripted sixtyDraws) 7 beforeContradiction) = Ret (Z.of_nat i) /\
    nth_error (boardTiles beforeContradiction) i = Some this /\
    isCollapsed this = false.
Proof.
  apply (proj2 (step_fails_by_contradiction_until_solved (scripted sixtyDraws) 7 6
                  beforeContradiction ltac:(lia) beforeContradiction_solving)).
  exists (nth 30 (boardTiles beforeContradiction) (newTile 0)).
  split; [apply nth_In; vm_compute; lia | vm_compute; reflexivity].
Defined.

(* ------------------------------------------------------------------ *)
(** * index.js: the "Auto" button *)

(** The handler of the "Auto" button:
    [iterations = 1; while (collapsedTiles < boardTiles.length)
     { if (!doCollapse()) { iterations++; resetBoard() } await ... }].
    The loop need not end, so the model counts the rounds it may still make:
    [None] is a loop that has not finished within [fuel] rounds.  The [await]
    of each round is a pause in which this model lets no other handler run. *)
Section Auto.

Variable random : nat -> Rand.
Variables boardWidth boardHeight : Z.

Fixpoint autoLoop (fuel : nat) (w : World) (iterations : Z) : option (World * Z) :=
  match fuel with
  | O => None
  | S fuel' =>
      if collapsedTiles w <? Z.of_nat (List.length (boardTiles w)) then
        match doCollapse random boardWidth w with
        | (true, w') => autoLoop fuel' w' iterations
        | (false, w') =>
            autoLoop fuel' (resetBoard boardWidth boardHeight w') (iterations + 1)
        end
      else Some (w, iterations)
  end.

Definition autoButton (fuel : nat) (w : World) : option (World * Z) :=
  autoLoop fuel w 1.

End Auto.

Lemma autoLoop_solved (random : nat -> Rand) (width height : Z) (fuel : nat) :
  0 < width ->
  forall (w w' : World) (n n' : Z),
    solving random width height w ->
    autoLoop random width height fuel w n = Some (w', n') ->
    solving random width height w' /\
    Z.of_nat (List.length (boardTiles w')) <= collapsedTiles w' /\ n <= n'.
Proof.
  intros Hw. induction fuel as [|fuel IH]; intros w w' n n' Hs Hrun;
    simpl in Hrun; [discriminate Hrun|].
  destruct (Z.ltb_spec (collapsedTiles w) (Z.of_nat (List.length (boardTiles w))))
    as [Hlt|Hge].
  - destruct (doCollapse random width w) as [[|] w1] eqn:Hstep.
    + apply (IH w1 w' n n'); [|exact Hrun].
      eapply solving_step; eauto.
    + destruct (IH (resetBoard width height w1) w' (n + 1) n'
                  (solving_reset random width height w1) Hrun) as (H1 & H2 & H3).
      split; [exact H1|]. split; [exact H2 | lia].
  - injection Hrun as <- <-. split; [exact Hs|]. split; lia.
Qed.

(** X11.  The "Auto" button, pressed on a new board or in a run without
    contradiction.  If its loop ends, the board it leaves is the board of a
    run without contradiction since the last [resetBoard], every tile is
    collapsed, and the connectors of every two adjacent tiles match; the
    counter equals the board length and [iterations] is at least one. *)
Theorem auto_ends_with_a_solved_board (random : nat -> Rand) (width height : Z)
    (fuel : nat) (w w' : World) (iterations : Z) :
  0 < width -> solving random width height w ->
  autoButton random width height fuel w = Some (w', iterations) ->
  solving random width height w' /\
  (forall t, In t (boardTiles w') -> isCollapsed t = true) /\
  edgesMatch width (boardTiles w') /\
  collapsedTiles w' = Z.of_nat (List.length (boardTiles w')) /\
  1 <= iterations.
Proof.
  intros Hw Hs Hrun. unfold autoButton in Hrun.
  destruct (autoLoop_solved random width height fuel Hw w w' 1 iterations Hs Hrun)
    as (Hs' & Hge & Hn).
  pose proof (solving_counter random width height w' Hs') as Hcount.
  pose proof (collapsedCount_le (boardTiles w')) as Hle.
  assert (Hfull : collapsedCount (boardTiles w') = List.length (boardTiles w'))
    by lia.
  split; [exact Hs'|].
  split; [apply collapsedCount_full; exact Hfull|].
  split.
  - destruct (solving_stable random width height w' Hw Hs') as (Hg & Ha & _).
    apply agreeing_edgesMatch; assumption.
  - split; [lia | exact Hn].
Qed.

Lemma auto_ends_with_a_solved_board_witness :
  exists w',
    autoButton (scripted sixtyDraws) 7 6 100 (resetBoard 7 6 (mkWorld [] 0 0))
    = Some (w', 2) /\
    (forall t, In t (boardTiles w') -> isCollapsed t = true) /\
    edgesMatch 7 (boardTiles w').
Proof.
  assert (Hn : option_map snd
                 (autoButton (scripted sixtyDraws) 7 6 100
                    (resetBoard 7 6 (mkWorld [] 0 0))) = Some 2)
    by (vm_compute; reflexivity).
  destruct (autoButton (scripted sixtyDraws) 7 6 100
              (resetBoard 7 6 (mkWorld [] 0 0))) as [[w' n']|] eqn:Hrun;
    [|discriminate Hn].
  simpl in Hn. injection Hn as ->. exists w'. split; [reflexivity|].
  destruct (auto_ends_with_a_solved_board (scripted sixtyDraws) 7 6 100
              (resetBoard 7 6 (mkWorld [] 0 0)) w' 2 ltac:(lia)
              (solving_reset (scripted sixtyDraws) 7 6 (mkWorld [] 0 0)) Hrun)
    as (_ & Hall & Hedges & _).
  split; assumption.
Defined.

(** X12.  When none of the steps that are still to make fails, the "Auto"
    loop ends: from a run without contradiction with [n] tiles left to
    collapse, it ends after these [n] steps, any larger number of rounds
    allowed, with the board these steps give and [iterations] unchanged. *)
Theorem auto_ends_when_no_step_fails (random : nat -> Rand) (width height : Z)
    (n extra : nat) (w : World) (iterations : Z) :
  solving random width height w ->
  Z.of_nat n = Z.of_nat (List.length (boardTiles w)) - collapsedTiles w ->
  allSucceed random width n w = true ->
  autoLoop random width height (S n + extra) w iterations
  = Some (stepMany random width n w, iterations).
Proof.
  intros Hs. revert w Hs.
  induction n as [|n IH]; intros w Hs Hleft Hall.
  - simpl.
    destruct (Z.ltb_spec (collapsedTiles w) (Z.of_nat (List.length (boardTiles w))));
      [lia | reflexivity].
  - simpl in Hall. apply andb_true_iff in Hall. destruct Hall as [Hok Hrest].
    change (S (S n) + extra)%nat with (S (S n + extra)).
    cbn [autoLoop stepMany].
    destruct (Z.ltb_spec (collapsedTiles w) (Z.of_nat (List.length (boardTiles w))));
      [|lia].
    destruct (doCollapse random width w) as [ok w1] eqn:Hstep.
    simpl in Hok, Hrest. subst ok. simpl snd.
    pose proof (stepped_slotsArePositions random width height w
                  (solving_stepped random width height w Hs)) as Hpos.
    destruct (doCollapse_counts random width w w1 true Hpos Hstep)
      as (Hlen & _ & Hctr & _).
    apply IH; [eapply solving_step; eauto | rewrite Hlen, Hctr; lia | exact Hrest].
Qed.

Lemma auto_ends_when_no_step_fails_witness :
  autoLoop (fun _ => fraction 0 0) 7 6 43 (resetBoard 7 6 (mkWorld [] 0 0)) 1
  = Some (stepMany (fun _ => fraction 0 0) 7 42 (resetBoard 7 6 (mkWorld [] 0 0)), 1).
Proof.
  apply (auto_ends_when_no_step_fails (fun _ => fraction 0 0) 7 6 42 0
           (resetBoard 7 6 (mkWorld [] 0 0)) 1).
  - apply solving_reset.
  - vm_compute. reflexivity.
  - vm_compute. reflexivity.
Defined.

(* ------------------------------------------------------------------ *)
(** * class.tile.js: looking twice *)

Lemma PerDir_ext {A} (p q : PerDir A) :
  (forall d, getDir p d = getDir q d) -> p = q.
Proof.
  intros H. destruct p as [pn pe ps pw], q as [qn qe qs qw].
  pose proof (H north) as Hn. pose proof (H east) as He.
  pose proof (H south) as Hs. pose proof (H west) as Hw'.
  simpl in *. congruence.
Qed.

Lemma Tile_ext (t t' : Tile) :
  sameCore t t' -> neighbors t' = neighbors t ->
  possibleTiles t' = possibleTiles t -> t' = t.
Proof.
  intros (H1 & H2 & H3 & H4 & H5) H6 H7.
  destruct t, t'. simpl in *. congruence.
Qed.

Lemma statusAfter_twice (b : list Tile) (width : Z) (t t1 : Tile) (d : Dir) :
  position t1 = position t ->
  getDir (neighbors t1) d = statusAfter b width t d ->
  statusAfter b width t1 d = statusAfter b width t d.
Proof.
  intros Hp Hs. unfold statusAfter in *. rewrite Hs, Hp.
  destruct (getDir (neighbors t) d) as [s|]; [|reflexivity].
  destruct (boardAt b (neighborIndex width (position t) d)) as [target|];
    [|reflexivity].
  destruct (collapsed target); reflexivity.
Qed.

(** X13.  [findNeighbors] is idempotent: a second call on the same tile,
    with no collapse in between, returns without changing anything. *)
Theorem findNeighbors_twice (self : nat) (width : Z) (board : list Tile) (t : Tile) :
  nth_error board self = Some t ->
  findNeighbors self width (snd (findNeighbors self width board))
  = (Ret tt, snd (findNeighbors self width board)).
Proof.
  intros Hself.
  pose proof (findNeighbors_updated self width board) as Hu.
  rewrite (findNeighbors_slot self width board t Hself) in *. simpl snd in *.
  set (t1 := snd (findNeighborsBody width board t)) in *.
  set (b1 := setNth self t1 board) in *.
  assert (Hself1 : nth_error b1 self = Some t1).
  { apply nth_error_setNth_same. eapply nth_error_in_range; eauto. }
  rewrite (findNeighbors_slot self width b1 t1 Hself1).
  destruct (findNeighborsBody_sameCore board width t) as [Hcore Hps].
  destruct (findNeighborsBody_sameCore b1 width t1) as [Hcore1 Hps1].
  assert (Hsame : snd (findNeighborsBody width b1 t1) = t1).
  { apply Tile_ext; [exact Hcore1| |exact Hps1].
    apply PerDir_ext. intros d.
    rewrite findNeighborsBody_status.
    rewrite (statusAfter_boardUpdated board b1 width t1 d Hu).
    rewrite (statusAfter_twice board width t t1 d).
    - unfold t1. rewrite findNeighborsBody_status. reflexivity.
    - apply Hcore.
    - unfold t1. apply findNeighborsBody_status. }
  rewrite Hsame. f_equal. apply setNth_unchanged. exact Hself1.
Qed.

Lemma findNeighbors_twice_witness :
  findNeighbors 1 2
    (snd (findNeighbors 1 2 (boardTiles twoTilesAfterEast)))
  = (Ret tt, snd (findNeighbors 1 2 (boardTiles twoTilesAfterEast))).
Proof.
  apply (findNeighbors_twice 1 2 (boardTiles twoTilesAfterEast)
           (nth 1 (boardTiles twoTilesAfterEast) (newTile 0))).
  vm_compute. reflexivity.
Defined.

(* ------------------------------------------------------------------ *)
(** * The neighbour statuses of tiles that are not collapsed *)

(** A step that returned [true], taken apart. *)
Lemma doCollapse_true_anatomy (random : nat -> Rand) (width : Z) (w w' : World) :
  slotsArePositions (boardTiles w) ->
  doCollapse random width w = (true, w') ->
  exists i w1 w2 this,
    chooseNextTile random w = (Some i, w1) /\
    boardTiles w1 = boardTiles w /\
    nth_error (boardTiles w) i = Some this /\
    collapsed this = false /\ possibleTiles this <> [] /\
    collapse random i width w1 = (Ret true, w2) /\
    boardTiles w' = boardTiles w2 /\
    collapsedTiles w' = collapsedTiles w2 + 1.
Proof.
  intros Hpos Hrun. unfold doCollapse, iterateLoop in Hrun.
  destruct (chooseNextTile random w) as [[i|] w1] eqn:Hchoose; [|discriminate Hrun].
  destruct (chooseNextTile_returns random w w1 i Hchoose)
    as (Hb1 & this & Hself & Hc & Hne).
  destruct (collapse random i width w1) as [[[|]|e] w2] eqn:Hcollapse;
    try discriminate Hrun.
  destruct (collapse_slotwise random i width w1 w2 (Ret true) Hcollapse)
    as [_ Hslots].
  rewrite Hb1 in Hslots.
  destruct (Hslots i this Hself) as (tile & Htile & Hp & _).
  rewrite Htile in Hrun. injection Hrun as <-.
  exists i, w1, w2, this. cbn [boardTiles collapsedTiles].
  repeat (split; [first [reflexivity | assumption]|]).
  split; [|reflexivity].
  unfold storeAt. rewrite Hp, (Hpos i this Hself), Nat2Z.id.
  destruct ((0 <=? Z.of_nat i)
            && (Z.of_nat i <? Z.of_nat (List.length (boardTiles w2))));
    [apply setNth_unchanged; exact Htile | reflexivity].
Qed.

(** Every tile that is not collapsed knows of every collapsed tile next to
    it, except for the pairs in [skip]. *)
Definition statusesFresh (width : Z) (skip : nat -> Dir -> Prop) (b : list Tile)
  : Prop :=
  forall i d t n,
    nth_error b i = Some t -> neighborOf width b i d = Some n ->
    collapsed t = false -> collapsed n = true ->
    skip i d \/ getDir (neighbors t) d = Some true.

Section Statuses.

Variable width : Z.
Hypothesis width_pos : 0 < width.

Lemma collapse_write_fresh (b : list Tile) (self : nat) (this this' : Tile) :
  goodBoard width b -> statusesFresh width (fun _ _ => False) b ->
  nth_error b self = Some this -> collapsed this = false ->
  statusesFresh width (awaiting width self (neighbors this) dirs)
    (setNth self (markCollapsed this') b).
Proof.
  intros Hg Hfresh Hself Hc.
  set (T := markCollapsed this').
  assert (Hlt : (self < List.length b)%nat) by (eapply nth_error_in_range; eauto).
  intros i d t n Hi Hn Hct Hcn.
  destruct (Nat.eq_dec self i) as [<-|Hne].
  { rewrite nth_error_setNth_same in Hi by exact Hlt.
    injection Hi as <-. discriminate Hct. }
  rewrite nth_error_setNth_other in Hi by exact Hne.
  destruct (neighborOf_setNth width b self i d T Hlt) as [Heq Hother].
  destruct (Z.eq_dec (neighborIndex width (Z.of_nat i) d) (Z.of_nat self)) as [E|E].
  - left. split; [exact E|].
    pose proof (neighborIndex_sym width (Z.of_nat i) d width_pos ltac:(lia)
                  ltac:(lia)) as Hsym.
    rewrite E in Hsym.
    assert (Hback : neighborOf width b self (facingSide d) = Some t).
    { unfold neighborOf. rewrite Hsym. apply boardAt_Some.
      split; [lia|]. rewrite Nat2Z.id. exact Hi. }
    exists (facingSide d). split; [destruct d; simpl; tauto|]. split.
    + pose proof (good_null width b Hg self this (facingSide d) Hself) as Hnull.
      destruct (getDir (neighbors this) (facingSide d)) as [[|]|] eqn:Hs.
      * destruct (good_true width b Hg self this (facingSide d) Hself Hs)
          as (n' & Hn' & Hcn').
        rewrite Hback in Hn'. injection Hn' as <-. congruence.
      * reflexivity.
      * destruct Hnull as [H _]. rewrite (H eq_refl) in Hback. discriminate.
    + rewrite <- neighborIndex_stepIndex by lia. lia.
  - rewrite (Hother E) in Hn.
    destruct (Hfresh i d t n Hi Hn Hct Hcn) as [[]|Hok]. right. exact Hok.
Qed.

Lemma notifyDir_fresh (self : nat) (statuses : PerDir (option bool))
    (d : Dir) (rest : list Dir) (b b' : list Tile) :
  cascading width self statuses (d :: rest) b ->
  statusesFresh width (awaiting width self statuses (d :: rest)) b ->
  notifyDir self width d b = (Ret tt, b') ->
  statusesFresh width (awaiting width self statuses rest) b'.
Proof.
  intros (Hg & _ & (this & Hself & Hct & Hst) & _) Hfresh Hrun.
  pose proof (notifyDir_updated self width d b) as Hu.
  rewrite Hrun in Hu. simpl snd in Hu.
  assert (Hweaken : getDir statuses d <> Some false -> b' = b ->
            statusesFresh width (awaiting width self statuses rest) b').
  { intros Hnot ->. intros i d' t n Hi Hn Hc Hcn.
    destruct (Hfresh i d' t n Hi Hn Hc Hcn) as [(Hidx & dw & Hin & Hf & Heq)|Hok];
      [|right; exact Hok].
    left. split; [exact Hidx|]. exists dw. split; [|split; assumption].
    destruct Hin as [<-|Hin]; [contradiction | exact Hin]. }
  unfold notifyDir in Hrun. rewrite Hself in Hrun. rewrite Hst in Hrun.
  destruct (getDir statuses d) as [[|]|] eqn:Hd.
  - injection Hrun as <-. apply Hweaken; [congruence | reflexivity].
  - rewrite (good_position width b Hg self this Hself) in Hrun.
    pose proof (good_null width b Hg self this d Hself) as Hnull.
    rewrite Hst, Hd in Hnull.
    destruct (neighborOf width b self d) as [nb|] eqn:Hnb;
      [|destruct Hnull as [_ H]; discriminate (H eq_refl)].
    destruct (neighborOf_slot width b self d nb Hnb) as [H0 Hslot].
    pose proof (neighborIndex_stepIndex width (Z.of_nat self) d H0) as Hidx.
    rewrite Hidx in H0, Hslot.
    set (target := stepIndex width (Z.of_nat self) d) in *.
    set (j := Z.to_nat target) in *.
    pose proof (nth_error_in_range _ _ _ Hslot) as Hlt.
    destruct ((0 <=? target) && (target <? Z.of_nat (List.length b)));
      [|discriminate Hrun].
    rewrite (findNeighbors_slot j width b nb Hslot) in Hrun.
    set (t1 := snd (findNeighborsBody width b nb)) in *.
    set (b1 := setNth j t1 b) in *.
    assert (Hj1 : nth_error b1 j = Some t1)
      by (apply nth_error_setNth_same; exact Hlt).
    assert (Hb' : b' = snd (findPossibleTiles j width b1)) by (rewrite Hrun; reflexivity).
    intros i d' t2 n2 Hi Hn2 Hc2 Hcn2.
    destruct (neighborOf_updated_back width b b' i d' n2 Hu Hn2)
      as (n & Hn & [(_ & Hcn & _) _]).
    assert (Hcn0 : collapsed n = true) by congruence.
    destruct (Nat.eq_dec i j) as [->|Hij].
    + right.
      assert (Ht2 : t2 = snd (findPossibleTilesBody width b1 t1)).
      { rewrite Hb' in Hi. unfold findPossibleTiles, callOn in Hi.
        rewrite Hj1 in Hi.
        destruct (findPossibleTilesBody width b1 t1) as [r t']. simpl in Hi.
        rewrite nth_error_setNth_same in Hi
          by (unfold b1; rewrite setNth_length; exact Hlt).
        injection Hi as <-. reflexivity. }
      destruct (findPossibleTilesBody_updated b1 width t1) as [_ Hnb2].
      rewrite Ht2, Hnb2. unfold t1. rewrite findNeighborsBody_status.
      rewrite (statusAfter_good width b j nb d' Hg Hslot), Hn, Hcn0. reflexivity.
    + assert (Hi0 : nth_error b i = Some t2).
      { rewrite Hb' in Hi. unfold findPossibleTiles in Hi.
        rewrite callOn_other in Hi by exact Hij.
        unfold b1 in Hi. rewrite nth_error_setNth_other in Hi by congruence.
        exact Hi. }
      destruct (Hfresh i d' t2 n Hi0 Hn Hc2 Hcn0) as [(Hback & dw & Hin & Hf & Heq)|Hok];
        [|right; exact Hok].
      left. split; [exact Hback|]. exists dw. split; [|split; assumption].
      destruct Hin as [<-|Hin]; [|exact Hin].
      exfalso. apply Hij. unfold j, target. rewrite <- Heq. lia.
  - injection Hrun as <-. apply Hweaken; [congruence | reflexivity].
Qed.

Lemma notifyNeighbors_fresh (self : nat) (statuses : PerDir (option bool))
    (ds : list Dir) :
  forall b b',
    cascading width self statuses ds b ->
    statusesFresh width (awaiting width self statuses ds) b ->
    notifyNeighbors self width ds b = (Ret tt, b') ->
    statusesFresh width (awaiting width self statuses []) b'.
Proof.
  induction ds as [|d rest IH]; intros b b' Hc Hfresh Hrun; simpl in Hrun.
  - injection Hrun as <-. exact Hfresh.
  - destruct (notifyDir self width d b) as [[[]|e] b1] eqn:Hd; [|discriminate Hrun].
    apply (IH b1 b'); [| |exact Hrun].
    + eapply notifyDir_cascading; eauto.
    + eapply notifyDir_fresh; eauto.
Qed.

Lemma doCollapse_fresh (random : nat -> Rand) (w w' : World) :
  stable width (boardTiles w) ->
  statusesFresh width (fun _ _ => False) (boardTiles w) ->
  doCollapse random width w = (true, w') ->
  statusesFresh width (fun _ _ => False) (boardTiles w').
Proof.
  intros (Hg & Ha & Hfit) Hfresh Hrun.
  destruct (doCollapse_true_anatomy random width w w' (good_position width _ Hg) Hrun)
    as (i & w1 & w2 & this & _ & Hb1 & Hself & Hc & Hne & Hcollapse & Hb' & _).
  destruct (collapse_true_anatomy random i width w1 w2 Hcollapse)
    as (this0 & generated & Hself0 & _ & Hgen & Hnotify & _).
  rewrite Hb1 in Hself0, Hnotify.
  assert (this0 = this) by congruence. subst this0.
  set (k := randIndex (random (draws w1)) (List.length (possibleTiles this))) in *.
  assert (Hk : (k < List.length (possibleTiles this))%nat).
  { apply randIndex_lt. destruct (possibleTiles this); [congruence | simpl; lia]. }
  destruct (nth_key (possibleTiles this) k Hk) as (l & Hin).
  pose proof (collapse_write_cascading width width_pos (boardTiles w) i this generated
                _ l Hg Ha Hfit Hself Hc Hin Hgen) as Hcasc.
  pose proof (collapse_write_fresh (boardTiles w) i this generated Hg Hfresh Hself Hc)
    as Hstart.
  pose proof (notifyNeighbors_fresh i (neighbors this) dirs _ _ Hcasc Hstart Hnotify)
    as Hend.
  rewrite Hb'. intros j d t n Hj Hn Hct Hcn.
  destruct (Hend j d t n Hj Hn Hct Hcn) as [(_ & dw & [] & _)|Hok].
  right. exact Hok.
Qed.

End Statuses.

Lemma solving_fresh (random : nat -> Rand) (width height : Z) (w : World) :
  0 < width -> solving random width height w ->
  statusesFresh width (fun _ _ => False) (boardTiles w).
Proof.
  intros Hw Hs. induction Hs as [w|w w' Hs IH Hstep].
  - intros i d t n Hi Hn _ Hcn. exfalso.
    apply boardAt_Some in Hn. destruct Hn as [_ Hn].
    pose proof (resetBoard_settled width height w _ n Hn) as Hset.
    assert (Hlt : (Z.to_nat (neighborIndex width (Z.of_nat i) d)
                   < Z.to_nat (height * width))%nat).
    { rewrite <- (resetBoard_length width height w).
      eapply nth_error_in_range; eauto. }
    destruct (resetBoard_tile width height w _ Hlt) as (t0 & Ht0 & _ & Hc & _).
    congruence.
  - apply (doCollapse_fresh width Hw random w w');
      [apply (solving_stable random width height w Hw Hs) | exact IH | exact Hstep].
Qed.

(** X14.  In a run without contradiction, a tile that is not collapsed has
    exact neighbour statuses after every step: [null] where the board has no
    tile in that direction, [true] where the tile there is collapsed and
    [false] where it is not.  (Only the neighbours of the collapsing tile are
    told to look again; that is enough.) *)
Theorem statuses_of_open_tiles_are_exact (random : nat -> Rand) (width height : Z)
    (w : World) (i : nat) (t : Tile) (d : Dir) :
  0 < width -> solving random width height w ->
  nth_error (boardTiles w) i = Some t -> isCollapsed t = false ->
  getDir (neighbors t) d =
  match neighborOf width (boardTiles w) i d with
  | None => None
  | Some n => Some (isCollapsed n)
  end.
Proof.
  intros Hw Hs Hi Hc.
  destruct (solving_stable random width height w Hw Hs) as (Hg & _ & _).
  pose proof (solving_fresh random width height w Hw Hs) as Hfresh.
  pose proof (good_null width _ Hg i t d Hi) as Hnull.
  destruct (neighborOf width (boardTiles w) i d) as [n|] eqn:Hn.
  - unfold isCollapsed in *. destruct (collapsed n) eqn:Hcn.
    + destruct (Hfresh i d t n Hi Hn Hc Hcn) as [[]|Hok]. exact Hok.
    + destruct (getDir (neighbors t) d) as [[|]|] eqn:Hstatus.
      * destruct (good_true width _ Hg i t d Hi Hstatus) as (n' & Hn' & Hcn').
        congruence.
      * reflexivity.
      * destruct Hnull as [H _]. discriminate (H eq_refl).
  - apply Hnull. reflexivity.
Qed.

Lemma statuses_of_open_tiles_are_exact_witness :
  getDir (neighbors (nth 30 (boardTiles beforeContradiction) (newTile 0))) north
  = match neighborOf 7 (boardTiles beforeContradiction) 30 north with
    | None => None
    | Some n => Some (isCollapsed n)
    end.
Proof.
  apply (statuses_of_open_tiles_are_exact (scripted sixtyDraws) 7 6
           beforeContradiction 30 _ north ltac:(lia) beforeContradiction_solving).
  - vm_compute. reflexivity.
  - vm_compute. reflexivity.
Defined.

(* ------------------------------------------------------------------ *)
(** * class.tile.js: connectors of layouts outside the catalogue *)

(** X15.  [generateConnections] and the [switch] of [findPossibleTiles]
    read the same edges off every layout of three rows, not only off the five
    of the catalogue: for a tile whose [facing] is not "blank" and whose
    layout has three rows, [generateConnections] returns and the connector it
    stores for a side is the [potentialConnectionStr] of the layout for that
    side.  For a tile facing "blank" it returns and stores "000" on every
    side, whatever the layout is, a missing one included. *)
Theorem generateConnections_three_rows (t : Tile) :
  (String.eqb (facing t) "blank" = true ->
   exists t',
     generateConnections t = (Ret tt, t') /\
     forall dir, getConnector t' dir = Some "000") /\
  (forall r0 r1 r2,
     String.eqb (facing t) "blank" = false ->
     layout t = Some [r0; r1; r2] ->
     exists t',
       generateConnections t = (Ret tt, t') /\
       forall dir,
         potentialConnectionStr dir [r0; r1; r2] = Ret (getConnector t' dir)).
Proof.
  assert (Hreturns : (String.eqb (facing t) "blank" = true \/ layout t <> None) ->
            exists t', generateConnections t = (Ret tt, t')).
  { intros Hok.
    destruct (generateConnections t) as [[[]|e] t'] eqn:Hgen;
      [exists t'; reflexivity|].
    exfalso. revert Hgen.
    unfold generateConnections, dirs. simpl forDirs.
    unfold generateConnectionsKey, connectionStr.
    destruct (String.eqb (facing t) "blank") eqn:Hb.
    - simpl. rewrite !Hb. simpl. rewrite !Hb. simpl. rewrite !Hb.
      intros H. discriminate H.
    - destruct (layout t) as [l|] eqn:Hl;
        [|destruct Hok as [Hok|Hok]; [discriminate Hok | contradiction]].
      simpl. rewrite Hb, Hl. simpl. rewrite Hb, Hl. simpl. rewrite Hb, Hl.
      intros H. discriminate H. }
  split.
  - intros Hb. destruct (Hreturns (or_introl Hb)) as (t' & Hgen).
    exists t'. split; [exact Hgen|]. intros dir.
    pose proof (generateConnections_stores t t' Hgen dir) as Hstored.
    unfold connectionStr in Hstored. rewrite Hb in Hstored.
    injection Hstored as <-. reflexivity.
  - intros r0 r1 r2 Hb Hl.
    assert (Hsome : layout t <> None) by (rewrite Hl; discriminate).
    destruct (Hreturns (or_intror Hsome)) as (t' & Hgen).
    exists t'. split; [exact Hgen|]. intros dir.
    pose proof (generateConnections_stores t t' Hgen dir) as Hstored.
    unfold connectionStr in Hstored. rewrite Hb, Hl in Hstored.
    rewrite <- Hstored. destruct dir; reflexivity.
Qed.

(** A tile facing "zigNE" with that layout of the source's commented-out
    catalogue, and a tile facing "blank" whose layout is missing. *)
Definition zigTile : Tile :=
  mkTile 0 false "zigNE" (Some ["001"; "011"; "010"])
         (mkPerDir (Some false) (Some false) (Some false) (Some false))
         (mkPerDir None None None None) [].

Definition blankTileWithoutLayout : Tile :=
  mkTile 0 false "blank" None
         (mkPerDir (Some false) (Some false) (Some false) (Some false))
         (mkPerDir None None None None) [].

Lemma generateConnections_three_rows_witness :
  (exists t',
     generateConnections zigTile = (Ret tt, t') /\
     getConnector t' north = Some "001" /\ getConnector t' east = Some "110" /\
     getConnector t' south = Some "010" /\ getConnector t' west = Some "000") /\
  (exists t',
     generateConnections blankTileWithoutLayout = (Ret tt, t') /\
     forall dir, getConnector t' dir = Some "000").
Proof.
  split.
  - destruct (proj2 (generateConnections_three_rows zigTile)
                "001" "011" "010" eq_refl eq_refl) as (t' & Hgen & Hedges).
    exists t'. split; [exact Hgen|].
    pose proof (Hedges north) as Hn. pose proof (Hedges east) as He.
    pose proof (Hedges south) as Hs. pose proof (Hedges west) as Hw.
    cbv in Hn, He, Hs, Hw. cbv.
    injection Hn as Hn. injection He as He. injection Hs as Hs. injection Hw as Hw.
    repeat split; congruence.
  - exact (proj1 (generateConnections_three_rows blankTileWithoutLayout) eq_refl).
Defined.

(* ------------------------------------------------------------------ *)
(** * class.tile.js: narrowing twice *)

Lemma filter_twice {A} (f g : A -> bool) (l : list A) :
  (forall x, g x = f x) -> filter g (filter f l) = filter f l.
Proof.
  intros Hfg. induction l as [|x xs IH]; simpl; [reflexivity|].
  destruct (f x) eqn:Hx; [|exact IH].
  simpl. rewrite Hfg, Hx, IH. reflexivity.
Qed.

Lemma clashes_same_view (board : list Tile) (width : Z) (t t' : Tile) (l : Layout) :
  position t' = position t -> neighbors t' = neighbors t ->
  clashes board width t' l = clashes board width t l.
Proof.
  intros Hp Hn. unfold clashes, facingConnector. rewrite Hp, Hn. reflexivity.
Qed.

(** X16.  Narrowing is idempotent.  On a tile whose candidates have distinct
    names and three rows each and whose collapsed neighbours show their
    connectors, a second pass of [findPossibleTiles] over the same neighbours
    deletes nothing more and ends as the first one did: with the same throw,
    or with the same return. *)
Theorem findPossibleTiles_twice (board : list Tile) (width : Z) (t : Tile) :
  NoDup (map fst (possibleTiles t)) ->
  threeRows (possibleTiles t) ->
  connectorsKnown board width t ->
  findPossibleTilesBody width board (snd (findPossibleTilesBody width board t))
  = findPossibleTilesBody width board t.
Proof.
  intros Hnd H3 Hk.
  rewrite (findPossibleTilesBody_spec board width t Hnd H3 Hk). simpl snd.
  destruct (narrowedAll_updated board width t) as [[Hcore Hf] Hnb].
  set (t1 := narrowedAll board width t) in *.
  assert (Hp : position t1 = position t) by apply Hcore.
  assert (Hc : collapsed t1 = collapsed t) by apply Hcore.
  assert (Hk1 : connectorsKnown board width t1).
  { intros dir Htrue. rewrite Hnb in Htrue. specialize (Hk dir Htrue).
    unfold facingConnector in *. rewrite Hp. exact Hk. }
  rewrite (findPossibleTilesBody_spec board width t1
             (filtered_NoDup_keys _ _ Hf Hnd) (threeRows_filtered _ _ Hf H3) Hk1).
  destruct (narrowedAll_updated board width t1) as [[Hcore1 _] Hnb1].
  assert (Hsame : narrowedAll board width t1 = t1).
  { apply Tile_ext; [exact Hcore1 | exact Hnb1 |].
    rewrite narrowedAll_possibleTiles. unfold t1 at 2 3.
    rewrite narrowedAll_possibleTiles. apply filter_twice.
    intros e. f_equal. apply clashes_same_view; assumption. }
  rewrite Hsame, Hc. reflexivity.
Qed.

Lemma findPossibleTiles_twice_witness :
  findPossibleTilesBody 2 twoTilesMidCascade
    (snd (findPossibleTilesBody 2 twoTilesMidCascade
            (nth 1 twoTilesMidCascade (newTile 1))))
  = findPossibleTilesBody 2 twoTilesMidCascade
      (nth 1 twoTilesMidCascade (newTile 1)).
Proof.
  apply (findPossibleTiles_twice twoTilesMidCascade 2
           (nth 1 twoTilesMidCascade (newTile 1))).
  - exact layouts_NoDup.
  - exact layouts_threeRows.
  - intros dir. destruct dir; vm_compute; intros Htrue; try discriminate Htrue;
      intros Hnone; discriminate Hnone.
Defined.
